(** * gotiny: wire primitives, engine compiler and type registry

    A shallow embedding of the decode side of gotiny (decBase, decEngine,
    decoder, utils, register) together with the properties of its wire
    format.

    Conventions of the embedding.
    - A Go fixed-width integer is a [Z]; every arithmetic operation of the
      source is followed by the wrap-around of its type ([wrapU] for the
      unsigned types, [wrapS] for the signed ones).
    - A [[]byte] is a backing array together with its length; the capacity
      is the length of the backing array.  Indexing checks the length,
      slicing checks the capacity, as the Go runtime does.
    - A Go panic is the [Panic] result; a function that returns normally
      gives [Ok].
    - The index of the decoder is a [Z] that does not wrap: a read at
      [i + k] that succeeds shows [i + k] below the length of the buffer,
      and a slice bound that would overflow is out of range in any case. *)

From Stdlib Require Import ZArith Lia List Bool String Ascii.
From Stdlib.Strings Require Import Byte.
From stdpp Require Import base option list gmap strings pretty.

Local Set Warnings "-register-all".
Local Set Warnings "-clear-no-such-hyp".

Local Open Scope Z_scope.

(** ** Fixed-width integers *)

Definition wrapU (w x : Z) : Z := x mod 2 ^ w.
Definition wrapS (w x : Z) : Z := (x + 2 ^ (w - 1)) mod 2 ^ w - 2 ^ (w - 1).

Definition uint8 := wrapU 8.
Definition uint16 := wrapU 16.
Definition uint32 := wrapU 32.
Definition uint64 := wrapU 64.
Definition int16 := wrapS 16.
Definition int32 := wrapS 32.
Definition int64 := wrapS 64.

(** [x << n], [x + y], [x - y] at an unsigned type of [w] bits. *)
Definition ushl (w x n : Z) : Z := wrapU w (Z.shiftl x n).
Definition uadd (w x y : Z) : Z := wrapU w (x + y).
Definition usub (w x y : Z) : Z := wrapU w (x - y).

(** The platform word: [ptr1Size = 4 << (^uintptr(0) >> 63)] bytes. *)
Inductive platform := P32 | P64.
Definition ptr1Size (p : platform) : Z :=
  Z.shiftl 4 (match p with P32 => 0 | P64 => 1 end).
Definition intBits (p : platform) : Z := 8 * ptr1Size p.
(** The conversion [int(x)]. *)
Definition int (p : platform) (x : Z) : Z := wrapS (intBits p) x.

(** ** Panics and results *)

Inductive panic :=
| IndexOutOfRange
| SliceBoundsOutOfRange
| NilDereference
| PanicMsg (msg : string).

Inductive result (A : Type) :=
| Ok (a : A)
| Panic (e : panic).
Arguments Ok {A} a.
Arguments Panic {A} e.

Definition rbind {A B} (r : result A) (f : A -> result B) : result B :=
  match r with
  | Ok a => f a
  | Panic e => Panic e
  end.

Notation "x <-- e ;; k" := (rbind e (fun x => k))
  (at level 100, e at next level, k at level 200, right associativity,
   format "'[v' x  <--  e  ;;  '/' k ']'").

(** ** Byte slices *)

Record byteSlice := mkSlice {
  sl_arr : list byte;   (* the backing array, from the slice's first byte *)
  sl_len : Z            (* len(buf); cap(buf) is the length of [sl_arr] *)
}.

Definition byteVal (b : byte) : Z := Z.of_N (Byte.to_N b).

Definition sl_cap (s : byteSlice) : Z := Z.of_nat (length (sl_arr s)).

(** [buf[i]] *)
Definition at_ (s : byteSlice) (i : Z) : result Z :=
  if (0 <=? i) && (i <? sl_len s) then
    match sl_arr s !! Z.to_nat i with
    | Some b => Ok (byteVal b)
    | None => Panic IndexOutOfRange
    end
  else Panic IndexOutOfRange.

(** [buf[lo:hi]] *)
Definition subslice (s : byteSlice) (lo hi : Z) : result byteSlice :=
  if (0 <=? lo) && (lo <=? hi) && (hi <=? sl_cap s) then
    Ok (mkSlice (drop (Z.to_nat lo) (sl_arr s)) (hi - lo))
  else Panic SliceBoundsOutOfRange.

(** The bytes a slice shows: its first [len] bytes. *)
Definition sl_bytes (s : byteSlice) : list byte :=
  take (Z.to_nat (sl_len s)) (sl_arr s).

(** A slice whose length and capacity are those of the list. *)
Definition bytesOf (l : list byte) : byteSlice :=
  mkSlice l (Z.of_nat (length l)).

(** ** The decoder state (decoder.go)

    The [engines] and [length] fields of the Go struct are fixed at
    construction; they are kept beside the cursor state, in [session]
    below. *)

Record Decoder := mkDecoder {
  buf : byteSlice;
  index : Z;
  boolPos : Z;   (* the control byte the booleans are read from *)
  boolBit : Z    (* the mask of the next boolean in [boolPos] *)
}.

Definition setIndex (d : Decoder) (i : Z) : Decoder :=
  mkDecoder (buf d) i (boolPos d) (boolBit d).

(** Decoder actions: the receiver is threaded, a panic ends the run. *)
Definition Dec (A : Type) : Type := Decoder -> result (A * Decoder).

Definition dret {A} (a : A) : Dec A := fun d => Ok (a, d).
Definition dbind {A B} (m : Dec A) (f : A -> Dec B) : Dec B :=
  fun d => match m d with
           | Ok (a, d') => f a d'
           | Panic e => Panic e
           end.
Definition dpanic {A} (e : panic) : Dec A := fun _ => Panic e.

Notation "x <- e ; k" := (dbind e (fun x => k))
  (at level 100, e at next level, k at level 200, right associativity,
   format "'[v' x  <-  e  ;  '/' k ']'").
Notation "e ;; k" := (dbind e (fun _ => k))
  (at level 100, k at level 200, right associativity).

(** ** decBase: booleans and unsigned integers *)

Definition decBool : Dec bool := fun d =>
  d1 <-- (if boolBit d =? 0 then
            x <-- at_ (buf d) (index d) ;;
            Ok (mkDecoder (buf d) (index d + 1) x 1)
          else Ok d) ;;
  let b := negb (Z.land (boolPos d1) (boolBit d1) =? 0) in
  Ok (b, mkDecoder (buf d1) (index d1) (boolPos d1) (ushl 8 (boolBit d1) 1)).

Definition decUint64 : Dec Z := fun d =>
  let buf := buf d in
  let i := index d in
  x0 <-- at_ buf i ;;
  let x := uint64 x0 in
  if x <? 0x80 then Ok (x, setIndex d (index d + 1)) else
  x1 <-- at_ buf (i + 1) ;;
  let x := uadd 64 x (ushl 64 (uint64 x1) 7) in
  if x1 <? 0x80 then Ok (usub 64 x (Z.shiftl 1 7), setIndex d (index d + 2)) else
  x2 <-- at_ buf (i + 2) ;;
  let x := uadd 64 x (ushl 64 (uint64 x2) 14) in
  if x2 <? 0x80 then
    Ok (usub 64 x (Z.shiftl 1 7 + Z.shiftl 1 14), setIndex d (index d + 3)) else
  x3 <-- at_ buf (i + 3) ;;
  let x := uadd 64 x (ushl 64 (uint64 x3) 21) in
  if x3 <? 0x80 then
    Ok (usub 64 x (Z.shiftl 1 7 + Z.shiftl 1 14 + Z.shiftl 1 21),
        setIndex d (index d + 4)) else
  x4 <-- at_ buf (i + 4) ;;
  let x := uadd 64 x (ushl 64 (uint64 x4) 28) in
  if x4 <? 0x80 then
    Ok (usub 64 x (Z.shiftl 1 7 + Z.shiftl 1 14 + Z.shiftl 1 21 + Z.shiftl 1 28),
        setIndex d (index d + 5)) else
  x5 <-- at_ buf (i + 5) ;;
  let x := uadd 64 x (ushl 64 (uint64 x5) 35) in
  if x5 <? 0x80 then
    Ok (usub 64 x (Z.shiftl 1 7 + Z.shiftl 1 14 + Z.shiftl 1 21 + Z.shiftl 1 28
                   + Z.shiftl 1 35),
        setIndex d (index d + 6)) else
  x6 <-- at_ buf (i + 6) ;;
  let x := uadd 64 x (ushl 64 (uint64 x6) 42) in
  if x6 <? 0x80 then
    Ok (usub 64 x (Z.shiftl 1 7 + Z.shiftl 1 14 + Z.shiftl 1 21 + Z.shiftl 1 28
                   + Z.shiftl 1 35 + Z.shiftl 1 42),
        setIndex d (index d + 7)) else
  x7 <-- at_ buf (i + 7) ;;
  let x := uadd 64 x (ushl 64 (uint64 x7) 49) in
  if x7 <? 0x80 then
    Ok (usub 64 x (Z.shiftl 1 7 + Z.shiftl 1 14 + Z.shiftl 1 21 + Z.shiftl 1 28
                   + Z.shiftl 1 35 + Z.shiftl 1 42 + Z.shiftl 1 49),
        setIndex d (index d + 8)) else
  x8 <-- at_ buf (i + 8) ;;
  Ok (usub 64 (uadd 64 x (ushl 64 (uint64 x8) 56))
        (Z.shiftl 1 7 + Z.shiftl 1 14 + Z.shiftl 1 21 + Z.shiftl 1 28
         + Z.shiftl 1 35 + Z.shiftl 1 42 + Z.shiftl 1 49 + Z.shiftl 1 56),
      setIndex d (index d + 9)).

Definition decUint16 : Dec Z := fun d =>
  let buf := buf d in
  let i := index d in
  x0 <-- at_ buf i ;;
  let x := uint16 x0 in
  if x <? 0x80 then Ok (x, setIndex d (index d + 1)) else
  x1 <-- at_ buf (i + 1) ;;
  let x := uadd 16 x (ushl 16 (uint16 x1) 7) in
  if x1 <? 0x80 then Ok (usub 16 x (Z.shiftl 1 7), setIndex d (index d + 2)) else
  x2 <-- at_ buf (i + 2) ;;
  Ok (usub 16 (uadd 16 x (ushl 16 (uint16 x2) 14)) (Z.shiftl 1 7 + Z.shiftl 1 14),
      setIndex d (index d + 3)).

Definition decUint32 : Dec Z := fun d =>
  let buf := buf d in
  let i := index d in
  x0 <-- at_ buf i ;;
  let x := uint32 x0 in
  if x <? 0x80 then Ok (x, setIndex d (index d + 1)) else
  x1 <-- at_ buf (i + 1) ;;
  let x := uadd 32 x (ushl 32 (uint32 x1) 7) in
  if x1 <? 0x80 then Ok (usub 32 x (Z.shiftl 1 7), setIndex d (index d + 2)) else
  x2 <-- at_ buf (i + 2) ;;
  let x := uadd 32 x (ushl 32 (uint32 x2) 14) in
  if x2 <? 0x80 then
    Ok (usub 32 x (Z.shiftl 1 7 + Z.shiftl 1 14), setIndex d (index d + 3)) else
  x3 <-- at_ buf (i + 3) ;;
  let x := uadd 32 x (ushl 32 (uint32 x3) 21) in
  if x3 <? 0x80 then
    Ok (usub 32 x (Z.shiftl 1 7 + Z.shiftl 1 14 + Z.shiftl 1 21),
        setIndex d (index d + 4)) else
  x4 <-- at_ buf (i + 4) ;;
  let x := uadd 32 x (ushl 32 (uint32 x4) 28) in
  Ok (usub 32 x (Z.shiftl 1 7 + Z.shiftl 1 14 + Z.shiftl 1 21 + Z.shiftl 1 28),
      setIndex d (index d + 5)).

Definition decLength (p : platform) : Dec Z := fun d =>
  match decUint32 d with
  | Ok (u, d') => Ok (int p u, d')
  | Panic e => Panic e
  end.

Definition decIsNotNil : Dec bool := decBool.

(** ** utils: the float transform and the zigzag mapping

    A float is its IEEE-754 bit pattern: the pointer casts of the source
    read and write that pattern unchanged. *)

Definition reverse64Byte (u : Z) : Z :=
  let u := Z.lor (ushl 64 u 32) (Z.shiftr u 32) in
  let u := Z.lor (Z.land (ushl 64 u 16) 0xFFFF0000FFFF0000)
                 (Z.land (Z.shiftr u 16) 0xFFFF0000FFFF) in
  let u := Z.lor (Z.land (ushl 64 u 8) 0xFF00FF00FF00FF00)
                 (Z.land (Z.shiftr u 8) 0xFF00FF00FF00FF) in
  u.

Definition float64ToUint64 (bits : Z) : Z := reverse64Byte bits.

Definition uint64ToFloat64 (u : Z) : Z :=
  let u := reverse64Byte u in
  u.

Definition reverse32Byte (u : Z) : Z :=
  let u := Z.lor (ushl 32 u 16) (Z.shiftr u 16) in
  Z.lor (Z.land (ushl 32 u 8) 0xFF00FF00) (Z.land (Z.shiftr u 8) 0xFF00FF).

Definition float32ToUint32 (bits : Z) : Z := reverse32Byte bits.

Definition uint32ToFloat32 (u : Z) : Z :=
  let u := reverse32Byte u in
  u.

(** Signed operands: [v << 1] wraps at the signed type, [v >> k] is the
    arithmetic shift, [-x] wraps. *)

Definition int64ToUint64 (v : Z) : Z :=
  uint64 (Z.lxor (int64 (Z.shiftl v 1)) (Z.shiftr v 63)).

Definition uint64ToInt64 (u : Z) : Z :=
  let v := int64 u in
  Z.lxor (int64 (- Z.land v 1)) (Z.land (Z.shiftr v 1) 0x7FFFFFFFFFFFFFFF).

Definition int32ToUint32 (v : Z) : Z :=
  uint32 (Z.lxor (int32 (Z.shiftl v 1)) (Z.shiftr v 31)).

Definition uint32ToInt32 (u : Z) : Z :=
  let v := int32 u in
  Z.lxor (int32 (- Z.land v 1)) (Z.land (Z.shiftr v 1) 0x7FFFFFFF).

Definition int16ToUint16 (v : Z) : Z :=
  uint16 (Z.lxor (int16 (Z.shiftl v 1)) (Z.shiftr v 15)).

Definition uint16ToInt16 (u : Z) : Z :=
  let v := int16 u in
  Z.lxor (int16 (- Z.land v 1)) (Z.land (Z.shiftr v 1) 0x7FFF).

(** The values a signed, resp. unsigned, type of [w] bits holds. *)
Definition inS (w v : Z) : Prop := - 2 ^ (w - 1) <= v < 2 ^ (w - 1).
Definition inU (w v : Z) : Prop := 0 <= v < 2 ^ w.

(** ** decBase: the scalar engines

    An engine, a func of the decoder and of the destination pointer, is
    modelled by what it does to the value at the pointer: it takes the
    value found there and gives the value left there. *)

Definition decEng (V : Type) : Type := V -> Dec V.

Definition decIgnore {V} : decEng V := fun v => dret v.
Definition decBoolEng : decEng bool := fun _ => decBool.
Definition decInt (p : platform) : decEng Z := fun _ =>
  u <- decUint64 ; dret (int p (uint64ToInt64 u)).
Definition decInt8 : decEng Z := fun _ d =>
  x <-- at_ (buf d) (index d) ;;
  Ok (wrapS 8 x, setIndex d (index d + 1)).
Definition decInt16 : decEng Z := fun _ =>
  u <- decUint16 ; dret (uint16ToInt16 u).
Definition decInt32 : decEng Z := fun _ =>
  u <- decUint32 ; dret (uint32ToInt32 u).
Definition decInt64 : decEng Z := fun _ =>
  u <- decUint64 ; dret (uint64ToInt64 u).
Definition decUint (p : platform) : decEng Z := fun _ =>
  u <- decUint64 ; dret (wrapU (intBits p) u).
Definition decUint8 : decEng Z := fun _ d =>
  x <-- at_ (buf d) (index d) ;;
  Ok (x, setIndex d (index d + 1)).
Definition decUint16Eng : decEng Z := fun _ => decUint16.
Definition decUint32Eng : decEng Z := fun _ => decUint32.
Definition decUint64Eng : decEng Z := fun _ => decUint64.
Definition decUintptr (p : platform) : decEng Z := fun _ =>
  u <- decUint64 ; dret (wrapU (intBits p) u).
Definition decFloat32 : decEng Z := fun _ =>
  u <- decUint32 ; dret (uint32ToFloat32 u).
Definition decFloat64 : decEng Z := fun _ =>
  u <- decUint64 ; dret (uint64ToFloat64 u).
(** A time is its count of nanoseconds since the epoch. *)
Definition decTime : decEng Z := fun _ =>
  u <- decUint64 ; dret (int64 u).
Definition decComplex64 : decEng Z := fun _ => decUint64.
Definition decComplex128 : decEng (Z * Z) := fun _ =>
  re <- decUint64 ; im <- decUint64 ; dret (re, im).

(** A Go string is its bytes. *)
Definition decString (p : platform) : decEng string := fun _ d =>
  match decUint32 d with
  | Panic e => Panic e
  | Ok (u, d) =>
      let l := int p u in
      s <-- subslice (buf d) (index d) (index d + l) ;;
      Ok (string_of_list_byte (sl_bytes s), setIndex d (index d + l))
  end.

(** A [[]byte] destination: [None] is the nil slice.  The decoded slice
    aliases the buffer. *)
Definition decBytes (p : platform) : decEng (option byteSlice) := fun bytes =>
  nn <- decIsNotNil ;
  if nn then
    fun d => match decUint32 d with
             | Panic e => Panic e
             | Ok (u, d) =>
                 let l := int p u in
                 s <-- subslice (buf d) (index d) (index d + l) ;;
                 Ok (Some s, setIndex d (index d + l))
             end
  else if negb (bool_decide (bytes = None)) then dret None
  else dret bytes.

(** ** decoder.go: the top-level call *)

Definition reset : Dec Z := fun d =>
  let index := index d in
  Ok (index, mkDecoder (buf d) 0 0 0).

(** The loop of [decode]: engine [i] runs on destination [i], for as long
    as there is both an engine and a destination. *)
Fixpoint runEngines {V} (engines : list (decEng V)) (is_ : list V)
  : Dec (list V) :=
  match engines, is_ with
  | eng :: engines', v :: is_' =>
      v' <- eng v ;
      vs <- runEngines engines' is_' ;
      dret (v' :: vs)
  | _, _ => dret is_
  end.

Definition decode {V} (engines : list (decEng V)) (d : Decoder)
    (buffer : byteSlice) (is_ : list V) : result (Z * list V * Decoder) :=
  let d := mkDecoder buffer (index d) (boolPos d) (boolBit d) in
  match runEngines engines is_ d with
  | Panic e => Panic e
  | Ok (vs, d) =>
      match reset d with
      | Panic e => Panic e
      | Ok (n, d) => Ok (n, vs, d)
      end
  end.

(** A decoder as the constructors leave it: every cursor field zero. *)
Definition newDecoder : Decoder := mkDecoder (mkSlice [] 0) 0 0 0.

(** [Unmarshal], given the engines [NewDecoderWithPtr] resolved. *)
Definition Unmarshal {V} (engines : list (decEng V)) (buffer : byteSlice)
    (is_ : list V) : result (Z * list V) :=
  match decode engines newDecoder buffer is_ with
  | Panic e => Panic e
  | Ok (n, vs, _) => Ok (n, vs)
  end.

(** ** Memory: backing arrays and slice headers (unsafe.go)

    A backing array is a block of element values; an [unsafe.Pointer]
    into one is the block and the element offset. *)

Inductive pointer :=
| nilPtr
| addr (blk : positive) (off : Z).

Global Instance pointer_eq_dec : EqDecision pointer.
Proof. solve_decision. Defined.

Record sliceHeader := mkHeader {
  data : pointer;
  len : Z;
  cap : Z
}.

Definition isNil (h : sliceHeader) : bool := bool_decide (data h = nilPtr).

Section Engines.
Context {V : Type}.
Variable p : platform.

(** The zero value [MakeSlice] fills a new array with. *)
Variable zero : V.

(** The engine for [reflect.Ptr].  The destination is the pointer: [None]
    is nil, [Some v] points to the value [v]; a nil destination gets a new
    zero value to decode into. *)
Definition decPtrEng (encodingEngine : decEng V) : decEng (option V) := fun dst =>
  nn <- decIsNotNil ;
  if nn then
    let v := match dst with
             | None => zero          (* reflect.New(elementType) *)
             | Some v => v
             end in
    v' <- encodingEngine v ;
    dret (Some v')
  else if negb (bool_decide (dst = None)) then dret None
  else dret dst.

(** The engine for [reflect.Array]: the element engine, on each of the
    [l] elements in turn; there is no length on the wire. *)
Definition decArrayEng (l : nat) (encodingEngine : decEng V) : decEng (list V) :=
  runEngines (replicate l encodingEngine).

(** The engine for [reflect.Struct]: the engine of each flattened field,
    in the order of getFieldType, on the value at the field's offset. *)
Definition decStructEng (fEngines : list (decEng V)) : decEng (list V) :=
  runEngines fEngines.

(** [reflect.MakeSlice(reflectType, l, l).UnsafePointer()]: a block no
    header points to yet, holding [l] zero elements; a negative length
    panics. *)
Definition MakeSlice (l : Z) (m : gmap positive (list V))
  : result (pointer * gmap positive (list V)) :=
  if l <? 0 then Panic (PanicMsg "reflect.MakeSlice: negative len")
  else
    let blk := fresh (dom m) in
    Ok (addr blk 0, <[blk := replicate (Z.to_nat l) zero]> m).

(** [encodingEngine(d, unsafe.Add(header.data, i*size))]: the engine runs
    on element [i] counted from the data pointer.  An address outside
    every block is outside what Go defines; it is a panic here. *)
Definition engineAt (encodingEngine : decEng V) (data : pointer) (i : Z)
    (m : gmap positive (list V)) : Dec (gmap positive (list V)) :=
  match data with
  | nilPtr => dpanic NilDereference
  | addr blk off =>
      match m !! blk with
      | None => dpanic NilDereference
      | Some arr =>
          if (0 <=? off + i) then
            match arr !! Z.to_nat (off + i) with
            | None => dpanic NilDereference
            | Some v =>
                v' <- encodingEngine v ;
                dret (<[blk := <[Z.to_nat (off + i) := v']> arr]> m)
            end
          else dpanic NilDereference
      end
  end.

(** [for i := 0; i < l; i++ { ... }], entered at [i] with [n] rounds
    left. *)
Fixpoint sliceLoop (encodingEngine : decEng V) (data : pointer)
    (n : nat) (i : Z) (m : gmap positive (list V))
  : Dec (gmap positive (list V)) :=
  match n with
  | O => dret m
  | S n' =>
      m' <- engineAt encodingEngine data i m ;
      sliceLoop encodingEngine data n' (i + 1) m'
  end.

(** The engine [buildDecEngine] makes for [reflect.Slice].  The
    destination is the slice header at [p] and the memory its data
    pointer refers to. *)
Definition decSliceEng (encodingEngine : decEng V)
  : decEng (sliceHeader * gmap positive (list V)) := fun '(header, m) =>
  nn <- decIsNotNil ;
  if nn then
    l <- decLength p ;
    hm <- (if isNil header || (cap header <? l) then
             fun d => match MakeSlice l m with
                      | Panic e => Panic e
                      | Ok (ptr, m') => Ok ((mkHeader ptr l l, m'), d)
                      end
           else dret (mkHeader (data header) l (cap header), m)) ;
    let '(header, m) := hm in
    m' <- sliceLoop encodingEngine (data header) (Z.to_nat l) 0 m ;
    dret (header, m')
  else if negb (isNil header) then dret (mkHeader nilPtr 0 0, m)
  else dret (header, m).

(** The engine for [reflect.Map].  A map is the list of its entries, and
    [keyEq] is Go's [==] on the key type, by which a map finds the entry
    of a key: a key that is not equal to itself (a NaN) is never found,
    and two keys can be equal without being the same (+0 and -0).  The
    destination is the map header: [None] is the nil map.  One scratch key
    and one scratch value are decoded into, stored and zeroed again, round
    after round. *)
Context {K : Type}.
Variable keyEq : K -> K -> bool.
Variable zeroK : K.

(** [v.MapIndex(key)]: the value of the entry with an equal key. *)
Fixpoint MapIndex (key : K) (v : list (K * V)) : option V :=
  match v with
  | [] => None
  | (k, x) :: v' => if keyEq k key then Some x else MapIndex key v'
  end.

(** [v.SetMapIndex(key, val)]: the entry with an equal key takes the new
    key and the new value; when there is none, an entry is added. *)
Fixpoint SetMapIndex (key : K) (val : V) (v : list (K * V)) : list (K * V) :=
  match v with
  | [] => [(key, val)]
  | (k, x) :: v' =>
      if keyEq k key then (key, val) :: v'
      else (k, x) :: SetMapIndex key val v'
  end.

Fixpoint mapLoop (kEng : decEng K) (vEng : decEng V) (n : nat)
    (key : K) (val : V) (v : list (K * V)) : Dec (list (K * V)) :=
  match n with
  | O => dret v
  | S n' =>
      key <- kEng key ;
      val <- vEng val ;
      let v := SetMapIndex key val v in
      let key := zeroK in
      let val := zero in
      mapLoop kEng vEng n' key val v
  end.

Definition decMapEng (kEng : decEng K) (vEng : decEng V)
  : decEng (option (list (K * V))) := fun dst =>
  nn <- decIsNotNil ;
  if nn then
    l <- decLength p ;
    let v := match dst with
             | None => []         (* reflect.MakeMapWithSize *)
             | Some v => v
             end in
    v' <- mapLoop kEng vEng (Z.to_nat l) zeroK zero v ;
    dret (Some v')
  else if negb (bool_decide (dst = None)) then dret None
  else dret dst.

(** *** The engines of implementOtherSerializer

    What [reflect.New(rt).Interface()] implements, with the decoding
    method of each contract.  A method takes the bytes handed to it and
    the value of the receiver; an error it returns is the panic of the
    engine. *)
Record methodSet := mkMethods {
  GotinyDecode : option (byteSlice -> V -> result (Z * V));
  UnmarshalBinary : option (byteSlice -> V -> result V);
  GobDecode : option (byteSlice -> V -> result V)
}.

Definition serializerEng (gotinyDecode : byteSlice -> V -> result (Z * V))
  : decEng V := fun v d =>
  s <-- subslice (buf d) (index d) (sl_len (buf d)) ;;
  r <-- gotinyDecode s v ;;
  Ok (snd r, setIndex d (index d + fst r)).

Definition blobEng (unmarshal : byteSlice -> V -> result V)
  : decEng V := fun v =>
  length <- decLength p ;
  fun d =>
    let start := index d in
    let d := setIndex d (index d + length) in
    s <-- subslice (buf d) start (index d) ;;
    v' <-- unmarshal s v ;;
    Ok (v', d).

Definition implementOtherSerializer (ms : methodSet) : option (decEng V) :=
  match GotinyDecode ms with
  | Some f => Some (serializerEng f)
  | None =>
      match UnmarshalBinary ms with
      | Some f => Some (blobEng f)
      | None =>
          match GobDecode ms with
          | Some f => Some (blobEng f)
          | None => None
          end
      end
  end.

(** *** The engine for [reflect.Interface]

    The destination is an interface value and the memory of the process:
    [None] is the nil interface, [Some (t, x)] holds [x] of dynamic type
    [t].  What an interface holds of a value depends on its type
    ([ifaceIndir], the IfaceIndir of reflect's unpackEface): for most
    types a pointer to the value, and the value is [x]; for a
    pointer-shaped type (a pointer, a map) the pointer itself, and the
    pointer is [x].  getUnsafePointer returns the pointer that is stored
    in the first case, and the address of its own copy of the Value in
    the second: the engine then decodes into a copy of the pointer, what
    it does to the memory stays, and a pointer it puts into the copy
    never reaches the interface.

    The registry table [name2type], the engine of a type and the zero
    value of a type are those of the process: [getDecEngine t] is what
    the call returns or panics with, once it has returned; an engine is
    given the value at the address it is passed and the memory;
    [assignable t] says that [t] implements the interface type of the
    slot, which [v.Set] checks. *)
Context {M : Type}.
Variable name2type : gmap string positive.
Variable ifaceIndir : positive -> bool.
Variable getDecEngine : positive -> result (decEng (V * M)).
Variable assignable : positive -> bool.
Variable zeroOf : positive -> V.

Definition liftR {A} (r : result A) : Dec A := fun d =>
  match r with
  | Ok a => Ok (a, d)
  | Panic e => Panic e
  end.

Definition decInterfaceEng : decEng (option (positive * V) * M) := fun vm =>
  let v := fst vm in
  let m := snd vm in
  nn <- decIsNotNil ;
  if nn then
    name <- decString p EmptyString ;
    match name2type !! name with
    | None => dpanic (PanicMsg ("unknown typ:" +:+ name))
    | Some elementType =>
        match v with
        | Some (t, x) =>
            if bool_decide (t = elementType) then
              eng <- liftR (getDecEngine elementType) ;
              r <- eng (x, m) ;        (* at getUnsafePointer(v.Elem()) *)
              if ifaceIndir elementType
              then dret (Some (elementType, fst r), snd r)
              else dret (Some (elementType, x), snd r)
            else
              let ev := zeroOf elementType in
              eng <- liftR (getDecEngine elementType) ;
              r <- eng (ev, m) ;
              if assignable elementType
              then dret (Some (elementType, fst r), snd r)
              else dpanic (PanicMsg "reflect.Set: value is not assignable")
        | None =>
            let ev := zeroOf elementType in
            eng <- liftR (getDecEngine elementType) ;
            r <- eng (ev, m) ;
            if assignable elementType
            then dret (Some (elementType, fst r), snd r)
            else dpanic (PanicMsg "reflect.Set: value is not assignable")
        end
    end
  else if negb (bool_decide (v = None)) then dret (None, m)
  else dret (v, m).
End Engines.

(** Engines on a value and the memory, from engines on the value: the
    memory is left as it is. *)
Definition onValue {V M} (eng : decEng V) : decEng (V * M) := fun vm =>
  v' <- eng (fst vm) ;
  dret (v', snd vm).

(** ** decEngine.go: the engine compiler

    A [reflect.Type] is an identifier into the table of the program's
    types; the table gives what the methods of [reflect.Type] return.
    Types that refer to themselves are cycles of identifiers. *)

Module reflect.
Inductive Kind :=
| Invalid | Bool | Int | Int8 | Int16 | Int32 | Int64
| Uint | Uint8 | Uint16 | Uint32 | Uint64 | Uintptr
| Float32 | Float64 | Complex64 | Complex128
| Array | Chan | Func | Interface | Map | Ptr | Slice | String
| Struct | UnsafePointer.
End reflect.

(** A field of a struct type as [rt.Field(i)] describes it: whether its
    tag is [gotiny:"-"], its offset and its type.  A field whose type is
    itself a struct carries that struct's fields (Go nests structs by
    value only to finite depth) and whether the field type has a
    serializer of its own. *)
Inductive structField :=
| FieldOf (ignore : bool) (Offset : Z) (ft : positive)
| StructFieldOf (ignore : bool) (Offset : Z) (ft : positive)
    (other : bool) (fields : list structField).

Record rtypeInfo := mkType {
  Kind : reflect.Kind;
  TypeString : string;               (* rt.String() *)
  hasOtherSerializer : bool;         (* implementOtherSerializer(rt) gives engines *)
  Elem : positive;
  Key : positive;
  Len : Z;
  Fields : list structField
}.

(** getFieldType, for one field and for the fields of a struct. *)
Fixpoint fieldType (f : structField) (baseOff : Z) : list positive * list Z :=
  match f with
  | FieldOf ignore Offset ft =>
      if ignore then ([], []) else ([ft], [Offset + baseOff])
  | StructFieldOf ignore Offset ft other sub =>
      if ignore then ([], [])
      else if other then ([ft], [Offset + baseOff])
      else
        (fix loop (l : list structField) : list positive * list Z :=
           match l with
           | [] => ([], [])
           | g :: l' =>
               let '(fFields, fOffs) := fieldType g (Offset + baseOff) in
               let '(fields, offs) := loop l' in
               (fFields ++ fields, fOffs ++ offs)
           end) sub
  end.

Fixpoint getFieldType (fields : list structField) (baseOff : Z)
  : list positive * list Z :=
  match fields with
  | [] => ([], [])
  | f :: rest =>
      let '(fFields, fOffs) := fieldType f baseOff in
      let '(fields, offs) := getFieldType rest baseOff in
      (fFields ++ fields, fOffs ++ offs)
  end.

(** An engine value: an entry of [decEngines], the engine of a serializer,
    a predeclared engine of the initial cache, or the closure the compiler
    made for a type. *)
Inductive engine :=
| EKind (k : reflect.Kind)
| EOther (rt : positive)
| EFixed (name : string)
| EClosure (rt : positive).

(** An engine variable: the caller's ([Top]) or the [i]-th one the closure
    of [rt] captures ([encodingEngine], [kEng], [vEng], [fEngines[i]]). *)
Inductive slot :=
| Top
| Captured (rt : positive) (i : nat).

Global Instance slot_eq_dec : EqDecision slot.
Proof. solve_decision. Defined.
Global Instance slot_countable : Countable slot.
Proof.
  refine (inj_countable'
    (fun s => match s with Top => inl () | Captured rt i => inr (rt, i) end)
    (fun x => match x with inl _ => Top | inr (rt, i) => Captured rt i end) _).
  by intros [].
Defined.

Record compiler := mkCompiler {
  rt2decEng : gmap positive engine;   (* the cache *)
  vars : gmap slot engine;            (* the engine variables set so far *)
  locked : bool                       (* decLock, or encLock, is held *)
}.

(** [rt2decEng[reflectType] = engine; *engPtr = engine] *)
Definition store (reflectType : positive) (engPtr : slot) (eng : engine)
    (c : compiler) : compiler :=
  mkCompiler (<[reflectType := eng]> (rt2decEng c)) (<[engPtr := eng]> (vars c))
    (locked c).

(** A call that has ended: the state it leaves and the panic it ends
    with, if any.  [None] is a run cut short by the fuel; a call that is
    [None] whatever the fuel never returns. *)
Definition ended : Type := option (compiler * option panic).

(** The next deferred call runs whether or not the one before it
    panicked; a panic of its own replaces the one in flight. *)
Definition thenDeferred (r : ended) (call : compiler -> ended) : ended :=
  match r with
  | None => None
  | Some (c, inflight) =>
      match call c with
      | None => None
      | Some (c', Some e) => Some (c', Some e)
      | Some (c', None) => Some (c', inflight)
      end
  end.

Section Compiler.
Variable types : gmap positive rtypeInfo.

(** A type outside the table is the nil Type; it has no kind. *)
Definition typeOf (rt : positive) : rtypeInfo :=
  match types !! rt with
  | Some info => info
  | None => mkType reflect.Invalid "<invalid>" false 1 1 0 []
  end.

(** The common recursion of buildDecEngine and buildEncEngine.  The two
    differ in the closures they make, which the model does not look
    into, and in nothing else. *)
Fixpoint buildEngine (fuel : nat) (reflectType : positive) (engPtr : slot)
    (c : compiler) : ended :=
  match fuel with
  | O => None
  | S fuel =>
      match rt2decEng c !! reflectType with
      | Some eng =>
          Some (mkCompiler (rt2decEng c) (<[engPtr := eng]> (vars c)) (locked c),
                None)
      | None =>
          match types !! reflectType with
          | None =>
              (* implementOtherSerializer: reflect.New of the nil Type *)
              Some (c, Some (PanicMsg "reflect: New(nil)"))
          | Some _ =>
          let info := typeOf reflectType in
          if hasOtherSerializer info then
            Some (store reflectType engPtr (EOther reflectType) c, None)
          else
            let kind := Kind info in
            let registered := store reflectType engPtr (EClosure reflectType) c in
            match kind with
            | reflect.Ptr | reflect.Array | reflect.Slice =>
                let elementType := Elem info in
                thenDeferred (Some (registered, None))
                  (buildEngine fuel elementType (Captured reflectType 0))
            | reflect.Map =>
                let keyType := Key info in
                let valueType := Elem info in
                thenDeferred
                  (thenDeferred (Some (registered, None))
                     (buildEngine fuel valueType (Captured reflectType 1)))
                  (buildEngine fuel keyType (Captured reflectType 0))
            | reflect.Struct =>
                let '(fields, offs) := getFieldType (Fields info) 0 in
                thenDeferred (Some (registered, None))
                  ((fix loop (fs : list positive) (i : nat) (c : compiler)
                      : ended :=
                      match fs with
                      | [] => Some (c, None)
                      | f :: fs' =>
                          match buildEngine fuel f (Captured reflectType i) c with
                          | None => None
                          | Some (c', Some e) => Some (c', Some e)
                          | Some (c', None) => loop fs' (S i) c'
                          end
                      end) fields 0%nat)
            | reflect.Interface => Some (registered, None)
            | reflect.Chan | reflect.Func | reflect.Invalid
            | reflect.UnsafePointer =>
                Some (c, Some (PanicMsg
                  ("not support " +:+ TypeString info +:+ " type")))
            | _ => Some (store reflectType engPtr (EKind kind) c, None)
            end
          end
      end
  end.

Definition buildDecEngine := buildEngine.
Definition buildEncEngine := buildEngine.

(** getDecEngine: the cache first, under the read lock, and the compiler
    on a miss, under the write lock.  There is no deferred Unlock: a build
    that panics leaves decLock held, and a call that finds it held waits
    for it, for ever since nothing else releases it. *)
Definition getDecEngine (fuel : nat) (reflectType : positive) (c : compiler)
  : ended :=
  if locked c then None
  else
    match rt2decEng c !! reflectType with
    | Some eng =>
        Some (mkCompiler (rt2decEng c) (<[Top := eng]> (vars c)) (locked c), None)
    | None =>
        let c := mkCompiler (rt2decEng c) (vars c) true in     (* decLock.Lock() *)
        match buildDecEngine fuel reflectType Top c with
        | Some (c', None) =>
            Some (mkCompiler (rt2decEng c') (vars c') false, None) (* Unlock() *)
        | r => r
        end
    end.

(** getEncEngine: the same, on the cache and the lock of the encoder. *)
Definition getEncEngine (fuel : nat) (rt : positive) (c : compiler) : ended :=
  if locked c then None
  else
    match rt2decEng c !! rt with
    | Some eng =>
        Some (mkCompiler (rt2decEng c) (<[Top := eng]> (vars c)) (locked c), None)
    | None =>
        let c := mkCompiler (rt2decEng c) (vars c) true in     (* encLock.Lock() *)
        match buildEncEngine fuel rt Top c with
        | Some (c', None) =>
            Some (mkCompiler (rt2decEng c') (vars c') false, None) (* Unlock() *)
        | r => r
        end
    end.

(** The types of the table that have no engine yet. *)
Definition pending (c : compiler) : gset positive :=
  dom types ∖ dom (rt2decEng c).
End Compiler.

(** ** register.go: canonical names

    [getName] reads a type through [Name], [PkgPath], [Kind] and the
    components of unnamed composite types, and never looks inside a type
    that has a name.  A type is therefore given here by its shape down to
    the named types it mentions.  What Go's type identity tells apart and
    [getName] does not read is part of the shape too: the tag of a field,
    the package that qualifies the name of an unexported field or method
    ([StructField.PkgPath], [Method.PkgPath]: an unexported name of one
    package is never the same as that of another), the variadic flag of a
    function type, the direction and the element of a channel type, and
    the declaration a named type comes from ([decl]: two types declared in
    the bodies of two functions of one package share [PkgPath] and
    [Name]). *)

Inductive ChanDir := RecvDir | SendDir | BothDir.

Inductive rtype :=
| RNil                                            (* rt == nil *)
| RNamed (PkgPath Name : string) (decl : N)       (* Name() is not empty *)
| RPtr (elem : rtype)
| RArray (len : Z) (elem : rtype)
| RSlice (elem : rtype)
| RStruct (fields : list (string * bool * (string * string) * rtype))
    (* of a field: Name, Anonymous, (Tag, PkgPath), Type *)
| RMap (key elem : rtype)
| RInterface (methods : list (string * (list rtype * list rtype * (bool * string))))
    (* of a method: Name; In and Out of its Type; (IsVariadic, PkgPath) *)
| RFunc (ins outs : list rtype) (variadic : bool)
| RChan (dir : ChanDir) (elem : rtype).

(** strconv.Itoa *)
Definition Itoa (n : Z) : string := pretty n.

(** [fn[4:]] on a name that starts with the four bytes of "func". *)
Definition drop4 (s : string) : string :=
  match s with
  | String _ (String _ (String _ (String _ rest))) => rest
  | _ => EmptyString
  end.

(** The loops of getName over fields, methods, parameters and results:
    [body] appends one item, and a separator follows it, [more] when
    another item comes ([i != n-1]) and [last] after the last one. *)
Fixpoint forEach {A} (body : string -> A -> string) (more last : string)
    (xs : list A) (prefix : string) : string :=
  match xs with
  | [] => prefix
  | x :: xs' =>
      let prefix := body prefix x in
      let prefix :=
        match xs' with
        | [] => prefix +:+ last
        | _ => prefix +:+ more
        end in
      forEach body more last xs' prefix
  end.

(** The case of a function type, given how a parameter or result type is
    named. *)
Definition funcName (name : string -> rtype -> string)
    (ins outs : list rtype) (prefix : string) : string :=
  let prefix := prefix +:+ "func(" in
  let prefix := forEach name ", " "" ins prefix in
  let prefix := prefix +:+ ")" in
  let prefix := match outs with [] => prefix | _ => prefix +:+ " " end in
  let prefix := match outs with _ :: _ :: _ => prefix +:+ "(" | _ => prefix end in
  let prefix := forEach name ", " "" outs prefix in
  match outs with _ :: _ :: _ => prefix +:+ ")" | _ => prefix end.

Fixpoint getName (prefix : string) (rt : rtype) {struct rt} : string :=
  match rt with
  | RNil => prefix +:+ "<nil>"
  | RPtr elem => getName (prefix +:+ "*") elem
  | RArray len elem => getName (prefix +:+ ("[" +:+ Itoa len +:+ "]")) elem
  | RSlice elem => getName (prefix +:+ "[]") elem
  | RStruct fields =>
      let prefix := prefix +:+ "struct {" in
      let prefix := match fields with [] => prefix | _ => prefix +:+ " " end in
      let prefix :=
        forEach
          (fun prefix '(fName, anonymous, _, fType) =>
             if (anonymous : bool) then getName prefix fType
             else getName (prefix +:+ (fName +:+ " ")) fType)
          "; " " " fields prefix in
      prefix +:+ "}"
  | RMap key elem => getName (getName (prefix +:+ "map[") key +:+ "]") elem
  | RInterface methods =>
      let prefix := prefix +:+ "interface {" in
      let prefix := match methods with [] => prefix | _ => prefix +:+ " " end in
      let prefix :=
        forEach
          (fun prefix '(mName, (ins, outs, _)) =>
             let fn := funcName getName ins outs "" in
             prefix +:+ (mName +:+ drop4 fn))
          "; " " " methods prefix in
      prefix +:+ "}"
  | RFunc ins outs _ => funcName getName ins outs prefix
  | RNamed PkgPath Name _ =>
      if bool_decide (PkgPath = "") then prefix +:+ Name
      else prefix +:+ (PkgPath +:+ "." +:+ Name)
  | RChan _ _ =>
      (* Name() and PkgPath() of an unnamed channel type are empty, and
         the switch has no case for its kind *)
      prefix +:+ ""
  end.

Definition GetNameByType (rt : rtype) : string := getName "" rt.

(** ** register.go: the registry

    The registry is keyed by type identity; [T] is the set of types of the
    process, [valid rt] says that [rt] is neither nil nor of kind Invalid,
    and [nameOf] is [GetNameByType] on these types. *)

Section Registry.
Context {T : Type} `{Countable T}.
Variable valid : T -> bool.
Variable nameOf : T -> string.

Record registry := mkRegistry {
  type2name : gmap T string;
  name2type : gmap string T
}.

Definition emptyRegistry : registry := mkRegistry ∅ ∅.

Definition RegisterName (name : string) (rt : T) (r : registry)
  : result registry :=
  if bool_decide (name = "") then
    Panic (PanicMsg "attempt to register empty name")
  else if negb (valid rt) then
    Panic (PanicMsg "attempt to register nil type or invalid type")
  else
    match type2name r !! rt with
    | Some _ =>
        Panic (PanicMsg ("gotiny: registering duplicate types for " +:+ nameOf rt))
    | None =>
        match name2type r !! name with
        | Some _ =>
            Panic (PanicMsg ("gotiny: registering name" +:+ name +:+ " is exist"))
        | None =>
            Ok (mkRegistry (<[rt := name]> (type2name r))
                           (<[name := rt]> (name2type r)))
        end
    end.

Definition registerType (rt : T) (r : registry) : result (string * registry) :=
  let name := nameOf rt in
  r' <-- RegisterName name rt r ;;
  Ok (name, r').

Definition Register (rt : T) (r : registry) : result (string * registry) :=
  registerType rt r.

Definition getNameOfType (rt : T) (r : registry) : result (string * registry) :=
  match type2name r !! rt with
  | Some name => Ok (name, r)
  | None => registerType rt r
  end.

(** The operations that reach the registry, and the registry a call
    leaves: a call that panics has changed nothing. *)
Inductive registryOp :=
| OpRegisterName (name : string) (rt : T)
| OpRegister (rt : T)
| OpGetNameOfType (rt : T).

Definition runOp (o : registryOp) (r : registry) : result registry :=
  match o with
  | OpRegisterName name rt => RegisterName name rt r
  | OpRegister rt => x <-- Register rt r ;; Ok (snd x)
  | OpGetNameOfType rt => x <-- getNameOfType rt r ;; Ok (snd x)
  end.

Definition after (o : registryOp) (r : registry) : registry :=
  match runOp o r with
  | Ok r' => r'
  | Panic _ => r
  end.

Definition afterAll (ops : list registryOp) (r : registry) : registry :=
  foldl (fun r o => after o r) r ops.

(** The two tables are inverse to each other. *)
Definition oneToOne (r : registry) : Prop :=
  forall (rt : T) (name : string),
    type2name r !! rt = Some name <-> name2type r !! name = Some rt.
End Registry.

(** ** Notions the properties are stated with *)

(** Bit [k] of a byte. *)
Definition bitOf (c : Z) (k : Z) : bool := Z.testbit c k.

(** Byte [k] of a word, counted from the least significant one. *)
Definition byteOf (u : Z) (k : Z) : Z := Z.land (Z.shiftr u (8 * k)) 0xFF.

(** The destinations and the engines of a call that decodes [n]
    booleans. *)
Definition boolEngines (n : nat) : list (decEng bool) := replicate n decBoolEng.

(** The bytes a decoder action consumed. *)
Definition consumed (d d' : Decoder) : Z := index d' - index d.


(** What a varint decoder [dec] of a [w]-bit type promises when it
    returns: a value of the type, between one and [maxGroups] bytes
    consumed, nothing but the index changed, and, for as long as the last
    group was not needed, seven value bits per byte. *)
Definition groupBound (dec : Dec Z) (w maxGroups : Z) : Prop :=
  forall d v d', dec d = Ok (v, d') ->
    inU w v /\
    buf d' = buf d /\ boolPos d' = boolPos d /\ boolBit d' = boolBit d /\
    1 <= consumed d d' <= maxGroups /\
    (consumed d d' < maxGroups -> v < 2 ^ (7 * consumed d d')).

(** With [maxGroups] bytes in front of the index the decoder returns. *)
Definition groupProgress (dec : Dec Z) (maxGroups : Z) : Prop :=
  forall d, 0 <= index d -> index d + maxGroups <= sl_len (buf d) ->
    sl_len (buf d) <= sl_cap (buf d) ->
    exists v d', dec d = Ok (v, d').

(** The wire forms of 127 and 128. *)
Definition smallValues (dec : Dec Z) : Prop :=
  (forall d, at_ (buf d) (index d) = Ok 127 ->
     dec d = Ok (127, setIndex d (index d + 1))) /\
  (forall d, at_ (buf d) (index d) = Ok 0x80 ->
     at_ (buf d) (index d + 1) = Ok 1 ->
     dec d = Ok (128, setIndex d (index d + 2))) /\
  (forall d v d', dec d = Ok (v, d') -> consumed d d' = 1 -> v <= 127).

(** The zigzag mapping and its inverse at a signed type of [w] bits: the
    three pairs of utils are these at 64, 32 and 16. *)
Definition zigzagAt (w v : Z) : Z :=
  wrapU w (Z.lxor (wrapS w (Z.shiftl v 1)) (Z.shiftr v (w - 1))).
Definition unzigzagAt (w u : Z) : Z :=
  let v := wrapS w u in
  Z.lxor (wrapS w (- Z.land v 1)) (Z.land (Z.shiftr v 1) (Z.ones (w - 1))).

(** What is claimed of a pair [enc], [dec] at width [w]: [enc] interleaves
    the signed values as 0, -1, 1, -2, 2, ... and [dec] undoes it. *)
Definition zigzagPair (w : Z) (enc dec : Z -> Z) : Prop :=
  (forall v, inS w v ->
     inU w (enc v) /\
     enc v = (if v <? 0 then - 2 * v - 1 else 2 * v) /\
     dec (enc v) = v) /\
  (forall u, inU w u -> inS w (dec u) /\ enc (dec u) = u) /\
  enc 0 = 0 /\ enc (-1) = 1 /\ enc 1 = 2.

(** Where the byte reversal of a word of [nb] bytes takes bit [n] from. *)
Definition mirror (nb n : Z) : Z := 8 * (nb - 1 - n / 8) + n mod 8.

(** [rev] reverses the byte order of the words of [nb] bytes, and undoes
    itself. *)
Definition byteReversal (nb : Z) (rev : Z -> Z) : Prop :=
  forall u, inU (8 * nb) u ->
    inU (8 * nb) (rev u) /\
    (forall k, 0 <= k < nb -> byteOf (rev u) k = byteOf u (nb - 1 - k)) /\
    rev (rev u) = u.

(** A call of the compiler that ran to its end: it was not cut short, and
    it kept every engine the cache held. *)
Definition returned (c : compiler) (r : ended) : Prop :=
  exists c' e, r = Some (c', e) /\ rt2decEng c ⊆ rt2decEng c'.

(** The types of  [type Node struct { Next *Node }]:  1 is Node, 2 is
    *Node. *)
Definition nodeTypes : gmap positive rtypeInfo :=
  {[ 1%positive := mkType reflect.Struct "main.Node" false 1 1 0
                     [FieldOf false 0 2%positive];
     2%positive := mkType reflect.Ptr "*main.Node" false 1 1 0 [] ]}.

(** What the element loop leaves of the memory: the same blocks, of the
    same lengths, and every block but the one written to unchanged. *)
Definition sameShape {V} (blk : positive) (m m' : gmap positive (list V)) : Prop :=
  dom m' = dom m /\
  (forall b, length <$> (m' !! b) = length <$> (m !! b)) /\
  (forall b, b <> blk -> m' !! b = m !! b).

(** *** Notions for canonical names *)

Local Open Scope string_scope.

(** The characters with which getName writes pointer, array, slice and
    map types. *)
Definition special (c : ascii) : bool :=
  Ascii.eqb c "*" || Ascii.eqb c "[" || Ascii.eqb c "]".

(** A text without these characters. *)
Fixpoint plain (s : string) : bool :=
  match s with
  | EmptyString => true
  | String c s' => negb (special c) && plain s'
  end.

Fixpoint dotFree (s : string) : bool :=
  match s with
  | EmptyString => true
  | String c s' => negb (Ascii.eqb c ".") && dotFree s'
  end.

(** What may follow the length of an array: nothing, or the closing
    bracket. *)
Definition stops (s : string) : bool :=
  match s with
  | EmptyString => true
  | String c _ => Ascii.eqb c "]"
  end.

(** A function that appends: what it returns is its first argument
    followed by a text that does not depend on it. *)
Definition appends {A} (f : string -> A -> string) (x : A) : Prop :=
  forall prefix, f prefix x = prefix +:+ f "" x.

(** The namespace-qualified name of a named type. *)
Definition qualified (PkgPath Name : string) : string :=
  if bool_decide (PkgPath = "") then Name else PkgPath +:+ "." +:+ Name.

(** The characters of the notation of unnamed types. *)
Definition mark (c : ascii) : bool :=
  existsb (Ascii.eqb c) [" "; "*"; "["; "]"; "{"; "}"; "("; ")"; ","; ";"]%char.

Fixpoint word (s : string) : bool :=
  match s with
  | EmptyString => true
  | String c s' => negb (mark c) && word s'
  end.

(** What may follow the name of a type inside a name. *)
Definition follows (s : string) : bool :=
  match s with
  | EmptyString => true
  | String c r =>
      Ascii.eqb c "]" || Ascii.eqb c ")" || Ascii.eqb c "," || Ascii.eqb c ";"
      || (Ascii.eqb c " " && match r with String d _ => Ascii.eqb d "}" | _ => false end)
  end.

Definition identifier (s : string) : bool :=
  negb (bool_decide (s = "")) && word s.

(** The name of an embedded field is that of its type, a named type or
    a pointer to one. *)
Definition embeddedName (rt : rtype) : option string :=
  match rt with
  | RNamed _ Name _ | RPtr (RNamed _ Name _) => Some Name
  | _ => None
  end.

(** The shapes getName is applied to when types are registered: no nil
    and no channel type; named types at package level; names of types,
    fields and methods that are identifiers; embedded fields named after
    their type. *)
Fixpoint wellNamed (rt : rtype) : bool :=
  match rt with
  | RNil => false
  | RNamed PkgPath Name decl =>
      bool_decide (decl = 0%N) && identifier Name && word PkgPath && dotFree Name
  | RPtr elem | RSlice elem => wellNamed elem
  | RArray len elem => (0 <=? len)%Z && wellNamed elem
  | RMap key elem => wellNamed key && wellNamed elem
  | RStruct fields =>
      forallb (fun '(fName, anonymous, _, fType) =>
                 wellNamed fType &&
                 if (anonymous : bool)
                 then bool_decide (embeddedName fType = Some fName)
                 else identifier fName) fields
  | RInterface methods =>
      forallb (fun '(mName, (ins, outs, _)) =>
                 identifier mName && forallb wellNamed ins && forallb wellNamed outs)
        methods
  | RFunc ins outs _ => forallb wellNamed ins && forallb wellNamed outs
  | RChan _ _ => false
  end.

(** What getName reads of a shape: everything but the tags of fields,
    the variadic flags and the packages that qualify the unexported
    names of fields and methods. *)
Fixpoint readShape (rt : rtype) : rtype :=
  match rt with
  | RPtr elem => RPtr (readShape elem)
  | RArray len elem => RArray len (readShape elem)
  | RSlice elem => RSlice (readShape elem)
  | RMap key elem => RMap (readShape key) (readShape elem)
  | RStruct fields =>
      RStruct (map (fun '(fName, anonymous, _, fType) =>
                      (fName, anonymous, ("", ""), readShape fType)) fields)
  | RInterface methods =>
      RInterface (map (fun '(mName, (ins, outs, _)) =>
                         (mName, (map readShape ins, map readShape outs,
                                  (false, ""))))
                    methods)
  | RFunc ins outs _ => RFunc (map readShape ins) (map readShape outs) false
  | RChan dir elem => RChan dir (readShape elem)
  | RNil | RNamed _ _ _ => rt
  end.

(** The first character of the name of a type. *)
Definition typeStart (s : string) : bool :=
  match s with
  | EmptyString => false
  | String c _ => Ascii.eqb c "*" || Ascii.eqb c "[" || negb (mark c)
  end.

(** The shapes made of pointers, arrays, slices and maps over named
    types: the well-named shapes without struct, interface and function
    types. *)
Fixpoint simple (rt : rtype) : bool :=
  match rt with
  | RNamed PkgPath Name decl =>
      bool_decide (decl = 0%N) && identifier Name && word PkgPath && dotFree Name
  | RPtr elem | RSlice elem => simple elem
  | RArray len elem => (0 <=? len)%Z && simple elem
  | RMap key elem => simple key && simple elem
  | _ => false
  end.

(** The texts getName writes, item by item. *)
Fixpoint listText {A} (text : A -> string) (more last : string) (xs : list A)
  : string :=
  match xs with
  | [] => ""
  | x :: xs' =>
      text x +:+ (match xs' with [] => last | _ => more end)
      +:+ listText text more last xs'
  end.

Definition fieldText (f : string * bool * (string * string) * rtype) : string :=
  let '(fName, anonymous, _, fType) := f in
  if (anonymous : bool) then GetNameByType fType
  else fName +:+ " " +:+ GetNameByType fType.

Definition resultText (outs : list rtype) : string :=
  match outs with
  | [] => ""
  | [t] => " " +:+ GetNameByType t
  | _ => " (" +:+ listText GetNameByType ", " "" outs +:+ ")"
  end.

Definition signatureText (ins outs : list rtype) : string :=
  "(" +:+ listText GetNameByType ", " "" ins +:+ ")" +:+ resultText outs.

Definition methodText (m : string * (list rtype * list rtype * (bool * string))) : string :=
  let '(mName, (ins, outs, _)) := m in mName +:+ signatureText ins outs.

(** What makes a field and a method well named, and what getName reads
    of them. *)
Definition fieldOk (f : string * bool * (string * string) * rtype) : bool :=
  let '(fName, anonymous, _, fType) := f in
  wellNamed fType &&
  if (anonymous : bool) then bool_decide (embeddedName fType = Some fName)
  else identifier fName.

Definition fieldRead (f : string * bool * (string * string) * rtype)
  : string * bool * (string * string) * rtype :=
  let '(fName, anonymous, _, fType) := f in
  (fName, anonymous, ("", ""), readShape fType).

Definition methodOk (m : string * (list rtype * list rtype * (bool * string))) : bool :=
  let '(mName, (ins, outs, _)) := m in
  identifier mName && forallb wellNamed ins && forallb wellNamed outs.

Definition methodRead (m : string * (list rtype * list rtype * (bool * string)))
  : string * (list rtype * list rtype * (bool * string)) :=
  let '(mName, (ins, outs, _)) := m in
  (mName, (map readShape ins, map readShape outs, (false, ""))).

(** An item whose text, followed by something that may follow it, is read
    back in one way. *)
Definition itemUnique {A B} (text : A -> string) (ok : A -> bool)
    (read : A -> B) (x : A) : Prop :=
  forall y u u',
    ok x = true -> ok y = true -> follows u = true -> follows u' = true ->
    text x +:+ u = text y +:+ u' -> read x = read y /\ u = u'.

Definition unambiguous : rtype -> Prop :=
  itemUnique GetNameByType wellNamed readShape.

Local Close Scope string_scope.

(** ** Readings of the wire and of the caches

    Definitions the properties of the decoders, the constructors and the
    caches are stated with. *)

(** The value of the groups [xs], least significant first: seven bits of
    each group, and the whole of the group at position [whole]. *)
Fixpoint groupsValue (whole : nat) (xs : list Z) : Z :=
  match xs with
  | [] => 0
  | x :: rest =>
      match whole with
      | O => x
      | S whole' => x mod 128 + 128 * groupsValue whole' rest
      end
  end.

(** What a varint decoder [dec] of a [w]-bit type reads: the groups at the
    index, each but the last with its high bit set, the last with its high
    bit clear unless it is group number [maxGroups]; and what it returns:
    their value, wrapped to the type. *)
Definition varintOf (dec : Dec Z) (w : Z) (maxGroups : nat) : Prop :=
  forall d v d', dec d = Ok (v, d') ->
    exists xs,
      consumed d d' = Z.of_nat (length xs) /\
      (1 <= length xs <= maxGroups)%nat /\
      (forall k x, xs !! k = Some x ->
         at_ (buf d) (index d + Z.of_nat k) = Ok x /\
         ((S k < length xs)%nat -> 128 <= x) /\
         (S k = length xs -> (length xs < maxGroups)%nat -> x < 128)) /\
      v = wrapU w (groupsValue (pred maxGroups) xs).

(** A varint decoder that stays inside the buffer: when it returns, the
    index has moved forward and is at most the length; it panics only on
    an index out of range, and only when fewer than [maxGroups] bytes lie
    in front of the index. *)
Definition varintSafe (dec : Dec Z) (maxGroups : Z) : Prop :=
  forall d,
    match dec d with
    | Ok (v, d') => 0 <= index d /\ index d < index d' <= sl_len (buf d)
    | Panic e =>
        e = IndexOutOfRange /\
        (index d < 0 \/ sl_len (buf d) < index d + maxGroups
         \/ sl_cap (buf d) < sl_len (buf d))
    end.

(** An encoding cut short: [k] bytes are left in the buffer, fewer than
    [maxGroups], and each of them has its high bit set. *)
Definition truncated (dec : Dec Z) (maxGroups : nat) : Prop :=
  forall d (k : nat), (k < maxGroups)%nat ->
    sl_len (buf d) = index d + Z.of_nat k ->
    (forall j, (j < k)%nat ->
       exists x, at_ (buf d) (index d + Z.of_nat j) = Ok x /\ 128 <= x) ->
    dec d = Panic IndexOutOfRange.

(** What a signed varint decoder of a [w]-bit type promises: a value of
    the type, and a magnitude that fits the bytes consumed. *)
Definition signedGroups (dec : Dec Z) (w maxGroups : Z) : Prop :=
  forall d v d', dec d = Ok (v, d') ->
    inS w v /\
    1 <= consumed d d' <= maxGroups /\
    (consumed d d' < maxGroups ->
     - 2 ^ (7 * consumed d d' - 1) <= v < 2 ^ (7 * consumed d d' - 1)).

(** The [l] bytes of the backing array of [s] from position [i] on. *)
Definition bytesFrom (s : byteSlice) (i l : Z) : list byte :=
  take (Z.to_nat l) (drop (Z.to_nat i) (sl_arr s)).

(** The entries [kvs] stored one after the other. *)
Definition insertAll {K V} (keyEq : K -> K -> bool) (v : list (K * V))
    (kvs : list (K * V)) : list (K * V) :=
  foldl (fun v kv => SetMapIndex keyEq (fst kv) (snd kv) v) v kvs.

(** [n] entries decoded one after the other, each key and each value into
    a zero value. *)
Fixpoint decPairs {K V} (zeroK : K) (zero : V) (kEng : decEng K) (vEng : decEng V)
    (n : nat) : Dec (list (K * V)) :=
  match n with
  | O => dret []
  | S n' =>
      key <- kEng zeroK ;
      val <- vEng zero ;
      rest <- decPairs zeroK zero kEng vEng n' ;
      dret ((key, val) :: rest)
  end.

(** An engine of a type with a nil value reads one boolean first: when it
    is false the engine leaves nil and reads nothing more; when it is true
    the engine leaves a value that is not nil. *)
Definition nilMarked {R} (eng : decEng R) (isNilValue : R -> bool) : Prop :=
  forall dst d,
    match decIsNotNil d with
    | Panic e => eng dst d = Panic e
    | Ok (false, d1) => exists r, eng dst d = Ok (r, d1) /\ isNilValue r = true
    | Ok (true, d1) => forall r d', eng dst d = Ok (r, d') -> isNilValue r = false
    end.

Definition isNone {A} (o : option A) : bool :=
  match o with None => true | Some _ => false end.

(** A field whose flattened types and offsets come in pairs, the types
    whatever the base offset and the offsets moved by it. *)
Definition flattened (f : structField) : Prop :=
  forall baseOff,
    length (fst (fieldType f baseOff)) = length (snd (fieldType f baseOff)) /\
    fst (fieldType f baseOff) = fst (fieldType f 0) /\
    snd (fieldType f baseOff) = (fun o => o + baseOff) <$> snd (fieldType f 0).

(** What a call with an engine variable other than the caller's keeps. *)
Definition keeps (c c' : compiler) : Prop :=
  rt2decEng c ⊆ rt2decEng c' /\ vars c' !! Top = vars c !! Top /\
  locked c' = locked c.

(** The types of  [*chan int]:  1 is the pointer type, 2 the channel
    type. *)
Definition chanTypes : gmap positive rtypeInfo :=
  {[ 1%positive := mkType reflect.Ptr "*chan int" false 2 1 0 [];
     2%positive := mkType reflect.Chan "chan int" false 1 1 0 [] ]}.

Global Instance Kind_eq_dec : EqDecision reflect.Kind.
Proof. solve_decision. Defined.

Section Constructors.
Variable types : gmap positive rtypeInfo.

(** The loop of NewDecoder and NewDecoderWithType:
    [engines[i] = getDecEngine(ts[i])].  The engine a call returns is the
    value it leaves in the caller's variable; a panic ends the loop. *)
Fixpoint getDecEngines (fuel : nat) (ts : list positive) (c : compiler)
  : option (compiler * result (list (option engine))) :=
  match ts with
  | [] => Some (c, Ok [])
  | rt :: ts' =>
      match getDecEngine types fuel rt c with
      | None => None
      | Some (c1, Some e) => Some (c1, Panic e)
      | Some (c1, None) =>
          match getDecEngines fuel ts' c1 with
          | None => None
          | Some (c2, Panic e) => Some (c2, Panic e)
          | Some (c2, Ok engines) => Some (c2, Ok (vars c1 !! Top :: engines))
          end
      end
  end.

(** The engines of the decoder NewDecoderWithType returns; its [length]
    is their number. *)
Definition NewDecoderWithType := getDecEngines.

(** NewDecoder, given [reflect.TypeOf(is[i])] for each argument. *)
Definition NewDecoder := getDecEngines.

(** NewDecoderWithPtr, given [reflect.TypeOf(is[i])] for each argument:
    the nil Type for an untyped nil, on which [rt.Kind()] dereferences
    nil. *)
Fixpoint NewDecoderWithPtr (fuel : nat) (is_ : list positive) (c : compiler)
  : option (compiler * result (list (option engine))) :=
  match is_ with
  | [] => Some (c, Ok [])
  | rt :: is_' =>
      if negb (bool_decide (is_Some (types !! rt))) then
        Some (c, Panic NilDereference)
      else if negb (bool_decide (Kind (typeOf types rt) = reflect.Ptr)) then
        Some (c, Panic (PanicMsg "the argument must be a pointer type!"))
      else
        match getDecEngine types fuel (Elem (typeOf types rt)) c with
        | None => None
        | Some (c1, Some e) => Some (c1, Panic e)
        | Some (c1, None) =>
            match NewDecoderWithPtr fuel is_' c1 with
            | None => None
            | Some (c2, Panic e) => Some (c2, Panic e)
            | Some (c2, Ok engines) => Some (c2, Ok (vars c1 !! Top :: engines))
            end
        end
  end.
End Constructors.

(** The encoder and the decoder each have a cache; the call deletes the
    entry of [time.Time] from both. *)
Definition UnusedUnixNanoEncodeTimeType (timeType : positive)
    (enc dec : compiler) : compiler * compiler :=
  (mkCompiler (delete timeType (rt2decEng enc)) (vars enc) (locked enc),
   mkCompiler (delete timeType (rt2decEng dec)) (vars dec) (locked dec)).

(** The number of engine variables the closure of a type captures. *)
Definition captured (types : gmap positive rtypeInfo) (rt : positive) : nat :=
  match Kind (typeOf types rt) with
  | reflect.Ptr | reflect.Array | reflect.Slice => 1
  | reflect.Map => 2
  | reflect.Struct => length (fst (getFieldType (Fields (typeOf types rt)) 0))
  | _ => 0
  end.

(** An engine variable of a closure of the cache that was never set: a
    nil func, which the closure would call. *)
Definition unset (types : gmap positive rtypeInfo) (c : compiler)
    (rt : positive) (i : nat) : Prop :=
  rt2decEng c !! rt = Some (EClosure rt) /\ (i < captured types rt)%nat /\
  vars c !! Captured rt i = None.

(** What a build that returns keeps: the engines of the cache, the engine
    variables that were set, and no variable unset that was not so
    before. *)
Definition grows (types : gmap positive rtypeInfo) (c c' : compiler) : Prop :=
  rt2decEng c ⊆ rt2decEng c' /\
  (forall s, is_Some (vars c !! s) -> is_Some (vars c' !! s)) /\
  (forall t i, unset types c' t i -> unset types c t i).

(** A decoder action that reads forward: it leaves the buffer in place
    and the index where it was or further on. *)
Definition forward {A} (m : Dec A) : Prop :=
  forall d a d', m d = Ok (a, d') -> buf d' = buf d /\ index d <= index d'.

Definition forwardEng {V} (eng : decEng V) : Prop := forall v, forward (eng v).

(** * Properties *)

(** ** Bytes and reads *)

Lemma byteVal_range (c : byte) : 0 <= byteVal c < 256.
Proof.
  unfold byteVal. pose proof (Byte.to_N_bounded c). lia.
Qed.

Lemma at_range s i x : at_ s i = Ok x -> 0 <= x < 256.
Proof.
  unfold at_. destruct (_ && _); [|discriminate].
  destruct (_ !! _) as [c|]; [|discriminate].
  intros [= <-]. apply byteVal_range.
Qed.

Lemma at_in_range s i :
  0 <= i -> i < sl_len s -> sl_len s <= sl_cap s -> exists x, at_ s i = Ok x.
Proof.
  unfold at_, sl_cap. intros H0 H1 H2.
  destruct (Z.leb_spec 0 i); [|lia]. destruct (Z.ltb_spec i (sl_len s)); [|lia].
  cbn. destruct (sl_arr s !! Z.to_nat i) as [c|] eqn:E; [eauto|].
  apply lookup_ge_None in E. lia.
Qed.

(** ** The varint decoders *)

Ltac read_byte :=
  match goal with
  | H : context [rbind (at_ ?s ?i) _] |- _ =>
      let x := fresh "x" in let E := fresh "E" in
      destruct (at_ s i) as [x|] eqn:E; cbn [rbind] in H;
      [pose proof (at_range _ _ _ E)|discriminate]
  end.

Ltac split_lt :=
  match goal with
  | H : context [if ?a <? ?b then _ else _] |- _ =>
      destruct (Z.ltb_spec a b)
  end.

Ltac norm_pow :=
  repeat match goal with
  | |- context [2 ^ ?n] =>
      let v := eval compute in (2 ^ n) in change (2 ^ n) with v in *
  | H : context [2 ^ ?n] |- _ =>
      let v := eval compute in (2 ^ n) in change (2 ^ n) with v in *
  end.

Ltac small_mods :=
  repeat match goal with
  | |- context [?a mod ?m] => rewrite (Z.mod_small a m) by lia
  | H : context [?a mod ?m] |- _ => rewrite (Z.mod_small a m) in H by lia
  end.

(** Unfold the wrap-around arithmetic of a decoder down to [mod]. *)
Ltac to_mod :=
  unfold consumed, uadd, usub, ushl, uint16, uint32, uint64, wrapU in *;
  cbn [buf index boolPos boolBit setIndex] in *;
  rewrite ?Z.shiftl_mul_pow2 in * by lia; norm_pow; small_mods.

Ltac arith :=
  to_mod;
  repeat match goal with |- _ /\ _ => split end; try reflexivity;
  first [lia | apply Z.mod_pos_bound; lia | Z.div_mod_to_equations; lia].

Lemma decUint16_spec d v d' :
  decUint16 d = Ok (v, d') ->
  buf d' = buf d /\ boolPos d' = boolPos d /\ boolBit d' = boolBit d /\
  0 <= v < 2 ^ 16 /\
  (consumed d d' = 1 /\ v < 2 ^ 7 \/
   consumed d d' = 2 /\ v < 2 ^ 14 \/
   consumed d d' = 3).
Proof.
  unfold decUint16. intros H. cbv zeta in H.
  repeat (read_byte; split_lt; [injection H as <- <-; arith|]).
  read_byte. injection H as <- <-; arith.
Qed.

Lemma decUint32_spec d v d' :
  decUint32 d = Ok (v, d') ->
  buf d' = buf d /\ boolPos d' = boolPos d /\ boolBit d' = boolBit d /\
  0 <= v < 2 ^ 32 /\
  (consumed d d' = 1 /\ v < 2 ^ 7 \/
   consumed d d' = 2 /\ v < 2 ^ 14 \/
   consumed d d' = 3 /\ v < 2 ^ 21 \/
   consumed d d' = 4 /\ v < 2 ^ 28 \/
   consumed d d' = 5).
Proof.
  unfold decUint32. intros H. cbv zeta in H.
  repeat (read_byte; split_lt; [injection H as <- <-; arith|]).
  read_byte. injection H as <- <-; arith.
Qed.

Lemma decUint64_spec d v d' :
  decUint64 d = Ok (v, d') ->
  buf d' = buf d /\ boolPos d' = boolPos d /\ boolBit d' = boolBit d /\
  0 <= v < 2 ^ 64 /\
  (consumed d d' = 1 /\ v < 2 ^ 7 \/
   consumed d d' = 2 /\ v < 2 ^ 14 \/
   consumed d d' = 3 /\ v < 2 ^ 21 \/
   consumed d d' = 4 /\ v < 2 ^ 28 \/
   consumed d d' = 5 /\ v < 2 ^ 35 \/
   consumed d d' = 6 /\ v < 2 ^ 42 \/
   consumed d d' = 7 /\ v < 2 ^ 49 \/
   consumed d d' = 8 /\ v < 2 ^ 56 \/
   consumed d d' = 9).
Proof.
  unfold decUint64. intros H. cbv zeta in H.
  repeat (read_byte; split_lt; [injection H as <- <-; arith|]).
  read_byte. injection H as <- <-; arith.
Qed.

Ltac skip_short H :=
  repeat (read_byte; split_lt;
          [injection H as <- <-; unfold consumed; cbn [index setIndex]; lia|]).

Lemma decUint64_last_group d v d' :
  decUint64 d = Ok (v, d') -> consumed d d' = 9 ->
  at_ (buf d) (index d + 8) = Ok (v / 2 ^ 56).
Proof.
  unfold decUint64. intros H. cbv zeta in H. skip_short H.
  read_byte. injection H as <- <-. intros _. apply f_equal.
  to_mod. rewrite Zminus_mod_idemp_l. small_mods.
  apply Z.div_unique with
    (r := x - 128 + (x0 - 128) * 128 + (x1 - 128) * 16384
          + (x2 - 128) * 2097152 + (x3 - 128) * 268435456
          + (x4 - 128) * 34359738368 + (x5 - 128) * 4398046511104
          + (x6 - 128) * 562949953421312); lia.
Qed.

Lemma decUint32_last_group d v d' :
  decUint32 d = Ok (v, d') -> consumed d d' = 5 ->
  exists x4, at_ (buf d) (index d + 4) = Ok x4 /\ v / 2 ^ 28 = x4 mod 2 ^ 4.
Proof.
  unfold decUint32. intros H. cbv zeta in H. skip_short H.
  read_byte. injection H as <- <-. intros _. eexists. split; [done|].
  to_mod. rewrite Zplus_mod_idemp_r, Zminus_mod_idemp_l.
  pose proof (Z.div_mod x3 16 ltac:(lia)).
  pose proof (Z.mod_pos_bound x3 16 ltac:(lia)).
  replace (x + x0 * 128 + x1 * 16384 + x2 * 2097152 + x3 * 268435456
           - (1 * 128 + 1 * 16384 + 1 * 2097152 + 1 * 268435456))
    with ((x - 128 + (x0 - 128) * 128 + (x1 - 128) * 16384
           + (x2 - 128) * 2097152 + (x3 mod 16) * 268435456)
          + (x3 / 16) * 4294967296) by lia.
  rewrite Z_mod_plus_full. rewrite (Z.mod_small _ 4294967296) by lia.
  symmetry. apply Z.div_unique with
    (r := x - 128 + (x0 - 128) * 128 + (x1 - 128) * 16384
          + (x2 - 128) * 2097152); lia.
Qed.

Lemma decUint16_last_group d v d' :
  decUint16 d = Ok (v, d') -> consumed d d' = 3 ->
  exists x2, at_ (buf d) (index d + 2) = Ok x2 /\ v / 2 ^ 14 = x2 mod 2 ^ 2.
Proof.
  unfold decUint16. intros H. cbv zeta in H. skip_short H.
  read_byte. injection H as <- <-. intros _. eexists. split; [done|].
  to_mod. rewrite Zplus_mod_idemp_r, Zminus_mod_idemp_l.
  pose proof (Z.div_mod x1 4 ltac:(lia)).
  pose proof (Z.mod_pos_bound x1 4 ltac:(lia)).
  replace (x + x0 * 128 + x1 * 16384 - (1 * 128 + 1 * 16384))
    with ((x - 128 + (x0 - 128) * 128 + (x1 mod 4) * 16384)
          + (x1 / 4) * 65536) by lia.
  rewrite Z_mod_plus_full. rewrite (Z.mod_small _ 65536) by lia.
  symmetry. apply Z.div_unique with (r := x - 128 + (x0 - 128) * 128); lia.
Qed.

Lemma decUint16_groupBound : groupBound decUint16 16 3.
Proof.
  intros d v d' H. destruct (decUint16_spec _ _ _ H) as (? & ? & ? & ? & Hc).
  unfold inU. repeat split; try done; try lia.
  intros Hlt.
  destruct Hc as [[-> ?]|[[-> ?]|Hc]]; [done|done|lia].
Qed.

Lemma decUint32_groupBound : groupBound decUint32 32 5.
Proof.
  intros d v d' H. destruct (decUint32_spec _ _ _ H) as (? & ? & ? & ? & Hc).
  unfold inU. repeat split; try done; try lia.
  intros Hlt.
  destruct Hc as [[-> ?]|[[-> ?]|[[-> ?]|[[-> ?]|Hc]]]]; try done; lia.
Qed.

Lemma decUint64_groupBound : groupBound decUint64 64 9.
Proof.
  intros d v d' H. destruct (decUint64_spec _ _ _ H) as (? & ? & ? & ? & Hc).
  unfold inU. repeat split; try done; try lia.
  intros Hlt.
  destruct Hc as [[-> ?]|[[-> ?]|[[-> ?]|[[-> ?]|[[-> ?]|[[-> ?]|[[-> ?]|[[-> ?]|Hc]]]]]]]];
    try done; lia.
Qed.

Ltac progress_reads d :=
  repeat match goal with
  | |- context [at_ (buf d) ?j] =>
      let x := fresh "x" in let E := fresh "E" in
      destruct (at_in_range (buf d) j) as [x E]; [lia..|];
      rewrite E; cbn [rbind]
  | |- context [if ?a <? ?c then _ else _] => destruct (a <? c)
  end; eauto.

Lemma decUint16_progress : groupProgress decUint16 3.
Proof. intros d ? ? ?. unfold decUint16. cbv zeta. progress_reads d. Qed.

Lemma decUint32_progress : groupProgress decUint32 5.
Proof. intros d ? ? ?. unfold decUint32. cbv zeta. progress_reads d. Qed.

Lemma decUint64_progress : groupProgress decUint64 9.
Proof. intros d ? ? ?. unfold decUint64. cbv zeta. progress_reads d. Qed.

Lemma decUint16_smallValues : smallValues decUint16.
Proof.
  repeat split.
  - intros d E. unfold decUint16. cbv zeta. by rewrite E.
  - intros d E0 E1. unfold decUint16. cbv zeta. by rewrite E0, E1.
  - intros d v d' H Hc. destruct (decUint16_spec _ _ _ H) as (_ & _ & _ & _ & Hs).
    norm_pow. lia.
Qed.

Lemma decUint32_smallValues : smallValues decUint32.
Proof.
  repeat split.
  - intros d E. unfold decUint32. cbv zeta. by rewrite E.
  - intros d E0 E1. unfold decUint32. cbv zeta. by rewrite E0, E1.
  - intros d v d' H Hc. destruct (decUint32_spec _ _ _ H) as (_ & _ & _ & _ & Hs).
    norm_pow. lia.
Qed.

Lemma decUint64_smallValues : smallValues decUint64.
Proof.
  repeat split.
  - intros d E. unfold decUint64. cbv zeta. by rewrite E.
  - intros d E0 E1. unfold decUint64. cbv zeta. by rewrite E0, E1.
  - intros d v d' H Hc. destruct (decUint64_spec _ _ _ H) as (_ & _ & _ & _ & Hs).
    norm_pow. lia.
Qed.

(** C1, as stated, fails: the claim bounds the 16-bit decoder by two
    bytes, and on the bytes 80 80 01 decUint16 consumes three and returns
    16384, a value two groups of seven bits cannot carry. *)
Lemma decUint16_reads_three_groups :
  decUint16 (mkDecoder (bytesOf [x80; x80; x01]%byte) 0 0 0)
  = Ok (16384, mkDecoder (bytesOf [x80; x80; x01]%byte) 3 0 0)
  /\ ~ (forall d v d', decUint16 d = Ok (v, d') -> consumed d d' <= 2).
Proof.
  split; [reflexivity|].
  intros Hall.
  specialize (Hall (mkDecoder (bytesOf [x80; x80; x01]%byte) 0 0 0) _ _ eq_refl).
  unfold consumed in Hall. cbn in Hall. lia.
Qed.

(** C1 (amended): the varint decoders are bounded by 3 groups for 16-bit
    values, 5 for 32-bit values and 9 for 64-bit values, they return
    whenever that many bytes are present, and a read that stops before the
    last group carries seven bits per byte.  The last group is not
    compressed: the ninth byte of a 64-bit value is the top eight bits of
    the value (the low 4 bits of the fifth byte for 32 bits, the low 2 bits
    of the third for 16 bits).  127 is the one byte 7f, 128 the two bytes
    80 01 and no single byte, and a 64-bit value of 2^56 or more is read
    from nine bytes. *)
Theorem varint_group_bounds :
  (groupBound decUint16 16 3 /\ groupBound decUint32 32 5 /\
   groupBound decUint64 64 9) /\
  (groupProgress decUint16 3 /\ groupProgress decUint32 5 /\
   groupProgress decUint64 9) /\
  (smallValues decUint16 /\ smallValues decUint32 /\ smallValues decUint64) /\
  (forall d v d', decUint64 d = Ok (v, d') -> 2 ^ 56 <= v -> consumed d d' = 9) /\
  (forall d v d', decUint64 d = Ok (v, d') -> consumed d d' = 9 ->
     at_ (buf d) (index d + 8) = Ok (v / 2 ^ 56)) /\
  (forall d v d', decUint32 d = Ok (v, d') -> consumed d d' = 5 ->
     exists x4, at_ (buf d) (index d + 4) = Ok x4 /\ v / 2 ^ 28 = x4 mod 2 ^ 4) /\
  (forall d v d', decUint16 d = Ok (v, d') -> consumed d d' = 3 ->
     exists x2, at_ (buf d) (index d + 2) = Ok x2 /\ v / 2 ^ 14 = x2 mod 2 ^ 2).
Proof.
  split. { auto using decUint16_groupBound, decUint32_groupBound, decUint64_groupBound. }
  split. { auto using decUint16_progress, decUint32_progress, decUint64_progress. }
  split. { auto using decUint16_smallValues, decUint32_smallValues, decUint64_smallValues. }
  split.
  { intros d v d' H Hv. destruct (decUint64_spec _ _ _ H) as (_ & _ & _ & _ & Hs).
    norm_pow. lia. }
  split; [|split].
  - apply decUint64_last_group.
  - apply decUint32_last_group.
  - apply decUint16_last_group.
Qed.

(** Nine bytes ff decode to the largest 64-bit value: the ninth byte gives
    eight value bits, and the value needs all nine bytes. *)
Lemma varint_group_bounds_witness :
  decUint64 (mkDecoder (bytesOf [xff; xff; xff; xff; xff; xff; xff; xff; xff]%byte) 0 0 0)
  = Ok (2 ^ 64 - 1,
        mkDecoder (bytesOf [xff; xff; xff; xff; xff; xff; xff; xff; xff]%byte) 9 0 0)
  /\ consumed
       (mkDecoder (bytesOf [xff; xff; xff; xff; xff; xff; xff; xff; xff]%byte) 0 0 0)
       (mkDecoder (bytesOf [xff; xff; xff; xff; xff; xff; xff; xff; xff]%byte) 9 0 0)
     = 9.
Proof.
  split; [reflexivity|].
  destruct varint_group_bounds as (_ & _ & _ & H56 & _).
  apply (H56 _ (2 ^ 64 - 1)); [reflexivity|].
  vm_compute. discriminate.
Defined.

(** ** The zigzag mapping *)

Section Zigzag.
Variable w : Z.
Hypothesis Hw : 1 < w.

Lemma pow2_split : 2 ^ w = 2 * 2 ^ (w - 1).
Proof. rewrite <- Z.pow_succ_r by lia. f_equal. lia. Qed.

Lemma wrapU_wrapS x : wrapU w (wrapS w x) = wrapU w x.
Proof.
  unfold wrapU, wrapS. pose proof pow2_split.
  assert (0 < 2 ^ (w - 1)) by (apply Z.pow_pos_nonneg; lia).
  rewrite Zminus_mod_idemp_l.
  replace (x + 2 ^ (w - 1) - 2 ^ (w - 1)) with x by lia. done.
Qed.

Lemma wrapS_small x : inS w x -> wrapS w x = x.
Proof.
  unfold wrapS, inS. intros Hx. pose proof pow2_split.
  rewrite Z.mod_small by lia. lia.
Qed.

Lemma wrapS_cases u :
  inU w u -> wrapS w u = u \/ wrapS w u = u - 2 ^ w.
Proof.
  unfold wrapS, inU. intros Hu. pose proof pow2_split.
  destruct (Z.lt_ge_cases u (2 ^ (w - 1))).
  - left. rewrite Z.mod_small by lia. lia.
  - right. replace (u + 2 ^ (w - 1)) with ((u - 2 ^ (w - 1)) + 1 * 2 ^ w) by lia.
    rewrite Z_mod_plus_full. rewrite Z.mod_small by lia. lia.
Qed.

(** Non-negative values go to the even numbers, negative ones to the
    odd numbers. *)
Lemma zigzagAt_closed v :
  inS w v -> zigzagAt w v = if v <? 0 then - 2 * v - 1 else 2 * v.
Proof.
  unfold zigzagAt, inS. intros Hv. pose proof pow2_split.
  assert (0 < 2 ^ (w - 1)) by (apply Z.pow_pos_nonneg; lia).
  rewrite Z.shiftl_mul_pow2, Z.shiftr_div_pow2 by lia.
  destruct (Z.ltb_spec v 0).
  - replace (v / 2 ^ (w - 1)) with (-1)
      by (apply Z.div_unique with (r := v + 2 ^ (w - 1)); lia).
    rewrite Z.lxor_m1_r. unfold Z.lnot.
    replace (Z.pred (- wrapS w (v * 2 ^ 1))) with (-1 - wrapS w (v * 2 ^ 1)) by lia.
    unfold wrapU. rewrite <- Zminus_mod_idemp_r.
    fold (wrapU w (wrapS w (v * 2 ^ 1))).
    rewrite wrapU_wrapS. unfold wrapU. rewrite Zminus_mod_idemp_r.
    rewrite Z.mod_small; lia.
  - rewrite Z.div_small by lia. rewrite Z.lxor_0_r, wrapU_wrapS.
    unfold wrapU. rewrite Z.mod_small; lia.
Qed.

Lemma unzigzagAt_closed u :
  inU w u -> unzigzagAt w u = if Z.even u then u / 2 else - (u / 2) - 1.
Proof.
  unfold unzigzagAt, inU. intros Hu. pose proof pow2_split. cbv zeta.
  assert (0 < 2 ^ (w - 1)) by (apply Z.pow_pos_nonneg; lia).
  assert (Hmod2 : wrapS w u mod 2 = u mod 2).
  { destruct (wrapS_cases u Hu) as [->| ->]; [done|].
    replace (u - 2 ^ w) with (u + (- 2 ^ (w - 1)) * 2) by lia.
    apply Z_mod_plus_full. }
  assert (Hhalf : Z.land (Z.shiftr (wrapS w u) 1) (Z.ones (w - 1)) = u / 2).
  { rewrite Z.land_ones by lia. rewrite Z.shiftr_div_pow2 by lia.
    change (2 ^ 1) with 2.
    destruct (wrapS_cases u Hu) as [->| ->].
    - apply Z.mod_small. split; [apply Z.div_pos; lia|].
      apply Z.div_lt_upper_bound; lia.
    - replace (u - 2 ^ w) with (u + (- 2 ^ (w - 1)) * 2) by lia.
      rewrite Z.div_add by lia.
      replace (- 2 ^ (w - 1)) with ((-1) * 2 ^ (w - 1)) by lia.
      rewrite Z_mod_plus_full. apply Z.mod_small.
      split; [apply Z.div_pos; lia|]. apply Z.div_lt_upper_bound; lia. }
  rewrite Hhalf.
  change 1 with (Z.ones 1) at 1. rewrite Z.land_ones by lia.
  change (2 ^ 1) with 2. rewrite Hmod2.
  rewrite Zmod_even. destruct (Z.even u).
  - change (- 0) with 0. rewrite wrapS_small by (unfold inS; lia).
    apply Z.lxor_0_l.
  - rewrite wrapS_small by (unfold inS; lia).
    rewrite Z.lxor_m1_l. unfold Z.lnot. lia.
Qed.

Lemma unzigzag_zigzag v : inS w v -> unzigzagAt w (zigzagAt w v) = v.
Proof.
  intros Hv. pose proof pow2_split. rewrite zigzagAt_closed by done.
  unfold inS in Hv.
  destruct (Z.ltb_spec v 0).
  - rewrite unzigzagAt_closed by (unfold inU; lia).
    replace (-2 * v - 1) with (1 + 2 * (- v - 1)) by lia.
    rewrite Z.even_add_mul_2. cbn [Z.even].
    replace (1 + 2 * (- v - 1)) with (1 + (- v - 1) * 2) by lia.
    rewrite Z.div_add by lia. change (1 / 2) with 0. lia.
  - rewrite unzigzagAt_closed by (unfold inU; lia).
    replace (2 * v) with (0 + 2 * v) by lia. rewrite Z.even_add_mul_2.
    cbn [Z.even]. replace (0 + 2 * v) with (v * 2) by lia.
    rewrite Z.div_mul by lia. done.
Qed.

Lemma zigzag_unzigzag u :
  inU w u -> inS w (unzigzagAt w u) /\ zigzagAt w (unzigzagAt w u) = u.
Proof.
  intros Hu. pose proof pow2_split. rewrite unzigzagAt_closed by done.
  unfold inU in Hu.
  pose proof (Z.div_mod u 2 ltac:(lia)) as Hdm.
  rewrite Zmod_even in Hdm.
  destruct (Z.even u).
  - split; [unfold inS; lia|].
    rewrite zigzagAt_closed by (unfold inS; lia).
    destruct (Z.ltb_spec (u / 2) 0); lia.
  - split; [unfold inS; lia|].
    rewrite zigzagAt_closed by (unfold inS; lia).
    destruct (Z.ltb_spec (- (u / 2) - 1) 0); lia.
Qed.

Lemma zigzagAt_pair : zigzagPair w (zigzagAt w) (unzigzagAt w).
Proof.
  pose proof pow2_split.
  assert (2 <= 2 ^ (w - 1)).
  { change 2 with (2 ^ 1) at 1. apply Z.pow_le_mono_r; lia. }
  split; [|split; [|repeat split]].
  - intros v Hv. split; [|split].
    + rewrite zigzagAt_closed by done.
      unfold inS, inU in *. destruct (Z.ltb_spec v 0); lia.
    + by apply zigzagAt_closed.
    + by apply unzigzag_zigzag.
  - apply zigzag_unzigzag.
  - rewrite zigzagAt_closed; [done | unfold inS; lia].
  - rewrite zigzagAt_closed; [done | unfold inS; lia].
  - rewrite zigzagAt_closed; [done | unfold inS; lia].
Qed.
End Zigzag.

(** C2: at each of the widths 64, 32 and 16 the signed-to-unsigned
    function of utils is the zigzag mapping  (v << 1) xor (v >> (w-1)):
    it takes the values of the signed type into the unsigned type, sending
    0, -1, 1, -2, 2, ... to 0, 1, 2, 3, 4, ...; the unsigned-to-signed
    function is its inverse, in both directions. *)
Theorem zigzag_inverse :
  (forall v, int64ToUint64 v = zigzagAt 64 v) /\
  (forall v, int32ToUint32 v = zigzagAt 32 v) /\
  (forall v, int16ToUint16 v = zigzagAt 16 v) /\
  zigzagPair 64 int64ToUint64 uint64ToInt64 /\
  zigzagPair 32 int32ToUint32 uint32ToInt32 /\
  zigzagPair 16 int16ToUint16 uint16ToInt16.
Proof.
  split; [done|]. split; [done|]. split; [done|].
  split; [|split].
  - exact (zigzagAt_pair 64 ltac:(lia)).
  - exact (zigzagAt_pair 32 ltac:(lia)).
  - exact (zigzagAt_pair 16 ltac:(lia)).
Qed.

(** The most negative 64-bit value goes to the largest unsigned one and
    comes back. *)
Lemma zigzag_inverse_witness :
  inS 64 (- 2 ^ 63) /\
  int64ToUint64 (- 2 ^ 63) = 2 ^ 64 - 1 /\
  uint64ToInt64 (int64ToUint64 (- 2 ^ 63)) = - 2 ^ 63.
Proof.
  assert (Hin : inS 64 (- 2 ^ 63)) by (unfold inS; lia).
  destruct zigzag_inverse as (_ & _ & _ & [H64 _] & _).
  destruct (H64 (- 2 ^ 63) Hin) as (_ & Hval & Hinv).
  split; [exact Hin|]. split; [|exact Hinv].
  rewrite Hval. reflexivity.
Defined.

(** ** The float transform *)

Ltac closed_bits :=
  repeat match goal with
  | |- context [Z.testbit (Zpos ?c) (Zpos ?k)] =>
      let bv := eval vm_compute in (Z.testbit (Zpos c) (Zpos k)) in
      change (Z.testbit (Zpos c) (Zpos k)) with bv
  | |- context [Z.testbit (Zpos ?c) 0] =>
      let bv := eval vm_compute in (Z.testbit (Zpos c) 0) in
      change (Z.testbit (Zpos c) 0) with bv
  end.

Ltac bit_step :=
  first
    [ rewrite Z.lor_spec
    | rewrite Z.land_spec
    | rewrite Z.shiftr_spec by lia
    | rewrite Z.shiftl_spec by lia
    | rewrite Z.mod_pow2_bits_low by lia
    | rewrite Z.testbit_neg_r by lia ].

Lemma inU_high w u k : 0 <= w -> inU w u -> w <= k -> Z.testbit u k = false.
Proof.
  unfold inU. intros Hw Hu Hk.
  rewrite <- (Z.mod_small u (2 ^ w)) by done.
  apply Z.mod_pow2_bits_high. lia.
Qed.

Ltac bit_case Hhigh :=
  cbn [Z.of_nat Pos.of_succ_nat Pos.succ];
  unfold reverse64Byte, reverse32Byte, ushl, wrapU, mirror; cbv zeta;
  repeat bit_step;
  closed_bits;
  repeat match goal with
  | |- context [Z.testbit ?u ?k] =>
      lazymatch k with
      | Zpos _ => fail
      | Z0 => fail
      | Zneg _ => fail
      | _ => let k' := eval vm_compute in k in change k with k'
      end
  end;
  rewrite ?Z.testbit_neg_r by lia;
  repeat match goal with
  | |- context [Z.testbit ?a ?k] => rewrite (Hhigh k) by lia
  end;
  rewrite ?andb_true_r, ?andb_false_r, ?orb_false_r, ?orb_false_l;
  reflexivity.

Lemma reverse64Byte_testbit u n :
  inU 64 u -> 0 <= n < 64 ->
  Z.testbit (reverse64Byte u) n = Z.testbit u (mirror 8 n).
Proof.
  intros Hu Hn.
  pose proof (fun k => inU_high 64 u k ltac:(lia) Hu) as Hhigh.
  assert (Hk : exists k : nat, n = Z.of_nat k /\ (k < 64)%nat)
    by (exists (Z.to_nat n); lia).
  destruct Hk as (k & -> & Hk).
  do 64 (destruct k as [|k]; [bit_case Hhigh|]). lia.
Qed.

Lemma reverse32Byte_testbit u n :
  inU 32 u -> 0 <= n < 32 ->
  Z.testbit (reverse32Byte u) n = Z.testbit u (mirror 4 n).
Proof.
  intros Hu Hn.
  pose proof (fun k => inU_high 32 u k ltac:(lia) Hu) as Hhigh.
  assert (Hk : exists k : nat, n = Z.of_nat k /\ (k < 32)%nat)
    by (exists (Z.to_nat n); lia).
  destruct Hk as (k & -> & Hk).
  do 32 (destruct k as [|k]; [bit_case Hhigh|]). lia.
Qed.

(** A non-negative number with no bit at [w] or above is a [w]-bit
    value. *)
Lemma inU_of_bits w a :
  0 <= w -> 0 <= a -> (forall k, w <= k -> Z.testbit a k = false) -> inU w a.
Proof.
  intros Hw Ha Hbits. unfold inU. split; [done|].
  replace a with (a mod 2 ^ w); [apply Z.mod_pos_bound; lia|].
  apply Z.bits_inj'. intros n Hn.
  destruct (Z.lt_ge_cases n w).
  - by apply Z.mod_pow2_bits_low.
  - rewrite Z.mod_pow2_bits_high by lia. symmetry. by apply Hbits.
Qed.

Lemma mask_high c w k :
  0 <= c < 2 ^ w -> 0 <= w <= k -> Z.testbit c k = false.
Proof. intros Hc Hk. apply (inU_high w); [lia|done|lia]. Qed.

Lemma reverse64Byte_range u : inU 64 u -> inU 64 (reverse64Byte u).
Proof.
  intros Hu. unfold inU in Hu.
  apply inU_of_bits; [lia| |].
  - unfold reverse64Byte. cbv zeta.
    apply Z.lor_nonneg; split; apply Z.land_nonneg; right; lia.
  - intros k Hk. unfold reverse64Byte. cbv zeta.
    rewrite Z.lor_spec, !Z.land_spec.
    rewrite (mask_high 0xFF00FF00FF00FF00 64) by lia.
    rewrite (mask_high 0xFF00FF00FF00FF 64) by lia.
    by rewrite !andb_false_r.
Qed.

Lemma reverse32Byte_range u : inU 32 u -> inU 32 (reverse32Byte u).
Proof.
  intros Hu. unfold inU in Hu.
  apply inU_of_bits; [lia| |].
  - unfold reverse32Byte. cbv zeta.
    apply Z.lor_nonneg; split; apply Z.land_nonneg; right; lia.
  - intros k Hk. unfold reverse32Byte. cbv zeta.
    rewrite Z.lor_spec, !Z.land_spec.
    rewrite (mask_high 0xFF00FF00 32) by lia.
    rewrite (mask_high 0xFF00FF 32) by lia.
    by rewrite !andb_false_r.
Qed.

Lemma mirror_range nb n : 0 <= n < 8 * nb -> 0 <= mirror nb n < 8 * nb.
Proof. unfold mirror. intros. Z.div_mod_to_equations. lia. Qed.

Lemma mirror_mirror nb n : 0 <= n < 8 * nb -> mirror nb (mirror nb n) = n.
Proof. unfold mirror. intros. Z.div_mod_to_equations. lia. Qed.

Lemma reverse64Byte_involutive u :
  inU 64 u -> reverse64Byte (reverse64Byte u) = u.
Proof.
  intros Hu. pose proof (reverse64Byte_range u Hu) as Hr.
  apply Z.bits_inj'. intros n Hn.
  destruct (Z.lt_ge_cases n 64).
  - rewrite reverse64Byte_testbit by (done || lia).
    rewrite reverse64Byte_testbit by (done || apply (mirror_range 8); lia).
    by rewrite (mirror_mirror 8) by lia.
  - rewrite (inU_high 64 _ n) by (lia || by apply reverse64Byte_range).
    symmetry. apply (inU_high 64); (lia || done).
Qed.

Lemma reverse32Byte_involutive u :
  inU 32 u -> reverse32Byte (reverse32Byte u) = u.
Proof.
  intros Hu. pose proof (reverse32Byte_range u Hu) as Hr.
  apply Z.bits_inj'. intros n Hn.
  destruct (Z.lt_ge_cases n 32).
  - rewrite reverse32Byte_testbit by (done || lia).
    rewrite reverse32Byte_testbit by (done || apply (mirror_range 4); lia).
    by rewrite (mirror_mirror 4) by lia.
  - rewrite (inU_high 32 _ n) by (lia || by apply reverse32Byte_range).
    symmetry. apply (inU_high 32); (lia || done).
Qed.

Lemma byteOf_testbit a k n :
  0 <= k -> 0 <= n ->
  Z.testbit (byteOf a k) n = if n <? 8 then Z.testbit a (n + 8 * k) else false.
Proof.
  intros Hk Hn. unfold byteOf. change 0xFF with (Z.ones 8).
  rewrite Z.land_ones by lia.
  destruct (Z.ltb_spec n 8).
  - rewrite Z.mod_pow2_bits_low by lia. by rewrite Z.shiftr_spec.
  - by rewrite Z.mod_pow2_bits_high by lia.
Qed.

Lemma reverse64Byte_bytes u k :
  inU 64 u -> 0 <= k < 8 -> byteOf (reverse64Byte u) k = byteOf u (7 - k).
Proof.
  intros Hu Hk. apply Z.bits_inj'. intros n Hn.
  rewrite !byteOf_testbit by lia.
  destruct (Z.ltb_spec n 8); [|done].
  rewrite reverse64Byte_testbit by (done || lia).
  f_equal. unfold mirror. Z.div_mod_to_equations. lia.
Qed.

Lemma reverse32Byte_bytes u k :
  inU 32 u -> 0 <= k < 4 -> byteOf (reverse32Byte u) k = byteOf u (3 - k).
Proof.
  intros Hu Hk. apply Z.bits_inj'. intros n Hn.
  rewrite !byteOf_testbit by lia.
  destruct (Z.ltb_spec n 8); [|done].
  rewrite reverse32Byte_testbit by (done || lia).
  f_equal. unfold mirror. Z.div_mod_to_equations. lia.
Qed.

(** C4: reverse64Byte and reverse32Byte reverse the byte order of a bit
    pattern and are involutions, so the decode-side transform restores
    the bit pattern the encode-side transform was given; decFloat64 and
    decFloat32 read the varint and then undo the reversal. *)
Theorem float_transform_roundtrip :
  byteReversal 8 reverse64Byte /\
  byteReversal 4 reverse32Byte /\
  (forall p, inU 64 p -> uint64ToFloat64 (float64ToUint64 p) = p) /\
  (forall p, inU 32 p -> uint32ToFloat32 (float32ToUint32 p) = p) /\
  (forall v d, decFloat64 v d =
     match decUint64 d with
     | Ok (u, d') => Ok (reverse64Byte u, d')
     | Panic e => Panic e
     end) /\
  (forall v d, decFloat32 v d =
     match decUint32 d with
     | Ok (u, d') => Ok (reverse32Byte u, d')
     | Panic e => Panic e
     end) /\
  reverse64Byte 0x0123456789ABCDEF = 0xEFCDAB8967452301 /\
  reverse32Byte 0x12345678 = 0x78563412.
Proof.
  split; [|split; [|split; [|split; [|split; [|split; [|split]]]]]].
  - intros u Hu. split; [by apply reverse64Byte_range|]. split.
    + intros k Hk. by apply reverse64Byte_bytes.
    + by apply reverse64Byte_involutive.
  - intros u Hu. split; [by apply reverse32Byte_range|]. split.
    + intros k Hk. by apply reverse32Byte_bytes.
    + by apply reverse32Byte_involutive.
  - intros q Hq. by apply reverse64Byte_involutive.
  - intros q Hq. by apply reverse32Byte_involutive.
  - intros v d. unfold decFloat64, dbind, dret, uint64ToFloat64.
    by destruct (decUint64 d) as [[u d']|].
  - intros v d. unfold decFloat32, dbind, dret, uint32ToFloat32.
    by destruct (decUint32 d) as [[u d']|].
  - reflexivity.
  - reflexivity.
Qed.

(** The pattern of the float64 value 1.0, 3ff0000000000000, becomes f03f,
    which the varint writes in two bytes, and comes back. *)
Lemma float_transform_roundtrip_witness :
  inU 64 0x3FF0000000000000 /\
  float64ToUint64 0x3FF0000000000000 = 0xF03F /\
  uint64ToFloat64 (float64ToUint64 0x3FF0000000000000) = 0x3FF0000000000000.
Proof.
  assert (Hin : inU 64 0x3FF0000000000000) by (unfold inU; lia).
  destruct float_transform_roundtrip as (_ & _ & H64 & _).
  split; [exact Hin|]. split; [reflexivity|]. exact (H64 _ Hin).
Defined.

(** ** Booleans *)

Lemma land_pow2 c j :
  0 <= j -> Z.land c (2 ^ j) = if Z.testbit c j then 2 ^ j else 0.
Proof.
  intros Hj. apply Z.bits_inj'. intros n Hn.
  rewrite Z.land_spec, Z.pow2_bits_eqb by done.
  destruct (Z.eqb_spec j n) as [->|Hne].
  - rewrite andb_true_r. destruct (Z.testbit c n) eqn:E.
    + rewrite Z.pow2_bits_eqb by done. by rewrite Z.eqb_refl.
    + by rewrite Z.bits_0.
  - rewrite andb_false_r. destruct (Z.testbit c j).
    + rewrite Z.pow2_bits_eqb by done. symmetry. by apply Z.eqb_neq.
    + by rewrite Z.bits_0.
Qed.

Lemma mask_test c j :
  0 <= j -> negb (Z.land c (2 ^ j) =? 0) = bitOf c j.
Proof.
  intros Hj. rewrite land_pow2 by done. unfold bitOf.
  destruct (Z.testbit c j); [|done].
  assert (0 < 2 ^ j) by (apply Z.pow_pos_nonneg; lia).
  destruct (Z.eqb_spec (2 ^ j) 0); [lia|done].
Qed.

(** The first boolean of a group takes the control byte from the buffer. *)
Lemma decBool_first d c :
  boolBit d = 0 -> at_ (buf d) (index d) = Ok c ->
  decBool d = Ok (bitOf c 0, mkDecoder (buf d) (index d + 1) c 2).
Proof.
  intros Hb Hc. unfold decBool. rewrite Hb, Hc.
  change (0 =? 0) with true. cbn [rbind buf index boolPos boolBit].
  rewrite <- (mask_test c 0) by lia. reflexivity.
Qed.

(** The others read the byte the decoder holds and consume nothing. *)
Lemma decBool_next d j :
  1 <= j <= 7 -> boolBit d = 2 ^ j ->
  decBool d = Ok (bitOf (boolPos d) j,
                  mkDecoder (buf d) (index d) (boolPos d) (2 ^ (j + 1) mod 256)).
Proof.
  intros Hj Hb. unfold decBool. rewrite Hb.
  assert (0 < 2 ^ j) by (apply Z.pow_pos_nonneg; lia).
  destruct (Z.eqb_spec (2 ^ j) 0); [lia|]. cbn [rbind].
  rewrite Hb, mask_test by lia. do 3 f_equal.
  unfold ushl, wrapU. rewrite Z.shiftl_mul_pow2 by lia.
  rewrite Z.pow_add_r by lia. done.
Qed.

Lemma eight_booleans d c (dsts : list bool) :
  boolBit d = 0 -> at_ (buf d) (index d) = Ok c -> length dsts = 8%nat ->
  runEngines (boolEngines 8) dsts d
  = Ok (bitOf c <$> [0; 1; 2; 3; 4; 5; 6; 7],
        mkDecoder (buf d) (index d + 1) c 0).
Proof.
  intros Hb Hc Hl.
  do 9 (destruct dsts as [|? dsts]; try discriminate).
  cbn [boolEngines replicate runEngines]. unfold dbind, decBoolEng, dret.
  rewrite (decBool_first d c) by done. cbv iota beta.
  do 7 (match goal with
        | |- context [decBool (mkDecoder ?b ?i ?c ?m)] =>
            let j := eval vm_compute in (Z.log2 m) in
            rewrite (decBool_next (mkDecoder b i c m) j) by (cbn; lia)
        end; cbn [buf index boolPos boolBit]; cbv iota beta;
        match goal with
        | |- context [2 ^ ?e mod 256] =>
            let v := eval vm_compute in (2 ^ e mod 256) in
            change (2 ^ e mod 256) with v
        end).
  reflexivity.
Qed.

Lemma runEngines_app {V} (es1 es2 : list (decEng V)) (vs1 vs2 : list V) d :
  length es1 = length vs1 ->
  runEngines (es1 ++ es2) (vs1 ++ vs2) d
  = match runEngines es1 vs1 d with
    | Ok (r1, d1) =>
        match runEngines es2 vs2 d1 with
        | Ok (r2, d2) => Ok (r1 ++ r2, d2)
        | Panic e => Panic e
        end
    | Panic e => Panic e
    end.
Proof.
  revert vs1 d. induction es1 as [|eng es1 IH]; intros [|v vs1] d Hl;
    try discriminate.
  - cbn. by destruct (runEngines es2 vs2 d) as [[r2 d2]|].
  - cbn [app runEngines]. unfold dbind, dret.
    destruct (eng v d) as [[v' d1]|]; [|done].
    rewrite IH by (cbn in Hl; lia).
    destruct (runEngines es1 vs1 d1) as [[r1 d2]|]; [|done].
    by destruct (runEngines es2 vs2 d2) as [[r2 d3]|].
Qed.

Lemma at_bytesOf_0 c rest : at_ (bytesOf (c :: rest)) 0 = Ok (byteVal c).
Proof.
  unfold at_, bytesOf. cbn [sl_len sl_arr length].
  destruct (Z.ltb_spec 0 (Z.of_nat (S (length rest)))); [done|lia].
Qed.

Lemma at_bytesOf_1 c0 c1 rest :
  at_ (bytesOf (c0 :: c1 :: rest)) 1 = Ok (byteVal c1).
Proof.
  unfold at_, bytesOf. cbn [sl_len sl_arr length].
  destruct (Z.ltb_spec 1 (Z.of_nat (S (S (length rest))))); [done|lia].
Qed.

Lemma nine_booleans c0 c1 rest (dsts : list bool) :
  length dsts = 9%nat ->
  Unmarshal (boolEngines 9) (bytesOf (c0 :: c1 :: rest)) dsts
  = Ok (2, (bitOf (byteVal c0) <$> [0; 1; 2; 3; 4; 5; 6; 7])
           ++ [bitOf (byteVal c1) 0]).
Proof.
  intros Hl.
  do 10 (destruct dsts as [|? dsts]; try discriminate).
  unfold Unmarshal, decode, newDecoder. cbn [index boolPos boolBit].
  change (boolEngines 9) with (boolEngines 8 ++ [decBoolEng]).
  match goal with
  | |- context [runEngines _ ?l _] =>
      change l with (take 8 l ++ drop 8 l)
  end.
  rewrite runEngines_app by done. cbn [take drop].
  rewrite (eight_booleans _ (byteVal c0)); [|done|apply at_bytesOf_0|done].
  cbn [runEngines buf index]. unfold dbind, dret, decBoolEng.
  rewrite (decBool_first _ (byteVal c1)); [|done|apply at_bytesOf_1].
  reflexivity.
Qed.

Lemma decUint8_keeps_group v d x d' :
  decUint8 v d = Ok (x, d') ->
  boolPos d' = boolPos d /\ boolBit d' = boolBit d /\ consumed d d' = 1.
Proof.
  unfold decUint8, consumed. destruct (at_ _ _); [|discriminate].
  cbn. intros [= <- <-]. cbn. lia.
Qed.

Lemma decode_resets {V} (engines : list (decEng V)) d buffer dsts n vs d' :
  decode engines d buffer dsts = Ok (n, vs, d') ->
  index d' = 0 /\ boolPos d' = 0 /\ boolBit d' = 0 /\
  forall buffer2 dsts2,
    decode engines d' buffer2 dsts2 = decode engines newDecoder buffer2 dsts2.
Proof.
  unfold decode, reset.
  destruct (runEngines _ _ _) as [[vs1 d1]|]; [|discriminate].
  intros [= <- <- <-]. cbn. done.
Qed.

(** C3: booleans are packed eight to a control byte, least significant
    bit first.  Eight reads from the start of a group take one byte from
    the buffer and leave the decoder at the start of the next group; nine
    booleans take exactly two control bytes, the ninth being bit 0 of the
    second.  The group belongs to the call, not to a field: a boolean read
    in the middle of a group consumes nothing, whatever was read since the
    group began.  A top-level call that returns leaves index, control byte
    and mask at zero, as a new decoder has them, so the next call on the
    same decoder runs as on a new one. *)
Theorem boolean_packing :
  (forall d c (dsts : list bool),
     boolBit d = 0 -> at_ (buf d) (index d) = Ok c -> length dsts = 8%nat ->
     runEngines (boolEngines 8) dsts d
     = Ok (bitOf c <$> [0; 1; 2; 3; 4; 5; 6; 7],
           mkDecoder (buf d) (index d + 1) c 0)) /\
  (forall c0 c1 rest (dsts : list bool),
     length dsts = 9%nat ->
     Unmarshal (boolEngines 9) (bytesOf (c0 :: c1 :: rest)) dsts
     = Ok (2, (bitOf (byteVal c0) <$> [0; 1; 2; 3; 4; 5; 6; 7])
              ++ [bitOf (byteVal c1) 0])) /\
  Unmarshal (boolEngines 9) (bytesOf [x55; x01]%byte) (replicate 9 false)
  = Ok (2, [true; false; true; false; true; false; true; false; true]) /\
  (forall d j,
     1 <= j <= 7 -> boolBit d = 2 ^ j ->
     decBool d = Ok (bitOf (boolPos d) j,
                     mkDecoder (buf d) (index d) (boolPos d) (2 ^ (j + 1) mod 256))) /\
  (forall c x rest,
     (b1 <- decBool ; n <- decUint8 0 ; b2 <- decBool ; dret (b1, n, b2))
       (mkDecoder (bytesOf (c :: x :: rest)) 0 0 0)
     = Ok ((bitOf (byteVal c) 0, byteVal x, bitOf (byteVal c) 1),
           mkDecoder (bytesOf (c :: x :: rest)) 2 (byteVal c) 4)) /\
  (forall (V : Type) (engines : list (decEng V)) d buffer dsts n vs d',
     decode engines d buffer dsts = Ok (n, vs, d') ->
     index d' = 0 /\ boolPos d' = 0 /\ boolBit d' = 0 /\
     forall buffer2 dsts2,
       decode engines d' buffer2 dsts2 = decode engines newDecoder buffer2 dsts2) /\
  (index newDecoder = 0 /\ boolPos newDecoder = 0 /\ boolBit newDecoder = 0).
Proof.
  split; [exact eight_booleans|].
  split; [exact nine_booleans|].
  split; [reflexivity|].
  split; [exact decBool_next|].
  split.
  { intros c x rest. unfold dbind, dret.
    rewrite (decBool_first _ (byteVal c)); [|done|apply at_bytesOf_0].
    unfold decUint8. cbn [buf index]. rewrite at_bytesOf_1. cbn [rbind].
    rewrite (decBool_next _ 1) by (cbn; lia). reflexivity. }
  split; [|done].
  intros V engines d buffer dsts n vs d'. apply decode_resets.
Qed.

(** A call that decodes nine true booleans from ff 01 returns 2, and the
    decoder it leaves decodes the next buffer from its first bit. *)
Lemma boolean_packing_witness :
  decode (boolEngines 9) newDecoder (bytesOf [xff; x01]%byte) (replicate 9 false)
  = Ok (2, replicate 9 true, mkDecoder (bytesOf [xff; x01]%byte) 0 0 0)
  /\ boolBit (mkDecoder (bytesOf [xff; x01]%byte) 0 0 0) = 0
  /\ decode (boolEngines 9) (mkDecoder (bytesOf [xff; x01]%byte) 0 0 0)
       (bytesOf [x00; x00]%byte) (replicate 9 true)
     = decode (boolEngines 9) newDecoder (bytesOf [x00; x00]%byte)
         (replicate 9 true).
Proof.
  assert (Hrun :
    decode (boolEngines 9) newDecoder (bytesOf [xff; x01]%byte) (replicate 9 false)
    = Ok (2, replicate 9 true, mkDecoder (bytesOf [xff; x01]%byte) 0 0 0))
    by reflexivity.
  destruct boolean_packing as (_ & _ & _ & _ & _ & Hreset & _).
  destruct (Hreset bool _ _ _ _ _ _ _ Hrun) as (_ & _ & Hbit & Hfresh).
  split; [exact Hrun|]. split; [exact Hbit|]. apply Hfresh.
Defined.

(** ** The engine compiler *)

Section Termination.
Variable types : gmap positive rtypeInfo.

Lemma pending_store rt slot e c :
  is_Some (types !! rt) -> rt2decEng c !! rt = None ->
  (size (pending types (store rt slot e c)) < size (pending types c))%nat.
Proof.
  intros Hin Hc. apply subset_size. unfold pending, store. cbn.
  rewrite dom_insert_L.
  apply elem_of_dom in Hin. apply not_elem_of_dom in Hc.
  set_solver.
Qed.

Lemma pending_mono c c' :
  rt2decEng c ⊆ rt2decEng c' ->
  (size (pending types c') <= size (pending types c))%nat.
Proof.
  intros Hsub. apply subseteq_size. unfold pending.
  apply subseteq_dom in Hsub. set_solver.
Qed.

Lemma store_subseteq rt slot e c :
  rt2decEng c !! rt = None -> rt2decEng c ⊆ rt2decEng (store rt slot e c).
Proof. intros Hc. cbn. by apply insert_subseteq. Qed.

Lemma typeOf_known rt :
  Kind (typeOf types rt) <> reflect.Invalid -> is_Some (types !! rt).
Proof. unfold typeOf. destruct (types !! rt); [eauto|done]. Qed.

Lemma returned_weaken c c0 r :
  rt2decEng c ⊆ rt2decEng c0 -> returned c0 r -> returned c r.
Proof.
  intros Hs (c' & e & -> & Hs'). exists c', e. split; [done|by etrans].
Qed.

Lemma thenDeferred_returned c r call :
  returned c r ->
  (forall c1, rt2decEng c ⊆ rt2decEng c1 -> returned c1 (call c1)) ->
  returned c (thenDeferred r call).
Proof.
  intros (c1 & e1 & -> & Hs1) Hcall.
  destruct (Hcall c1 Hs1) as (c2 & e2 & Hr & Hs2).
  unfold thenDeferred. rewrite Hr.
  exists c2. destruct e2; eexists; (split; [done|by etrans]).
Qed.

Lemma buildEngine_returns fuel : forall rt slot c,
  (size (pending types c) < fuel)%nat ->
  returned c (buildEngine types fuel rt slot c).
Proof.
  induction fuel as [|fuel IH]; intros rt slot c Hsize; [lia|].
  cbn [buildEngine].
  destruct (rt2decEng c !! rt) as [eng|] eqn:Hc.
  { by exists (mkCompiler (rt2decEng c) (<[slot:=eng]> (vars c)) (locked c)), None. }
  destruct (types !! rt) as [known|] eqn:Hin; [|by eexists _, _].
  destruct (hasOtherSerializer (typeOf types rt)) eqn:Hother.
  { eexists _, None. split; [done|]. by apply store_subseteq. }
  set (registered := store rt slot (EClosure rt) c).
  assert (Hreg : Kind (typeOf types rt) <> reflect.Invalid ->
                 forall c1, rt2decEng registered ⊆ rt2decEng c1 ->
                 (size (pending types c1) < fuel)%nat).
  { intros Hk c1 Hs. apply pending_mono in Hs.
    pose proof (pending_store rt slot (EClosure rt) c (typeOf_known rt Hk) Hc) as Hlt.
    fold registered in Hlt. lia. }
  assert (Hsub : rt2decEng c ⊆ rt2decEng registered) by by apply store_subseteq.
  assert (Hfirst : returned registered (Some (registered, None)))
    by by exists registered, None.
  destruct (Kind (typeOf types rt)) eqn:Hkind;
    try (eexists _, _; split; [done|]; first [done | by apply store_subseteq]).
  - (* Array *)
    apply (returned_weaken _ registered); [done|].
    apply thenDeferred_returned; [done|].
    intros c1 Hs. apply IH. by apply Hreg.
  - (* Map: the value engine, then the key engine *)
    apply (returned_weaken _ registered); [done|].
    apply thenDeferred_returned; [apply thenDeferred_returned; [done|]|].
    + intros c1 Hs. apply IH. by apply Hreg.
    + intros c1 Hs. apply IH. by apply Hreg.
  - (* Ptr *)
    apply (returned_weaken _ registered); [done|].
    apply thenDeferred_returned; [done|].
    intros c1 Hs. apply IH. by apply Hreg.
  - (* Slice *)
    apply (returned_weaken _ registered); [done|].
    apply thenDeferred_returned; [done|].
    intros c1 Hs. apply IH. by apply Hreg.
  - (* Struct: the loop over the flattened fields *)
    destruct (getFieldType (Fields (typeOf types rt)) 0) as [fields offs].
    apply (returned_weaken _ registered); [done|].
    apply thenDeferred_returned; [done|].
    generalize 0%nat.
    induction fields as [|f fields IHf]; intros i c1 Hs.
    + by exists c1, None.
    + destruct (IH f (Captured rt i) c1) as (c2 & e2 & -> & Hs2);
        [by apply Hreg|].
      destruct e2 as [e|]; [by exists c2, (Some e)|].
      apply (returned_weaken _ c2); [done|]. apply IHf. by etrans.
Qed.

Lemma buildEngine_cached fuel rt slot c eng :
  rt2decEng c !! rt = Some eng ->
  buildEngine types (S fuel) rt slot c
  = Some (mkCompiler (rt2decEng c) (<[slot := eng]> (vars c)) (locked c), None).
Proof. intros Hc. cbn [buildEngine]. by rewrite Hc. Qed.

(** A call that returns without a panic leaves an engine for its type
    in the cache. *)
Lemma buildEngine_registers fuel rt slot c c' :
  (size (pending types c) < fuel)%nat ->
  buildEngine types fuel rt slot c = Some (c', None) ->
  is_Some (rt2decEng c' !! rt).
Proof.
  destruct fuel as [|fuel]; [lia|]. intros Hsize. cbn [buildEngine].
  destruct (rt2decEng c !! rt) as [eng|] eqn:Hc.
  { intros [= <-]. cbn. by rewrite Hc. }
  destruct (types !! rt) as [known|] eqn:Hin; [|done].
  destruct (hasOtherSerializer (typeOf types rt)) eqn:Hother.
  { intros [= <-]. cbn. rewrite lookup_insert_eq. eauto. }
  set (registered := store rt slot (EClosure rt) c).
  assert (Hreg : Kind (typeOf types rt) <> reflect.Invalid ->
                 forall c1, rt2decEng registered ⊆ rt2decEng c1 ->
                 (size (pending types c1) < fuel)%nat).
  { intros Hk c1 Hs. apply pending_mono in Hs.
    pose proof (pending_store rt slot (EClosure rt) c (typeOf_known rt Hk) Hc) as Hlt.
    fold registered in Hlt. lia. }
  assert (Hhas : forall c1, rt2decEng registered ⊆ rt2decEng c1 ->
                 is_Some (rt2decEng c1 !! rt)).
  { intros c1 Hs. exists (EClosure rt).
    eapply lookup_weaken; [|exact Hs]. cbn. apply lookup_insert_eq. }
  assert (Hfirst : returned registered (Some (registered, None)))
    by by exists registered, None.
  assert (Hdone : forall r, returned registered r -> r = Some (c', None) ->
                  is_Some (rt2decEng c' !! rt)).
  { intros r (c2 & e2 & -> & Hs) [= -> ->]. by apply Hhas. }
  destruct (Kind (typeOf types rt)) eqn:Hkind;
    try (intros [= <-]; cbn; rewrite lookup_insert_eq; by eauto);
    try discriminate.
  - apply Hdone. apply thenDeferred_returned; [done|].
    intros c1 Hs. apply buildEngine_returns. by apply Hreg.
  - apply Hdone.
    apply thenDeferred_returned; [apply thenDeferred_returned; [done|]|];
      intros c1 Hs; apply buildEngine_returns; by apply Hreg.
  - apply Hdone. apply thenDeferred_returned; [done|].
    intros c1 Hs. apply buildEngine_returns. by apply Hreg.
  - apply Hdone. apply thenDeferred_returned; [done|].
    intros c1 Hs. apply buildEngine_returns. by apply Hreg.
  - destruct (getFieldType (Fields (typeOf types rt)) 0) as [fields offs].
    apply Hdone. apply thenDeferred_returned; [done|].
    generalize 0%nat.
    induction fields as [|f fields IHf]; intros i c1 Hs.
    + by exists c1, None.
    + destruct (buildEngine_returns fuel f (Captured rt i) c1)
        as (c2 & e2 & -> & Hs2); [by apply Hreg|].
      destruct e2 as [e|]; [by exists c2, (Some e)|].
      apply (returned_weaken _ c2); [done|]. apply IHf. by etrans.
Qed.

(** A pointer type that points to itself,  [type a *a]:  the deferred
    build of the element finds the engine just registered. *)
Lemma buildEngine_self_pointer fuel rt slot c name :
  rt2decEng c !! rt = None ->
  types !! rt = Some (mkType reflect.Ptr name false rt rt 0 []) ->
  buildEngine types (S (S fuel)) rt slot c
  = Some (mkCompiler (<[rt := EClosure rt]> (rt2decEng c))
            (<[Captured rt 0 := EClosure rt]> (<[slot := EClosure rt]> (vars c)))
            (locked c),
          None).
Proof.
  intros Hc Ht. cbn [buildEngine]. rewrite Hc. unfold typeOf. rewrite Ht.
  cbn [hasOtherSerializer Kind Elem thenDeferred store rt2decEng vars locked].
  by rewrite lookup_insert_eq.
Qed.
End Termination.

(** C5: compiling an engine terminates, for every table of types and
    every state of the cache, self-referential types included: with more
    fuel than there are types without an engine, buildDecEngine and
    buildEncEngine run to their end, keep every cached engine, and, unless
    they panic on an unsupported kind, leave an engine for the type in the
    cache.  In both, the engine of a type is registered before its
    components are built, and a build of a registered type returns at
    once with the engine variable bound to the registered engine: for
    [type Node struct { Next *Node }] the variable of the pointer's closure
    is bound to the closure of Node, and for a pointer type that points to
    itself the variable of the closure is bound to the closure itself. *)
Theorem self_referential_compile_terminates :
  (forall types fuel rt slot c,
     (size (pending types c) < fuel)%nat ->
     exists c' e,
       buildDecEngine types fuel rt slot c = Some (c', e) /\
       rt2decEng c ⊆ rt2decEng c' /\
       (e = None -> is_Some (rt2decEng c' !! rt))) /\
  (forall types fuel rt slot c,
     (size (pending types c) < fuel)%nat ->
     exists c' e,
       buildEncEngine types fuel rt slot c = Some (c', e) /\
       rt2decEng c ⊆ rt2decEng c' /\
       (e = None -> is_Some (rt2decEng c' !! rt))) /\
  (forall types fuel rt slot c eng,
     rt2decEng c !! rt = Some eng ->
     buildDecEngine types (S fuel) rt slot c
     = Some (mkCompiler (rt2decEng c) (<[slot := eng]> (vars c)) (locked c), None) /\
     buildEncEngine types (S fuel) rt slot c
     = Some (mkCompiler (rt2decEng c) (<[slot := eng]> (vars c)) (locked c), None)) /\
  (buildDecEngine nodeTypes 3 1%positive Top (mkCompiler ∅ ∅ false)
   = Some (mkCompiler
             {[ 1%positive := EClosure 1; 2%positive := EClosure 2 ]}
             {[ Top := EClosure 1;
                Captured 1 0 := EClosure 2;
                Captured 2 0 := EClosure 1 ]} false,
           None) /\
   buildEncEngine nodeTypes 3 1%positive Top (mkCompiler ∅ ∅ false)
   = Some (mkCompiler
             {[ 1%positive := EClosure 1; 2%positive := EClosure 2 ]}
             {[ Top := EClosure 1;
                Captured 1 0 := EClosure 2;
                Captured 2 0 := EClosure 1 ]} false,
           None)) /\
  (forall types fuel rt slot c name,
     rt2decEng c !! rt = None ->
     types !! rt = Some (mkType reflect.Ptr name false rt rt 0 []) ->
     buildDecEngine types (S (S fuel)) rt slot c
     = Some (mkCompiler (<[rt := EClosure rt]> (rt2decEng c))
               (<[Captured rt 0 := EClosure rt]>
                  (<[slot := EClosure rt]> (vars c))) (locked c),
             None) /\
     buildEncEngine types (S (S fuel)) rt slot c
     = Some (mkCompiler (<[rt := EClosure rt]> (rt2decEng c))
               (<[Captured rt 0 := EClosure rt]>
                  (<[slot := EClosure rt]> (vars c))) (locked c),
             None)).
Proof.
  assert (Hterm : forall types fuel rt slot c,
     (size (pending types c) < fuel)%nat ->
     exists c' e,
       buildEngine types fuel rt slot c = Some (c', e) /\
       rt2decEng c ⊆ rt2decEng c' /\
       (e = None -> is_Some (rt2decEng c' !! rt))).
  { intros types fuel rt slot c Hsize.
    destruct (buildEngine_returns types fuel rt slot c Hsize) as (c' & e & Hr & Hs).
    exists c', e. split; [done|]. split; [done|]. intros ->.
    by eapply buildEngine_registers. }
  split; [exact Hterm|]. split; [exact Hterm|].
  split.
  { intros types fuel rt slot c eng Hc. split; by apply buildEngine_cached. }
  split; [split; by vm_compute|].
  intros types fuel rt slot c name Hc Ht.
  split; by apply (buildEngine_self_pointer types fuel rt slot c name).
Qed.

(** Node, with an empty cache: two types are pending, fuel 3 is enough,
    and the build returns without a panic with Node in the cache. *)
Lemma self_referential_compile_terminates_witness :
  (size (pending nodeTypes (mkCompiler ∅ ∅ false)) < 3)%nat /\
  exists c' e,
    buildDecEngine nodeTypes 3 1%positive Top (mkCompiler ∅ ∅ false) = Some (c', e) /\
    rt2decEng (mkCompiler ∅ ∅ false) ⊆ rt2decEng c' /\
    (e = None -> is_Some (rt2decEng c' !! 1%positive)).
Proof.
  assert (Hsize : (size (pending nodeTypes (mkCompiler ∅ ∅ false)) < 3)%nat)
    by (vm_compute; lia).
  destruct self_referential_compile_terminates as (Hterm & _).
  split; [exact Hsize|].
  exact (Hterm nodeTypes 3%nat 1%positive Top (mkCompiler ∅ ∅ false) Hsize).
Defined.

(** ** The slice engine *)

Section SliceEngine.
Context {V : Type}.
Variable p : platform.
Variable zero : V.
Variable eng : decEng V.

Lemma sameShape_refl blk (m : gmap positive (list V)) : sameShape blk m m.
Proof. done. Qed.

Lemma sameShape_trans blk (m1 m2 m3 : gmap positive (list V)) :
  sameShape blk m1 m2 -> sameShape blk m2 m3 -> sameShape blk m1 m3.
Proof.
  intros (Hd1 & Hl1 & Ho1) (Hd2 & Hl2 & Ho2). split; [congruence|]. split.
  - intros b. by rewrite Hl2, Hl1.
  - intros b Hb. by rewrite Ho2, Ho1.
Qed.

Lemma engineAt_shape blk off i m d m' d' :
  engineAt eng (addr blk off) i m d = Ok (m', d') -> sameShape blk m m'.
Proof.
  unfold engineAt, dpanic, dbind, dret.
  destruct (m !! blk) as [arr|] eqn:Hm; [|discriminate].
  destruct (0 <=? off + i); [|discriminate].
  destruct (arr !! Z.to_nat (off + i)) as [v|]; [|discriminate].
  destruct (eng v d) as [[v' d1]|]; [|discriminate].
  intros [= <- <-]. split; [|split].
  - apply dom_insert_lookup_L. eauto.
  - intros b. destruct (decide (b = blk)) as [->|Hne].
    + rewrite lookup_insert_eq, Hm. cbn. by rewrite length_insert.
    + by rewrite lookup_insert_ne.
  - intros b Hb. by rewrite lookup_insert_ne.
Qed.

Lemma sliceLoop_shape blk off n : forall i m d m' d',
  sliceLoop eng (addr blk off) n i m d = Ok (m', d') -> sameShape blk m m'.
Proof.
  induction n as [|n IH]; intros i m d m' d'; cbn [sliceLoop].
  - intros [= <- <-]. apply sameShape_refl.
  - unfold dbind.
    destruct (engineAt eng (addr blk off) i m d) as [[m1 d1]|] eqn:E;
      [|discriminate].
    intros Hl. eapply sameShape_trans.
    + by eapply engineAt_shape.
    + by eapply IH.
Qed.

Lemma sliceLoop_nil n i m d :
  n <> 0%nat -> exists e, sliceLoop eng nilPtr n i m d = Panic e.
Proof. destruct n; [done|]. intros _. cbn. eauto. Qed.

(** The reading of a slice by decSliceEng, case by case. *)
Lemma decSliceEng_inv header m d header' m' d' :
  decSliceEng p zero eng (header, m) d = Ok ((header', m'), d') ->
  exists nn d1, decIsNotNil d = Ok (nn, d1) /\
    if nn then
      exists l d2, decLength p d1 = Ok (l, d2) /\
        if isNil header || (cap header <? l) then
          0 <= l /\
          header' = mkHeader (addr (fresh (dom m)) 0) l l /\
          sliceLoop eng (addr (fresh (dom m)) 0) (Z.to_nat l) 0
            (<[fresh (dom m) := replicate (Z.to_nat l) zero]> m) d2
          = Ok (m', d')
        else
          header' = mkHeader (data header) l (cap header) /\
          sliceLoop eng (data header) (Z.to_nat l) 0 m d2 = Ok (m', d')
    else d' = d1 /\ m' = m /\
         header' = if isNil header then header else mkHeader nilPtr 0 0.
Proof.
  unfold decSliceEng, dbind, dret.
  destruct (decIsNotNil d) as [[nn d1]|]; [|discriminate].
  intros H. exists nn, d1. split; [done|]. destruct nn.
  - destruct (decLength p d1) as [[l d2]|]; [|discriminate].
    exists l, d2. split; [done|].
    destruct (isNil header || (cap header <? l)).
    + unfold MakeSlice in H. destruct (Z.ltb_spec l 0); [discriminate|].
      cbn [data] in H.
      destruct (sliceLoop _ _ _ _ _ _) as [[m1 d3]|] eqn:El; [|discriminate].
      injection H as <- <- <-. done.
    + cbn [data] in H.
      destruct (sliceLoop _ _ _ _ _ _) as [[m1 d3]|] eqn:El; [|discriminate].
      injection H as <- <- <-. done.
  - destruct (isNil header); cbn in H; by injection H as <- <- <-.
Qed.
End SliceEngine.

(** C6, as stated, fails: a nil destination has capacity 0, which is at
    least the count 0, and yet decoding an empty sequence into it does not
    keep the (nil) data pointer: a new backing array of 0 elements is
    made, and the destination becomes empty and non-nil. *)
Lemma slice_decode_nil_destination :
  decSliceEng P64 0 decUint8 (mkHeader nilPtr 0 0, ∅)
    (mkDecoder (bytesOf [x01; x00]%byte) 0 0 0)
  = Ok ((mkHeader (addr 1 0) 0 0, {[ 1%positive := [] ]}),
        mkDecoder (bytesOf [x01; x00]%byte) 2 1 2)
  /\ ~ (forall header m d header' m' d' d1 l d2,
          decSliceEng P64 0 decUint8 (header, m) d = Ok ((header', m'), d') ->
          decIsNotNil d = Ok (true, d1) ->
          decLength P64 d1 = Ok (l, d2) ->
          l <= cap header ->
          data header' = data header).
Proof.
  split; [by vm_compute|].
  intros Hall.
  specialize (Hall (mkHeader nilPtr 0 0) ∅
                (mkDecoder (bytesOf [x01; x00]%byte) 0 0 0)
                (mkHeader (addr 1 0) 0 0) {[ 1%positive := [] ]}
                (mkDecoder (bytesOf [x01; x00]%byte) 2 1 2)
                (mkDecoder (bytesOf [x01; x00]%byte) 1 1 2) 0
                (mkDecoder (bytesOf [x01; x00]%byte) 2 1 2)).
  discriminate Hall; first [by vm_compute | done].
Qed.

(** C6 (amended): decoding a slice reuses the destination's backing
    storage exactly when the destination is not nil and its capacity is at
    least the decoded count: then only the length is set, and no array is
    made.  Otherwise, for a nil destination or too small a capacity, a new
    backing array of exactly count elements is made, length and capacity
    become the count and the arrays there were are left as they were.
    When the wire marks the sequence absent, a destination that was not
    nil is reset to the nil slice and a nil one stays nil. *)
Theorem slice_decode_storage {V : Type} (p : platform) (zero : V)
    (eng : decEng V) header m d header' m' d' :
  decSliceEng p zero eng (header, m) d = Ok ((header', m'), d') ->
  exists nn d1, decIsNotNil d = Ok (nn, d1) /\
    if (nn : bool) then
      exists l d2, decLength p d1 = Ok (l, d2) /\
        (data header <> nilPtr /\ l <= cap header ->
           data header' = data header /\ cap header' = cap header /\
           len header' = l /\ dom m' = dom m) /\
        (data header = nilPtr \/ cap header < l ->
           0 <= l /\
           (fresh (dom m) ∉ dom m) /\
           header' = mkHeader (addr (fresh (dom m)) 0) l l /\
           dom m' = {[fresh (dom m)]} ∪ dom m /\
           (length <$> (m' !! fresh (dom m))) = Some (Z.to_nat l) /\
           (forall b, b ∈ dom m -> m' !! b = m !! b)) /\
        (dom m' = dom m <-> data header <> nilPtr /\ l <= cap header)
    else
      d' = d1 /\ m' = m /\
      (data header <> nilPtr -> header' = mkHeader nilPtr 0 0) /\
      (data header = nilPtr -> header' = header).
Proof.
  intros H. destruct (decSliceEng_inv p zero eng _ _ _ _ _ _ H) as (nn & d1 & Hnn & Hrest).
  exists nn, d1. split; [done|]. destruct nn.
  - destruct Hrest as (l & d2 & Hl & Hrest). exists l, d2. split; [done|].
    unfold isNil in Hrest.
    pose proof (is_fresh (dom m)) as Hfresh.
    destruct (decide (data header = nilPtr)) as [Hnil|Hnil].
    + rewrite bool_decide_eq_true_2 in Hrest by done. cbn [orb] in Hrest.
      destruct Hrest as (Hl0 & -> & Hloop).
      apply sliceLoop_shape in Hloop. destruct Hloop as (Hd & Hlen & Hoth).
      assert (Hdom : dom m' = {[fresh (dom m)]} ∪ dom m)
        by (by rewrite Hd, dom_insert_L).
      split; [tauto|]. split.
      * intros _. repeat split; try done.
        -- by rewrite Hlen, lookup_insert_eq; cbn; rewrite length_replicate.
        -- intros b Hb. rewrite Hoth by set_solver.
           apply lookup_insert_ne. set_solver.
      * split; [|tauto]. intros Heq. rewrite Heq in Hdom. set_solver.
    + rewrite bool_decide_eq_false_2 in Hrest by done. cbn [orb] in Hrest.
      destruct (Z.ltb_spec (cap header) l).
      * destruct Hrest as (Hl0 & -> & Hloop).
        apply sliceLoop_shape in Hloop. destruct Hloop as (Hd & Hlen & Hoth).
        assert (Hdom : dom m' = {[fresh (dom m)]} ∪ dom m)
          by (by rewrite Hd, dom_insert_L).
        split; [lia|]. split.
        -- intros _. repeat split; try done.
           ++ by rewrite Hlen, lookup_insert_eq; cbn; rewrite length_replicate.
           ++ intros b Hb. rewrite Hoth by set_solver.
              apply lookup_insert_ne. set_solver.
        -- split; [|lia]. intros Heq. rewrite Heq in Hdom. set_solver.
      * destruct Hrest as (-> & Hloop).
        destruct (data header) as [|blk off] eqn:Hdata; [done|].
        apply sliceLoop_shape in Hloop. destruct Hloop as (Hd & _).
        split; [done|]. split; [intros [?|?]; [done|lia]|]. done.
  - destruct Hrest as (-> & -> & ->). repeat split; try done.
    + intros Hn. unfold isNil. by rewrite bool_decide_eq_false_2.
    + intros Hn. unfold isNil. by rewrite bool_decide_eq_true_2.
Qed.

(** A destination of length 1 and capacity 4 takes two elements in place:
    the data pointer and the capacity stay, no array is made. *)
Lemma slice_decode_storage_witness :
  decSliceEng P64 0 decUint8
    (mkHeader (addr 1 0) 1 4, {[ 1%positive := [7; 8; 9; 10] ]})
    (mkDecoder (bytesOf [x01; x02; x05; x06]%byte) 0 0 0)
  = Ok ((mkHeader (addr 1 0) 2 4, {[ 1%positive := [5; 6; 9; 10] ]}),
        mkDecoder (bytesOf [x01; x02; x05; x06]%byte) 4 1 2)
  /\ exists nn d1,
       decIsNotNil (mkDecoder (bytesOf [x01; x02; x05; x06]%byte) 0 0 0)
       = Ok (nn, d1) /\ nn = true.
Proof.
  assert (Hrun :
    decSliceEng P64 0 decUint8
      (mkHeader (addr 1 0) 1 4, {[ 1%positive := [7; 8; 9; 10] ]})
      (mkDecoder (bytesOf [x01; x02; x05; x06]%byte) 0 0 0)
    = Ok ((mkHeader (addr 1 0) 2 4, {[ 1%positive := [5; 6; 9; 10] ]}),
          mkDecoder (bytesOf [x01; x02; x05; x06]%byte) 4 1 2))
    by (by vm_compute).
  split; [exact Hrun|].
  destruct (slice_decode_storage _ _ _ _ _ _ _ _ _ Hrun) as (nn & d1 & Hnn & _).
  exists nn, d1. split; [exact Hnn|].
  vm_compute in Hnn. by injection Hnn as <- _.
Defined.

(** ** Lengths and counts *)

Lemma int_of_uint32 p u :
  0 <= u < 2 ^ 32 ->
  - 2 ^ 31 <= int p u < 2 ^ 32 /\ (p = P64 -> int p u = u).
Proof.
  intros Hu. unfold int, wrapS, intBits, ptr1Size. destruct p.
  - change (8 * Z.shiftl 4 0) with 32. change (32 - 1) with 31. split; [|done].
    pose proof (Z.mod_pos_bound (u + 2 ^ 31) (2 ^ 32) ltac:(lia)). lia.
  - change (8 * Z.shiftl 4 1) with 64. change (64 - 1) with 63.
    rewrite Z.mod_small by lia. split; [lia|]. lia.
Qed.

Lemma decLength_inv p d l d' :
  decLength p d = Ok (l, d') ->
  exists u, decUint32 d = Ok (u, d') /\ l = int p u /\ 0 <= u < 2 ^ 32.
Proof.
  unfold decLength. destruct (decUint32 d) as [[u d1]|] eqn:E; [|discriminate].
  intros [= <- <-]. exists u. split; [done|]. split; [done|].
  by destruct (decUint32_spec _ _ _ E) as (_ & _ & _ & ? & _).
Qed.

Lemma decLength_bound p d l d' :
  decLength p d = Ok (l, d') ->
  - 2 ^ 31 <= l < 2 ^ 32 /\ (p = P64 -> 0 <= l) /\ 1 <= consumed d d' <= 5.
Proof.
  intros H. destruct (decLength_inv _ _ _ _ H) as (u & Hu & -> & Hr).
  destruct (int_of_uint32 p u Hr) as [Hb H64]. split; [done|]. split.
  - intros ->. rewrite H64 by done. lia.
  - destruct (decUint32_spec _ _ _ Hu) as (_ & _ & _ & _ & Hc). lia.
Qed.

Lemma string_of_list_byte_length bs :
  String.length (string_of_list_byte bs) = length bs.
Proof. induction bs as [|c bs IH]; simpl; [done|]. by f_equal. Qed.

Lemma subslice_inv s lo hi sub :
  subslice s lo hi = Ok sub ->
  0 <= lo <= hi /\ hi <= sl_cap s /\ sl_len sub = hi - lo /\
  Z.of_nat (length (sl_bytes sub)) = hi - lo.
Proof.
  unfold subslice, sl_cap.
  destruct (Z.leb_spec 0 lo); [|discriminate].
  destruct (Z.leb_spec lo hi); [|discriminate].
  destruct (Z.leb_spec hi (Z.of_nat (length (sl_arr s)))); [|discriminate].
  cbn. intros [= <-]. unfold sl_bytes. cbn.
  rewrite length_take, length_drop. lia.
Qed.

Lemma decString_inv p v d s d' :
  decString p v d = Ok (s, d') ->
  exists u d1,
    decUint32 d = Ok (u, d1) /\
    Z.of_nat (String.length s) = int p u /\
    index d' = index d1 + int p u /\
    0 <= Z.of_nat (String.length s) < 2 ^ 32.
Proof.
  unfold decString.
  destruct (decUint32 d) as [[u d1]|] eqn:E; [|discriminate].
  destruct (subslice _ _ _) as [sub|] eqn:Es; [|discriminate].
  cbn [rbind]. intros [= <- <-]. exists u, d1. split; [done|].
  rewrite string_of_list_byte_length.
  destruct (subslice_inv _ _ _ _ Es) as (? & ? & ? & ->).
  destruct (decUint32_spec _ _ _ E) as (_ & _ & _ & Hu & _).
  destruct (int_of_uint32 p u Hu). cbn [index setIndex].
  split; [lia|]. split; [done|]. lia.
Qed.

Lemma decString_length p v d s d' :
  decString p v d = Ok (s, d') ->
  0 <= Z.of_nat (String.length s) < 2 ^ 32.
Proof. intros H. by destruct (decString_inv _ _ _ _ _ H) as (u & d1 & _ & _ & _ & ?). Qed.

Lemma decBytes_inv p v d s d' :
  decBytes p v d = Ok (Some s, d') ->
  exists d1 u d2,
    decIsNotNil d = Ok (true, d1) /\ decUint32 d1 = Ok (u, d2) /\
    sl_len s = int p u /\ index d' = index d2 + int p u /\
    0 <= sl_len s < 2 ^ 32.
Proof.
  unfold decBytes, dbind, dret.
  destruct (decIsNotNil d) as [[nn d1]|]; [|discriminate].
  destruct nn.
  - destruct (decUint32 d1) as [[u d2]|] eqn:E; [|discriminate].
    destruct (subslice _ _ _) as [sub|] eqn:Es; [|discriminate].
    cbn [rbind]. intros [= <- <-]. exists d1, u, d2.
    destruct (subslice_inv _ _ _ _ Es) as (? & ? & -> & _).
    destruct (decUint32_spec _ _ _ E) as (_ & _ & _ & Hu & _).
    destruct (int_of_uint32 p u Hu). cbn [index setIndex].
    split; [done|]. split; [done|]. split; [lia|]. split; [done|]. lia.
  - by destruct v.
Qed.

Lemma decBytes_length p v d s d' :
  decBytes p v d = Ok (Some s, d') -> 0 <= sl_len s < 2 ^ 32.
Proof.
  intros H. by destruct (decBytes_inv _ _ _ _ _ H) as (d1 & u & d2 & _ & _ & _ & _ & ?).
Qed.

Section Collections.
Context {V : Type} {K : Type}.
Variable keyEq : K -> K -> bool.
Variable p : platform.
Variable zero : V.
Variable zeroK : K.

Lemma SetMapIndex_length key val (v : list (K * V)) :
  (length v <= length (SetMapIndex keyEq key val v) <= S (length v))%nat.
Proof.
  induction v as [|[k x] v IH]; cbn [SetMapIndex length]; [lia|].
  destruct (keyEq k key); cbn [length]; lia.
Qed.

Lemma mapLoop_size (kEng : decEng K) (vEng : decEng V) n :
  forall key val (v : list (K * V)) d v' d',
    mapLoop zero keyEq zeroK kEng vEng n key val v d = Ok (v', d') ->
    (length v <= length v' <= length v + n)%nat.
Proof.
  induction n as [|n IH]; intros key val v d v' d'; cbn [mapLoop].
  - intros [= <- <-]. lia.
  - unfold dbind.
    destruct (kEng key d) as [[key1 d1]|]; [|discriminate].
    destruct (vEng val d1) as [[val1 d2]|]; [|discriminate].
    intros Hl. apply IH in Hl.
    pose proof (SetMapIndex_length key1 val1 v). lia.
Qed.

Lemma decMapEng_count (kEng : decEng K) (vEng : decEng V) dst d v' d' :
  decMapEng p zero keyEq zeroK kEng vEng dst d = Ok (Some v', d') ->
  exists d1 l d2,
    decIsNotNil d = Ok (true, d1) /\ decLength p d1 = Ok (l, d2) /\
    l < 2 ^ 32 /\
    mapLoop zero keyEq zeroK kEng vEng (Z.to_nat l) zeroK zero (default [] dst) d2
    = Ok (v', d') /\
    Z.of_nat (length v') < Z.of_nat (length (default [] dst)) + 2 ^ 32.
Proof.
  unfold decMapEng, dbind, dret.
  destruct (decIsNotNil d) as [[nn d1]|]; [|discriminate].
  destruct nn; [|by destruct dst].
  destruct (decLength p d1) as [[l d2]|] eqn:El; [|discriminate].
  destruct (mapLoop _ _ _ _ _ _ _ _ _ _) as [[v1 d3]|] eqn:Em; [|discriminate].
  intros [= <- <-]. exists d1, l, d2.
  destruct (decLength_bound _ _ _ _ El) as (Hl & _).
  assert (Hdst : match dst with Some v => v | None => [] end = default [] dst)
    by by destruct dst.
  rewrite Hdst in Em.
  repeat split; try done; try lia.
  apply mapLoop_size in Em. lia.
Qed.

Lemma blobEng_length (unmarshal : byteSlice -> V -> result V) v d v' d' :
  blobEng p unmarshal v d = Ok (v', d') ->
  exists l d1 blob,
    decLength p d = Ok (l, d1) /\ sl_len blob = l /\
    index d' = index d1 + l /\
    0 <= sl_len blob < 2 ^ 32 /\ unmarshal blob v = Ok v'.
Proof.
  unfold blobEng, dbind.
  destruct (decLength p d) as [[l d1]|] eqn:El; [|discriminate].
  cbn [index setIndex].
  destruct (subslice _ _ _) as [blob|] eqn:Es; [|discriminate].
  cbn [rbind].
  destruct (unmarshal blob v) as [v1|] eqn:Eu; [|discriminate].
  cbn [rbind]. intros [= <- <-]. exists l, d1, blob. split; [done|].
  destruct (subslice_inv _ _ _ _ Es) as (? & ? & -> & _).
  destruct (decLength_bound _ _ _ _ El) as (Hl & _).
  cbn [index setIndex]. split; [lia|]. split; [done|]. split; [lia|done].
Qed.
End Collections.



(** ** The registry *)

Section RegistryProps.
Context {T : Type} `{Countable T}.
Variable valid : T -> bool.
Variable nameOf : T -> string.

Lemma RegisterName_conflict name rt (r : registry) :
  is_Some (type2name r !! rt) \/ is_Some (name2type r !! name) ->
  exists e, RegisterName valid nameOf name rt r = Panic e.
Proof.
  intros Hc. unfold RegisterName.
  destruct (bool_decide (name = "")); [eauto|].
  destruct (negb (valid rt)); [eauto|].
  destruct (type2name r !! rt) as [n|]; [eauto|].
  destruct (name2type r !! name) as [t|]; [eauto|].
  destruct Hc as [[? ?]|[? ?]]; discriminate.
Qed.

Lemma RegisterName_ok name rt (r r' : registry) :
  RegisterName valid nameOf name rt r = Ok r' ->
  name <> "" /\ valid rt = true /\
  type2name r !! rt = None /\ name2type r !! name = None /\
  type2name r' = <[rt := name]> (type2name r) /\
  name2type r' = <[name := rt]> (name2type r).
Proof.
  unfold RegisterName.
  destruct (bool_decide_reflect (name = "")); [discriminate|].
  destruct (valid rt); [|discriminate]. cbn [negb].
  destruct (type2name r !! rt) as [n'|]; [discriminate|].
  destruct (name2type r !! name) as [t|]; [discriminate|].
  by intros [= <-].
Qed.

Lemma RegisterName_fresh name rt (r : registry) :
  name <> "" -> valid rt = true ->
  type2name r !! rt = None -> name2type r !! name = None ->
  RegisterName valid nameOf name rt r
  = Ok (mkRegistry (<[rt := name]> (type2name r)) (<[name := rt]> (name2type r))).
Proof.
  intros Hn Hv Ht Hm. unfold RegisterName.
  rewrite bool_decide_eq_false_2 by done. by rewrite Hv, Ht, Hm.
Qed.

Lemma runOp_ok o (r r' : registry) :
  runOp valid nameOf o r = Ok r' ->
  r' = r \/ exists name rt, RegisterName valid nameOf name rt r = Ok r'.
Proof.
  destruct o as [name rt|rt|rt]; cbn [runOp].
  - eauto.
  - unfold Register, registerType.
    destruct (RegisterName _ _ _ _ _) as [r1|] eqn:E; [|discriminate].
    cbn. intros [= <-]. eauto.
  - unfold getNameOfType, registerType.
    destruct (type2name r !! rt); [cbn; intros [= <-]; by left|].
    destruct (RegisterName _ _ _ _ _) as [r1|] eqn:E; [|discriminate].
    cbn. intros [= <-]. eauto.
Qed.

Lemma RegisterName_oneToOne name rt (r r' : registry) :
  RegisterName valid nameOf name rt r = Ok r' -> oneToOne r -> oneToOne r'.
Proof.
  intros Hreg Hinv.
  destruct (RegisterName_ok _ _ _ _ Hreg) as (_ & _ & Ht & Hn & Ht' & Hn').
  intros t n. rewrite Ht', Hn'.
  destruct (decide (rt = t)) as [<-|Hrt], (decide (name = n)) as [<-|Hname].
  - by rewrite !lookup_insert_eq.
  - rewrite lookup_insert_eq, lookup_insert_ne by done. split.
    + by intros [= ->].
    + intros Hl. apply Hinv in Hl. congruence.
  - rewrite lookup_insert_ne, lookup_insert_eq by done. split.
    + intros Hl. apply Hinv in Hl. congruence.
    + by intros [= ->].
  - rewrite !lookup_insert_ne by done. apply Hinv.
Qed.

Lemma after_cases o (r : registry) :
  after valid nameOf o r = r \/
  exists name rt, RegisterName valid nameOf name rt r = Ok (after valid nameOf o r).
Proof.
  unfold after. destruct (runOp valid nameOf o r) as [r'|] eqn:E; [|by left].
  by apply (runOp_ok o).
Qed.

Lemma after_oneToOne o (r : registry) :
  oneToOne r -> oneToOne (after valid nameOf o r).
Proof.
  intros Hinv. destruct (after_cases o r) as [->|(name & rt & Hreg)]; [done|].
  by eapply RegisterName_oneToOne.
Qed.

Lemma after_keeps o (r : registry) :
  type2name r ⊆ type2name (after valid nameOf o r) /\
  name2type r ⊆ name2type (after valid nameOf o r).
Proof.
  destruct (after_cases o r) as [->|(name & rt & Hreg)]; [done|].
  destruct (RegisterName_ok _ _ _ _ Hreg) as (_ & _ & Ht & Hn & -> & ->).
  split; by apply insert_subseteq.
Qed.

Lemma afterAll_oneToOne ops (r : registry) :
  oneToOne r -> oneToOne (afterAll valid nameOf ops r).
Proof.
  revert r. induction ops as [|o ops IH]; intros r Hinv; [done|].
  cbn. apply IH. by apply after_oneToOne.
Qed.

Lemma emptyRegistry_oneToOne : oneToOne (emptyRegistry (T := T)).
Proof. intros t n. cbn. by rewrite !lookup_empty. Qed.

Lemma oneToOne_unique (r : registry (T := T)) :
  oneToOne r ->
  (forall (t1 t2 : T) n,
     type2name r !! t1 = Some n -> type2name r !! t2 = Some n -> t1 = t2) /\
  (forall n1 n2 (t : T),
     name2type r !! n1 = Some t -> name2type r !! n2 = Some t -> n1 = n2).
Proof.
  intros Hinv. split.
  - intros t1 t2 n H1 H2. apply Hinv in H1, H2. congruence.
  - intros n1 n2 t H1 H2. apply Hinv in H1, H2. congruence.
Qed.
End RegistryProps.

(** C8: RegisterName panics whenever the type or the name already has an
    entry; when it returns, neither had one and exactly the one pair has
    been added to both tables.  No operation removes or changes an entry,
    a call that panics changes nothing, and the two tables stay inverse to
    each other: after every sequence of operations on the empty registry
    each registered type has exactly one name and each registered name
    exactly one type. *)
Theorem registry_one_to_one {T : Type} `{Countable T}
    (valid : T -> bool) (nameOf : T -> string) :
  (forall name rt (r : registry (T := T)),
     is_Some (type2name r !! rt) \/ is_Some (name2type r !! name) ->
     exists e, RegisterName valid nameOf name rt r = Panic e) /\
  (forall name rt (r r' : registry (T := T)),
     RegisterName valid nameOf name rt r = Ok r' ->
     type2name r !! rt = None /\ name2type r !! name = None /\
     type2name r' = <[rt := name]> (type2name r) /\
     name2type r' = <[name := rt]> (name2type r)) /\
  (forall o (r : registry (T := T)),
     type2name r ⊆ type2name (after valid nameOf o r) /\
     name2type r ⊆ name2type (after valid nameOf o r)) /\
  (forall ops,
     let r := afterAll valid nameOf ops (emptyRegistry (T := T)) in
     oneToOne r /\
     (forall (t1 t2 : T) n,
        type2name r !! t1 = Some n -> type2name r !! t2 = Some n -> t1 = t2) /\
     (forall n1 n2 (t : T),
        name2type r !! n1 = Some t -> name2type r !! n2 = Some t -> n1 = n2)).
Proof.
  split; [apply RegisterName_conflict|].
  split.
  { intros name rt r r' Hreg.
    by destruct (RegisterName_ok _ _ _ _ _ _ Hreg) as (_ & _ & ? & ? & ? & ?). }
  split; [apply after_keeps|].
  intros ops r.
  assert (Hinv : oneToOne r)
    by apply afterAll_oneToOne, emptyRegistry_oneToOne.
  split; [done|]. by apply oneToOne_unique.
Qed.

(** Three calls, the second of which panics on the name taken by the
    first: the registry holds the two pairs of the calls that returned,
    and a further registration of the type 1 panics. *)
Lemma registry_one_to_one_witness :
  afterAll (fun _ : positive => true) (fun _ => "main.T")
    [OpRegisterName "a" 1%positive; OpRegisterName "a" 2%positive;
     OpRegister 3%positive]
    emptyRegistry
  = mkRegistry {[ 1%positive := "a"; 3%positive := "main.T" ]}
               {[ "a" := 1%positive; "main.T" := 3%positive ]}
  /\ exists e,
       RegisterName (fun _ : positive => true) (fun _ => "main.T") "b" 1%positive
         (mkRegistry {[ 1%positive := "a"; 3%positive := "main.T" ]}
                     {[ "a" := 1%positive; "main.T" := 3%positive ]})
       = Panic e.
Proof.
  split; [vm_compute; reflexivity|].
  apply (proj1 (registry_one_to_one (fun _ : positive => true) (fun _ => "main.T"))).
  left. exists "a". vm_compute. reflexivity.
Defined.

(** ** The interface engine *)



(** ** Canonical names *)

Local Open Scope string_scope.

Lemma rtype_nested_ind (P : rtype -> Prop) :
  P RNil ->
  (forall PkgPath Name decl, P (RNamed PkgPath Name decl)) ->
  (forall elem, P elem -> P (RPtr elem)) ->
  (forall len elem, P elem -> P (RArray len elem)) ->
  (forall elem, P elem -> P (RSlice elem)) ->
  (forall fields, Forall (fun f => P (snd f)) fields -> P (RStruct fields)) ->
  (forall key elem, P key -> P elem -> P (RMap key elem)) ->
  (forall methods,
     Forall (fun m => Forall P (fst (fst (snd m))) /\ Forall P (snd (fst (snd m))))
       methods ->
     P (RInterface methods)) ->
  (forall ins outs variadic,
     Forall P ins -> Forall P outs -> P (RFunc ins outs variadic)) ->
  (forall dir elem, P elem -> P (RChan dir elem)) ->
  forall rt, P rt.
Proof.
  intros HNil HNamed HPtr HArray HSlice HStruct HMap HInterface HFunc HChan.
  fix IH 1.
  assert (Hlist : forall l : list rtype, Forall P l).
  { fix IHl 1. intros [|t l]; constructor; [apply IH|apply IHl]. }
  intros [ | PkgPath Name decl | elem | len elem | elem | fields | key elem
         | methods | ins outs variadic | dir elem ].
  - apply HNil.
  - apply HNamed.
  - apply HPtr, IH.
  - apply HArray, IH.
  - apply HSlice, IH.
  - apply HStruct. revert fields. fix IHf 1.
    intros [|[[[fName anonymous] tag] fType] fields]; constructor;
      [apply IH|apply IHf].
  - apply HMap; apply IH.
  - apply HInterface. revert methods. fix IHm 1.
    intros [|[mName [[ins outs] variadic]] methods]; constructor;
      [split; apply Hlist|apply IHm].
  - apply HFunc; apply Hlist.
  - apply HChan, IH.
Qed.

Lemma append_assoc (s1 s2 s3 : string) : (s1 +:+ s2) +:+ s3 = s1 +:+ (s2 +:+ s3).
Proof.
  induction s1 as [|c s1 IH]; [done|].
  change (String c ((s1 +:+ s2) +:+ s3) = String c (s1 +:+ (s2 +:+ s3))).
  by f_equal.
Qed.

Lemma append_nil_r (s : string) : s +:+ "" = s.
Proof.
  induction s as [|c s IH]; [done|].
  change (String c (s +:+ "") = String c s). by f_equal.
Qed.

Lemma forEach_appends {A} (body : string -> A -> string) more last xs :
  Forall (appends body) xs -> appends (fun prefix xs => forEach body more last xs prefix) xs.
Proof.
  unfold appends. induction 1 as [|x xs Hx Hxs IH]; intros prefix; cbn [forEach].
  - by rewrite append_nil_r.
  - cbv zeta. rewrite (Hx prefix).
    rewrite (IH (match xs with [] => _ | _ => _ end)).
    rewrite (IH (match xs with [] => body "" x +:+ _ | _ => _ end)).
    destruct xs; by rewrite !append_assoc.
Qed.

Lemma funcName_appends ins outs :
  Forall (appends getName) ins -> Forall (appends getName) outs ->
  forall prefix,
    funcName getName ins outs prefix = prefix +:+ funcName getName ins outs "".
Proof.
  intros Hins Houts prefix. unfold funcName. cbv zeta.
  pose proof (forEach_appends getName ", " "" ins Hins) as Hi.
  pose proof (forEach_appends getName ", " "" outs Houts) as Ho.
  unfold appends in Hi, Ho.
  rewrite (Hi (prefix +:+ "func(")), (Hi ("" +:+ "func(")).
  destruct outs as [|o1 [|o2 outs]].
  - cbn [forEach]. by rewrite !append_assoc.
  - rewrite (Ho (_ +:+ " ")), (Ho ((_ +:+ ")") +:+ " ")). by rewrite !append_assoc.
  - rewrite (Ho (_ +:+ "(")), (Ho (((_ +:+ ")") +:+ " ") +:+ "(")).
    by rewrite !append_assoc.
Qed.

Lemma getName_appends rt : appends getName rt.
Proof.
  induction rt using rtype_nested_ind; intros prefix; cbn [getName].
  - done.
  - destruct (bool_decide _); done.
  - rewrite IHrt, (IHrt ("" +:+ _)). by rewrite !append_assoc.
  - rewrite IHrt, (IHrt ("" +:+ _)). by rewrite !append_assoc.
  - rewrite IHrt, (IHrt ("" +:+ _)). by rewrite !append_assoc.
  - cbv zeta.
    match goal with
    | |- context [forEach ?body _ _ _ _] =>
        assert (Hf : Forall (appends body) fields)
    end.
    { eapply Forall_impl; [exact H|].
      intros [[[fName anonymous] tag] fType] Hp pre. cbn in Hp.
      destruct anonymous; [apply Hp|].
      rewrite Hp, (Hp ("" +:+ _)). by rewrite !append_assoc. }
    apply (forEach_appends _ "; " " ") in Hf. unfold appends in Hf.
    destruct fields as [|f fields].
    + cbn [forEach]. by rewrite !append_assoc.
    + rewrite (Hf ((prefix +:+ _) +:+ _)), (Hf (("" +:+ _) +:+ _)).
      by rewrite !append_assoc.
  - rewrite IHrt2, (IHrt2 (getName _ _ +:+ _)).
    rewrite IHrt1, (IHrt1 ("" +:+ _)). by rewrite !append_assoc.
  - cbv zeta.
    match goal with
    | |- context [forEach ?body _ _ _ _] =>
        assert (Hf : Forall (appends body) methods)
    end.
    { clear. induction methods as [|[mName [[ins outs] variadic]] methods IH];
        constructor; [|done]. intros pre. done. }
    apply (forEach_appends _ "; " " ") in Hf. unfold appends in Hf.
    destruct methods as [|m methods].
    + cbn [forEach]. by rewrite !append_assoc.
    + rewrite (Hf ((prefix +:+ _) +:+ _)), (Hf (("" +:+ _) +:+ _)).
      by rewrite !append_assoc.
  - by apply funcName_appends.
  - done.
Qed.

(** ** Reading a text back *)

Lemma append_cons c (s t : string) : String c s +:+ t = String c (s +:+ t).
Proof. done. Qed.

Lemma stops_special c t : stops (String c t) = true -> special c = true.
Proof.
  cbn. intros ->%Ascii.eqb_eq. done.
Qed.

(** A plain text followed by a stop is read back in one way only. *)
Lemma plain_stop_unique (x y s s' : string) :
  plain x = true -> plain y = true -> stops s = true -> stops s' = true ->
  x +:+ s = y +:+ s' -> x = y /\ s = s'.
Proof.
  revert y. induction x as [|c x IH]; intros [|c' y] Hx Hy Hs Hs'.
  - done.
  - cbn [String.append]. change ("" +:+ s) with s. intros ->.
    rewrite append_cons in Hs. apply stops_special in Hs.
    cbn [plain] in Hy. by rewrite Hs in Hy.
  - change ("" +:+ s') with s'. intros <-.
    rewrite append_cons in Hs'. apply stops_special in Hs'.
    cbn [plain] in Hx. by rewrite Hs' in Hx.
  - rewrite !append_cons. intros [= -> Heq].
    cbn [plain] in Hx, Hy. apply andb_true_iff in Hx as [_ Hx], Hy as [_ Hy].
    destruct (IH y Hx Hy Hs Hs' Heq) as [-> ->]. done.
Qed.

(** It begins with a special character only when it is empty. *)
Lemma plain_stop_head (x s : string) c t :
  plain x = true -> x +:+ s = String c t -> special c = true -> x = "".
Proof.
  destruct x as [|c' x]; [done|].
  rewrite append_cons. cbn [plain]. intros Hx [= -> _] Hc. by rewrite Hc in Hx.
Qed.

Lemma dotFree_dot (x y : string) : dotFree (x +:+ String "." y) = false.
Proof.
  induction x as [|c x IH]; [done|].
  rewrite append_cons. cbn [dotFree]. rewrite IH. apply andb_false_r.
Qed.

Lemma last_dot_unique (p1 p2 n1 n2 : string) :
  dotFree n1 = true -> dotFree n2 = true ->
  p1 +:+ String "." n1 = p2 +:+ String "." n2 -> p1 = p2 /\ n1 = n2.
Proof.
  intros H1 H2. revert p2. induction p1 as [|c p1 IH]; intros [|c' p2].
  - by intros [= ->].
  - change ("" +:+ String "." n1) with (String "." n1). rewrite append_cons.
    intros [= <- ->]. by rewrite dotFree_dot in H1.
  - change ("" +:+ String "." n2) with (String "." n2). rewrite append_cons.
    intros [= -> <-]. by rewrite dotFree_dot in H2.
  - rewrite !append_cons. intros [= -> Heq].
    by destruct (IH _ Heq) as [-> ->].
Qed.

Lemma qualified_inj (p1 n1 p2 n2 : string) :
  dotFree n1 = true -> dotFree n2 = true ->
  qualified p1 n1 = qualified p2 n2 -> p1 = p2 /\ n1 = n2.
Proof.
  intros H1 H2. unfold qualified.
  change ("." +:+ n1) with (String "." n1). change ("." +:+ n2) with (String "." n2).
  destruct (bool_decide_reflect (p1 = "")) as [->|Hp1],
           (bool_decide_reflect (p2 = "")) as [->|Hp2].
  - done.
  - intros ->. by rewrite dotFree_dot in H1.
  - intros <-. by rewrite dotFree_dot in H2.
  - by apply last_dot_unique.
Qed.

Lemma qualified_nonempty (p n : string) : n <> "" -> qualified p n <> "".
Proof.
  intros Hn. unfold qualified. destruct (bool_decide _); [done|].
  destruct p; [|done]. destruct n; done.
Qed.

(** Decimal numerals are plain and not empty. *)
Lemma pretty_N_go_plain x : forall s,
  plain s = true -> plain (pretty_N_go x s) = true.
Proof.
  induction (N.lt_wf_0 x) as [x _ IH]; intros s Hs.
  destruct (decide (x = 0)%N) as [->|Hx]; [by rewrite pretty_N_go_0|].
  rewrite pretty_N_go_step by lia. apply IH.
  - apply N.div_lt; lia.
  - cbn [plain]. rewrite Hs, andb_true_r.
    unfold pretty_N_char. by repeat case_match.
Qed.

Lemma pretty_N_go_nonempty x : forall s, s <> "" -> pretty_N_go x s <> "".
Proof.
  induction (N.lt_wf_0 x) as [x _ IH]; intros s Hs.
  destruct (decide (x = 0)%N) as [->|Hx]; [by rewrite pretty_N_go_0|].
  rewrite pretty_N_go_step by lia. apply IH; [apply N.div_lt; lia|done].
Qed.

Lemma Itoa_plain n : (0 <= n)%Z -> plain (Itoa n) = true /\ Itoa n <> "".
Proof.
  intros Hn. unfold Itoa, pretty, pretty_Z. destruct n as [|q|q]; [done| |lia].
  unfold pretty, pretty_positive, pretty, pretty_N. case_decide; [done|].
  split.
  - by apply pretty_N_go_plain.
  - rewrite pretty_N_go_step by lia. by apply pretty_N_go_nonempty.
Qed.

(** The name of a shape, by the kind of the shape. *)
Lemma GetNameByType_eqs :
  (forall p n d, GetNameByType (RNamed p n d) = qualified p n) /\
  (forall e, GetNameByType (RPtr e) = "*" +:+ GetNameByType e) /\
  (forall e, GetNameByType (RSlice e) = "[]" +:+ GetNameByType e) /\
  (forall n e,
     GetNameByType (RArray n e) = "[" +:+ Itoa n +:+ "]" +:+ GetNameByType e) /\
  (forall k e,
     GetNameByType (RMap k e)
     = "map[" +:+ GetNameByType k +:+ "]" +:+ GetNameByType e).
Proof.
  unfold GetNameByType. split; [|split; [|split; [|split]]].
  - intros p n d. cbn [getName]. unfold qualified. by destruct (bool_decide _).
  - intros e. cbn [getName]. by rewrite getName_appends.
  - intros e. cbn [getName]. by rewrite getName_appends.
  - intros n e. cbn [getName]. rewrite getName_appends.
    change ("" +:+ ?x) with x. by rewrite !append_assoc.
  - intros k e. cbn [getName]. rewrite getName_appends.
    rewrite (getName_appends k). change ("" +:+ ?x) with x.
    by rewrite !append_assoc.
Qed.

Lemma append_nil_l (s : string) : "" +:+ s = s.
Proof. done. Qed.

Tactic Notation "norm_str" "in" hyp(H) :=
  repeat first
    [ rewrite append_assoc in H | rewrite append_cons in H
    | rewrite append_nil_l in H ].

(** ** Names of well-named shapes are unambiguous *)

Ltac norm_goal :=
  repeat first
    [ rewrite append_assoc | rewrite append_cons | rewrite append_nil_l ].

Lemma word_app (x y : string) : word (x +:+ y) = word x && word y.
Proof.
  induction x as [|c x IH]; [done|].
  rewrite append_cons. cbn [word]. rewrite IH. by rewrite andb_assoc.
Qed.

Lemma follows_mark c r : follows (String c r) = true -> mark c = true.
Proof.
  cbn [follows]. intros H.
  repeat (apply orb_true_iff in H as [H|H]);
    try (apply Ascii.eqb_eq in H as ->; done).
  apply andb_true_iff in H as [H _]. by apply Ascii.eqb_eq in H as ->.
Qed.

(** The first mark of a text is found in one way. *)
Lemma first_mark (x y : string) c c' r r' :
  word x = true -> word y = true -> mark c = true -> mark c' = true ->
  x +:+ String c r = y +:+ String c' r' -> x = y /\ c = c' /\ r = r'.
Proof.
  revert y. induction x as [|a x IH]; intros [|a' y] Hx Hy Hc Hc';
    rewrite ?append_cons, ?append_nil_l.
  - by intros [= -> ->].
  - intros [= -> _]. cbn [word] in Hy. by rewrite Hc in Hy.
  - intros [= -> _]. cbn [word] in Hx. by rewrite Hc' in Hx.
  - intros [= -> Heq]. cbn [word] in Hx, Hy.
    apply andb_true_iff in Hx as [_ Hx], Hy as [_ Hy].
    by destruct (IH y Hx Hy Hc Hc' Heq) as (-> & -> & ->).
Qed.

Lemma word_follow_unique (x y s s' : string) :
  word x = true -> word y = true -> follows s = true -> follows s' = true ->
  x +:+ s = y +:+ s' -> x = y /\ s = s'.
Proof.
  intros Hx Hy Hs Hs' Heq.
  destruct s as [|c r], s' as [|c' r'].
  - by rewrite !append_nil_r in Heq.
  - rewrite append_nil_r in Heq. subst x.
    rewrite word_app in Hx. cbn [word] in Hx.
    rewrite (follows_mark _ _ Hs'), andb_false_r in Hx. done.
  - rewrite append_nil_r in Heq. subst y.
    rewrite word_app in Hy. cbn [word] in Hy.
    rewrite (follows_mark _ _ Hs), andb_false_r in Hy. done.
  - apply first_mark in Heq as (-> & -> & ->);
      eauto using follows_mark.
Qed.

(** The name of a struct, interface or function type, item by item. *)
Lemma forEach_text {A} (body : string -> A -> string) (text : A -> string)
    more last xs :
  (forall x prefix, body prefix x = prefix +:+ text x) ->
  forall prefix,
    forEach body more last xs prefix = prefix +:+ listText text more last xs.
Proof.
  intros Hb. induction xs as [|x xs IH]; intros prefix; cbn [forEach listText].
  - by rewrite append_nil_r.
  - cbv zeta. rewrite IH, Hb. destruct xs; by rewrite !append_assoc.
Qed.

Lemma getName_text rt prefix : getName prefix rt = prefix +:+ GetNameByType rt.
Proof. apply getName_appends. Qed.

Lemma funcName_text ins outs prefix :
  funcName getName ins outs prefix = prefix +:+ "func" +:+ signatureText ins outs.
Proof.
  unfold funcName, signatureText, resultText. cbv zeta.
  rewrite !(forEach_text getName GetNameByType) by (intros; apply getName_text).
  destruct outs as [|o1 [|o2 outs]].
  - cbn [listText]. by rewrite !append_assoc, ?append_nil_r.
  - cbn [listText]. by rewrite !append_assoc, ?append_nil_r.
  - by rewrite !append_assoc.
Qed.

Lemma GetNameByType_composite :
  (forall fields,
     GetNameByType (RStruct fields)
     = "struct {" +:+ (match fields with [] => "" | _ => " " end)
       +:+ listText fieldText "; " " " fields +:+ "}") /\
  (forall methods,
     GetNameByType (RInterface methods)
     = "interface {" +:+ (match methods with [] => "" | _ => " " end)
       +:+ listText methodText "; " " " methods +:+ "}") /\
  (forall ins outs variadic,
     GetNameByType (RFunc ins outs variadic) = "func" +:+ signatureText ins outs).
Proof.
  unfold GetNameByType. split; [|split].
  - intros fields. cbn [getName]. cbv zeta.
    rewrite (forEach_text _ fieldText).
    + destruct fields; by rewrite !append_assoc.
    + intros [[[fName anonymous] tag] fType] prefix. cbn [fieldText].
      destruct anonymous; rewrite getName_text; by rewrite ?append_assoc.
  - intros methods. cbn [getName]. cbv zeta.
    rewrite (forEach_text _ methodText).
    + destruct methods; by rewrite !append_assoc.
    + intros [mName [[ins outs] variadic]] prefix. cbn [methodText].
      by rewrite funcName_text.
  - intros ins outs variadic. cbn [getName]. by rewrite funcName_text.
Qed.

(** *** Items of a list, read back one by one *)

Section Items.
Context {A B : Type}.
Variable text : A -> string.
Variable ok : A -> bool.
Variable read : A -> B.
Variables more last close : string.

Hypothesis more_follows : forall r, follows (more +:+ r) = true.
Hypothesis last_follows : forall r, follows (last +:+ close +:+ r) = true.
Hypothesis more_not_last : forall r r', more +:+ r <> last +:+ close +:+ r'.

Lemma listText_unique xs : forall ys s s',
  Forall (itemUnique text ok read) xs -> xs <> [] -> ys <> [] ->
  forallb ok xs = true -> forallb ok ys = true ->
  listText text more last xs +:+ close +:+ s
  = listText text more last ys +:+ close +:+ s' ->
  map read xs = map read ys /\ s = s'.
Proof.
  induction xs as [|x xs IH]; intros [|y ys] s s' Hall Hx Hy Hok Hok' Heq;
    try done.
  clear Hx Hy. apply Forall_cons in Hall as [Hu Hall].
  cbn [forallb] in Hok, Hok'.
  apply andb_true_iff in Hok as [Hokx Hok], Hok' as [Hoky Hok'].
  cbn [listText] in Heq. rewrite !append_assoc in Heq.
  apply Hu in Heq as [Hr Heq]; [|done|done|..].
  - cbn [map]. rewrite Hr.
    destruct xs as [|x' xs], ys as [|y' ys].
    + change (listText text more last []) with "" in Heq.
      rewrite !append_nil_l in Heq.
      split; [done|]. by repeat apply String.app_inj in Heq.
    + exfalso. change (listText text more last []) with "" in Heq.
      rewrite append_nil_l in Heq.
      symmetry in Heq. by apply more_not_last in Heq.
    + exfalso. change (listText text more last []) with "" in Heq.
      rewrite append_nil_l in Heq.
      by apply more_not_last in Heq.
    + apply String.app_inj in Heq.
      destruct (IH (y' :: ys) s s') as [Hm ->]; try done.
      by rewrite Hm.
  - destruct xs; [change (listText text more last []) with "";
                  rewrite append_nil_l|]; auto.
  - destruct ys; [change (listText text more last []) with "";
                  rewrite append_nil_l|]; auto.
Qed.
End Items.

Lemma identifier_spec n : identifier n = true <-> n <> "" /\ word n = true.
Proof.
  unfold identifier. rewrite andb_true_iff, negb_true_iff, bool_decide_eq_false.
  done.
Qed.

Lemma word_cons x : x <> "" -> word x = true ->
  exists c r, x = String c r /\ mark c = false.
Proof.
  destruct x as [|c r]; [done|]. cbn [word]. intros _ H.
  apply andb_true_iff in H as [H _]. apply negb_true_iff in H. eauto.
Qed.

Lemma word_qualified p n :
  word p = true -> identifier n = true ->
  word (qualified p n) = true /\ qualified p n <> "".
Proof.
  intros Hp [Hne Hn]%identifier_spec. split.
  - unfold qualified. destruct (bool_decide _); [done|].
    rewrite !word_app, Hp, Hn. done.
  - by apply qualified_nonempty.
Qed.

Lemma word_start x s : x <> "" -> word x = true -> typeStart (x +:+ s) = true.
Proof.
  intros Hne Hx. destruct (word_cons x Hne Hx) as (c & r & -> & Hc).
  rewrite append_cons. cbn [typeStart]. rewrite Hc. by rewrite !orb_true_r.
Qed.

(** A word followed by what may follow a name does not run into a mark
    that may not. *)
Lemma word_then_mark (x y s : string) c r :
  word x = true -> word y = true -> follows s = true -> mark c = true ->
  x +:+ s = y +:+ String c r -> x = y /\ s = String c r.
Proof.
  intros Hx Hy Hs Hc Heq. destruct s as [|c' r'].
  - rewrite append_nil_r in Heq. subst x.
    rewrite word_app in Hx. cbn [word] in Hx.
    by rewrite Hc, andb_false_r in Hx.
  - apply first_mark in Heq as (-> & -> & ->); eauto using follows_mark.
Qed.

Lemma word_not_composite (x y s : string) c r :
  word x = true -> follows s = true ->
  word y = true -> mark c = true -> follows (String c r) = false ->
  x +:+ s = y +:+ String c r -> False.
Proof.
  intros Hx Hs Hy Hc Hf Heq.
  apply word_then_mark in Heq as [_ ->]; [|done..]. by rewrite Hs in Hf.
Qed.

Lemma wellNamed_named p n d :
  wellNamed (RNamed p n d) = true ->
  d = 0%N /\ word (qualified p n) = true /\ qualified p n <> "" /\
  dotFree n = true.
Proof.
  cbn [wellNamed]. intros H.
  apply andb_true_iff in H as [H Hdot]. apply andb_true_iff in H as [H Hp].
  apply andb_true_iff in H as [Hd Hn]. apply bool_decide_eq_true in Hd.
  destruct (word_qualified p n Hp Hn). done.
Qed.

Lemma wellNamed_start a s :
  wellNamed a = true -> typeStart (GetNameByType a +:+ s) = true.
Proof.
  destruct GetNameByType_eqs as (ENamed & EPtr & ESlice & EArray & EMap).
  destruct GetNameByType_composite as (EStruct & EInterface & EFunc).
  destruct a; try done; intros Ha;
    rewrite ?ENamed, ?EPtr, ?ESlice, ?EArray, ?EMap, ?EStruct, ?EInterface, ?EFunc;
    try (norm_goal; reflexivity).
  destruct (wellNamed_named _ _ _ Ha) as (_ & Hw & Hne & _).
  by apply word_start.
Qed.

Lemma args_unique xs ys s s' :
  Forall unambiguous xs ->
  forallb wellNamed xs = true -> forallb wellNamed ys = true ->
  listText GetNameByType ", " "" xs +:+ ")" +:+ s
  = listText GetNameByType ", " "" ys +:+ ")" +:+ s' ->
  map readShape xs = map readShape ys /\ s = s'.
Proof.
  intros Hall Hx Hy Heq. destruct xs as [|x xs], ys as [|y ys].
  - change (listText GetNameByType ", " "" []) with "" in Heq.
    norm_str in Heq. by injection Heq as ->.
  - exfalso. cbn [forallb] in Hy. apply andb_true_iff in Hy as [Hy _].
    cbn [listText] in Heq. rewrite !append_assoc, append_nil_l in Heq.
    eapply wellNamed_start in Hy. rewrite <- Heq in Hy. done.
  - exfalso. cbn [forallb] in Hx. apply andb_true_iff in Hx as [Hx _].
    cbn [listText] in Heq. rewrite !append_assoc, append_nil_l in Heq.
    eapply wellNamed_start in Hx. rewrite Heq in Hx. done.
  - eapply (listText_unique GetNameByType wellNamed readShape ", " "" ")");
      try done.
Qed.

Lemma result_unique xs ys s s' :
  Forall unambiguous xs ->
  forallb wellNamed xs = true -> forallb wellNamed ys = true ->
  follows s = true -> follows s' = true ->
  resultText xs +:+ s = resultText ys +:+ s' ->
  map readShape xs = map readShape ys /\ s = s'.
Proof.
  intros Hall Hx Hy Hs Hs' Heq.
  destruct xs as [|x1 [|x2 xs]], ys as [|y1 [|y2 ys]];
    cbn [resultText] in Heq; rewrite ?append_assoc, ?append_nil_l in Heq;
    try apply String.app_inj in Heq; try norm_str in Heq.
  - done.
  - exfalso. subst s. cbn [follows] in Hs. cbn [forallb] in Hy.
    apply andb_true_iff in Hy as [Hy _].
    apply (wellNamed_start _ s') in Hy.
    destruct (GetNameByType y1 +:+ s') as [|c r]; [done|].
    cbn [typeStart] in Hy. revert Hs Hy. cbn.
    destruct (Ascii.eqb_spec c "}") as [->|]; done.
  - exfalso. subst s. done.
  - exfalso. subst s'. cbn [follows] in Hs'. cbn [forallb] in Hx.
    apply andb_true_iff in Hx as [Hx _].
    apply (wellNamed_start _ s) in Hx.
    destruct (GetNameByType x1 +:+ s) as [|c r]; [done|].
    cbn [typeStart] in Hx. revert Hs' Hx. cbn.
    destruct (Ascii.eqb_spec c "}") as [->|]; done.
  - cbn [forallb] in Hx, Hy.
    apply andb_true_iff in Hx as [Hx _], Hy as [Hy _].
    apply Forall_cons in Hall as [Hu _].
    destruct (Hu y1 s s' Hx Hy Hs Hs' Heq) as [Hr ->]. cbn [map]. by rewrite Hr.
  - exfalso. injection Heq as Heq. cbn [forallb] in Hx.
    apply andb_true_iff in Hx as [Hx _].
    apply (wellNamed_start _ s) in Hx. rewrite Heq in Hx. done.
  - exfalso. subst s'. done.
  - exfalso. injection Heq as Heq. cbn [forallb] in Hy.
    apply andb_true_iff in Hy as [Hy _].
    apply (wellNamed_start _ s') in Hy. rewrite <- Heq in Hy. done.
  - apply args_unique in Heq; done.
Qed.

Lemma signature_unique ins outs ins' outs' s s' :
  Forall unambiguous ins -> Forall unambiguous outs ->
  forallb wellNamed ins = true -> forallb wellNamed outs = true ->
  forallb wellNamed ins' = true -> forallb wellNamed outs' = true ->
  follows s = true -> follows s' = true ->
  signatureText ins outs +:+ s = signatureText ins' outs' +:+ s' ->
  map readShape ins = map readShape ins' /\
  map readShape outs = map readShape outs' /\ s = s'.
Proof.
  intros Hi Ho Hwi Hwo Hwi' Hwo' Hs Hs' Heq. unfold signatureText in Heq.
  rewrite !append_assoc in Heq. apply String.app_inj in Heq.
  apply args_unique in Heq as [-> Heq]; [|done..].
  apply result_unique in Heq as [-> ->]; done.
Qed.

Lemma embeddedName_read t : embeddedName (readShape t) = embeddedName t.
Proof. destruct t as [| | [] | | | | | | | ]; done. Qed.

Lemma follows_space t : typeStart t = true -> follows (String " " t) = false.
Proof.
  destruct t as [|c r]; [done|]. cbn [typeStart follows].
  destruct (Ascii.eqb_spec c "}") as [->|]; done.
Qed.

Lemma field_unique f :
  unambiguous (snd f) -> itemUnique fieldText fieldOk fieldRead f.
Proof.
  destruct GetNameByType_eqs as (ENamed & EPtr & _).
  destruct f as [[[fName anon] tag] fType]. cbn [snd]. intros Hu.
  intros [[[gName ganon] gtag] gType] u u' Hx Hy Hfu Hfu' Heq.
  cbn [fieldOk] in Hx, Hy.
  apply andb_true_iff in Hx as [Hx Hxn], Hy as [Hy Hyn].
  cbn [fieldText fieldRead] in *. destruct anon, ganon.
  - destruct (Hu gType u u' Hx Hy Hfu Hfu' Heq) as [Hr ->].
    apply bool_decide_eq_true in Hxn, Hyn.
    rewrite <- embeddedName_read, Hr, embeddedName_read, Hyn in Hxn.
    injection Hxn as ->. by rewrite Hr.
  - exfalso. apply bool_decide_eq_true in Hxn.
    apply identifier_spec in Hyn as [Hne Hw].
    rewrite !append_assoc in Heq.
    pose proof (wellNamed_start gType u' Hy) as Hst.
    apply follows_space in Hst.
    destruct fType as [| p n d | e | | | | | | | ]; try done.
    + rewrite ENamed in Heq.
      destruct (wellNamed_named _ _ _ Hx) as (_ & Hq & _).
      by apply word_not_composite in Heq.
    + rewrite EPtr in Heq.
      destruct (word_cons _ Hne Hw) as (c & r & -> & Hc).
      norm_str in Heq. injection Heq as <- _. done.
  - exfalso. apply bool_decide_eq_true in Hyn.
    apply identifier_spec in Hxn as [Hne Hw].
    rewrite !append_assoc in Heq. symmetry in Heq.
    pose proof (wellNamed_start fType u Hx) as Hst.
    apply follows_space in Hst.
    destruct gType as [| p n d | e | | | | | | | ]; try done.
    + rewrite ENamed in Heq.
      destruct (wellNamed_named _ _ _ Hy) as (_ & Hq & _).
      by apply word_not_composite in Heq.
    + rewrite EPtr in Heq.
      destruct (word_cons _ Hne Hw) as (c & r & -> & Hc).
      norm_str in Heq. injection Heq as <- _. done.
  - apply identifier_spec in Hxn as [_ Hw], Hyn as [_ Hw'].
    rewrite !append_assoc in Heq.
    apply first_mark in Heq as (-> & _ & Heq); [|done..].
    destruct (Hu gType u u' Hx Hy Hfu Hfu' Heq) as [Hr ->]. by rewrite Hr.
Qed.

Lemma method_unique m :
  Forall unambiguous (fst (fst (snd m))) /\ Forall unambiguous (snd (fst (snd m))) ->
  itemUnique methodText methodOk methodRead m.
Proof.
  destruct m as [mName [[ins outs] variadic]]. cbn [fst snd]. intros [Hi Ho].
  intros [nName [[ins' outs'] variadic']] u u' Hx Hy Hfu Hfu' Heq.
  cbn [methodOk] in Hx, Hy.
  apply andb_true_iff in Hx as [Hx Hxo], Hy as [Hy Hyo].
  apply andb_true_iff in Hx as [Hxn Hxi], Hy as [Hyn Hyi].
  apply identifier_spec in Hxn as [_ Hw], Hyn as [_ Hw'].
  cbn [methodText methodRead] in *.
  rewrite !append_assoc in Heq.
  assert (Hsig : forall i o t,
            signatureText i o +:+ t
            = String "(" (listText GetNameByType ", " "" i +:+ ")"
                          +:+ resultText o +:+ t)).
  { intros i o t. unfold signatureText. by rewrite !append_assoc. }
  rewrite !Hsig in Heq.
  apply first_mark in Heq as (-> & _ & Heq); [|done..].
  apply args_unique in Heq as [-> Heq]; [|done..].
  apply result_unique in Heq as [-> ->]; done.
Qed.

Ltac named_composite Ha Hs Heq :=
  apply wellNamed_named in Ha as (_ & Ha & _ & _);
  norm_str in Heq;
  first
    [ refine (word_not_composite _ "" _ "*" _ Ha Hs eq_refl eq_refl _ Heq)
    | refine (word_not_composite _ "" _ "[" _ Ha Hs eq_refl eq_refl _ Heq)
    | refine (word_not_composite _ "map" _ "[" _ Ha Hs eq_refl eq_refl _ Heq)
    | refine (word_not_composite _ "struct" _ " " _ Ha Hs eq_refl eq_refl _ Heq)
    | refine (word_not_composite _ "interface" _ " " _ Ha Hs eq_refl eq_refl _ Heq)
    | refine (word_not_composite _ "func" _ "(" _ Ha Hs eq_refl eq_refl _ Heq) ];
  reflexivity.

Lemma wellNamed_unambiguous (a : rtype) : unambiguous a.
Proof.
  destruct GetNameByType_eqs as (ENamed & EPtr & ESlice & EArray & EMap).
  destruct GetNameByType_composite as (EStruct & EInterface & EFunc).
  induction a using rtype_nested_ind; intros b s s' Ha Hb Hs Hs'; try done;
    destruct b; try done;
    rewrite ?ENamed, ?EPtr, ?ESlice, ?EArray, ?EMap, ?EStruct, ?EInterface, ?EFunc;
    intros Heq;
    try (norm_str in Heq; discriminate Heq);
    try (exfalso; named_composite Ha Hs Heq; fail);
    try (exfalso; symmetry in Heq; named_composite Hb Hs' Heq; fail).
  - (* named, named *)
    destruct (wellNamed_named _ _ _ Ha) as (-> & Hq & _ & Hdot).
    destruct (wellNamed_named _ _ _ Hb) as (-> & Hq' & _ & Hdot').
    apply word_follow_unique in Heq as [Heq ->]; [|done..].
    by apply qualified_inj in Heq as [-> ->].
  - (* pointer, pointer *)
    rewrite !append_assoc in Heq. apply String.app_inj in Heq.
    cbn [wellNamed] in Ha, Hb.
    destruct (IHa b _ _ Ha Hb Hs Hs' Heq) as [Hr ->]. cbn [readShape]. by rewrite Hr.
  - (* array, array *)
    cbn [wellNamed] in Ha, Hb.
    apply andb_true_iff in Ha as [Hlen Ha], Hb as [Hlen' Hb].
    apply Z.leb_le in Hlen, Hlen'.
    destruct (Itoa_plain _ Hlen) as [Hp _], (Itoa_plain _ Hlen') as [Hp' _].
    norm_str in Heq. injection Heq as Heq.
    apply plain_stop_unique in Heq as [Hn Heq]; [|done..].
    apply (inj pretty) in Hn as ->.
    injection Heq as Heq.
    destruct (IHa b _ _ Ha Hb Hs Hs' Heq) as [Hr ->]. cbn [readShape]. by rewrite Hr.
  - (* array, slice *)
    cbn [wellNamed] in Ha. apply andb_true_iff in Ha as [Hlen Ha].
    apply Z.leb_le in Hlen. destruct (Itoa_plain _ Hlen) as [Hp Hne].
    norm_str in Heq. injection Heq as Heq.
    by apply plain_stop_head in Heq.
  - (* slice, array *)
    cbn [wellNamed] in Hb. apply andb_true_iff in Hb as [Hlen Hb].
    apply Z.leb_le in Hlen. destruct (Itoa_plain _ Hlen) as [Hp Hne].
    norm_str in Heq. injection Heq as Heq. symmetry in Heq.
    by apply plain_stop_head in Heq.
  - (* slice, slice *)
    rewrite !append_assoc in Heq. apply String.app_inj in Heq.
    cbn [wellNamed] in Ha, Hb.
    destruct (IHa b _ _ Ha Hb Hs Hs' Heq) as [Hr ->]. cbn [readShape]. by rewrite Hr.
  - (* struct, struct *)
    change (forallb fieldOk fields = true) in Ha.
    change (forallb fieldOk fields0 = true) in Hb.
    change (RStruct (map fieldRead fields) = RStruct (map fieldRead fields0) /\ s = s').
    rewrite !append_assoc in Heq. apply String.app_inj in Heq.
    destruct fields as [|f fields], fields0 as [|g fields0].
    + change (listText fieldText "; " " " []) with "" in Heq.
      norm_str in Heq. by injection Heq as ->.
    + norm_str in Heq. discriminate Heq.
    + norm_str in Heq. discriminate Heq.
    + apply String.app_inj in Heq.
      apply (listText_unique fieldText fieldOk fieldRead "; " " " "}") in Heq
        as [-> ->]; try done.
      eapply Forall_impl; [exact H|]. intros x Hx. by apply field_unique.
  - (* map, map *)
    cbn [wellNamed] in Ha, Hb.
    apply andb_true_iff in Ha as [Hk He], Hb as [Hk' He'].
    rewrite !append_assoc in Heq. apply String.app_inj in Heq.
    apply (IHa1 b1) in Heq as [Hr Heq]; [|done..].
    apply String.app_inj in Heq.
    destruct (IHa2 b2 _ _ He He' Hs Hs' Heq) as [Hr' ->].
    cbn [readShape]. by rewrite Hr, Hr'.
  - (* interface, interface *)
    change (forallb methodOk methods = true) in Ha.
    change (forallb methodOk methods0 = true) in Hb.
    change (RInterface (map methodRead methods)
            = RInterface (map methodRead methods0) /\ s = s').
    rewrite !append_assoc in Heq. apply String.app_inj in Heq.
    destruct methods as [|f methods], methods0 as [|g methods0].
    + change (listText methodText "; " " " []) with "" in Heq.
      norm_str in Heq. by injection Heq as ->.
    + norm_str in Heq. discriminate Heq.
    + norm_str in Heq. discriminate Heq.
    + apply String.app_inj in Heq.
      apply (listText_unique methodText methodOk methodRead "; " " " "}") in Heq
        as [-> ->]; try done.
      eapply Forall_impl; [exact H|]. intros x Hx. by apply method_unique.
  - (* func, func *)
    cbn [wellNamed] in Ha, Hb.
    apply andb_true_iff in Ha as [Hi Ho], Hb as [Hi' Ho'].
    rewrite !append_assoc in Heq. apply String.app_inj in Heq.
    apply signature_unique in Heq as (Hri & Hro & ->); [|done..].
    cbn [readShape]. by rewrite Hri, Hro.
Qed.

(** Two well-named shapes with one name differ at most in what getName
    does not read. *)
Lemma wellNamed_injective (a b : rtype) :
  wellNamed a = true -> wellNamed b = true ->
  GetNameByType a = GetNameByType b -> readShape a = readShape b.
Proof.
  intros Ha Hb Heq.
  destruct (wellNamed_unambiguous a b "" "" Ha Hb eq_refl eq_refl) as [Hr _];
    [by rewrite !append_nil_r|done].
Qed.

Lemma simple_wellNamed (a : rtype) :
  simple a = true -> wellNamed a = true /\ readShape a = a.
Proof.
  induction a; try done; cbn [simple wellNamed readShape]; intros Ha.
  - destruct (IHa Ha) as [-> ->]. done.
  - apply andb_true_iff in Ha as [-> Ha]. destruct (IHa Ha) as [-> ->]. done.
  - destruct (IHa Ha) as [-> ->]. done.
  - apply andb_true_iff in Ha as [Hk He].
    destruct (IHa1 Hk) as [-> ->], (IHa2 He) as [-> ->]. done.
Qed.

Lemma simple_injective (a b : rtype) :
  simple a = true -> simple b = true ->
  GetNameByType a = GetNameByType b -> a = b.
Proof.
  intros [Ha Hra]%simple_wellNamed [Hb Hrb]%simple_wellNamed Heq.
  rewrite <- Hra, <- Hrb. by apply wellNamed_injective.
Qed.

(** C9, as stated, fails: distinct shapes can have the same name.  Every
    unnamed channel type has the empty name; two struct types that differ
    in a field tag, two slices of interfaces whose method takes
    [...int] in one and [[]int] in the other, and the types
    [struct { a int }] written in two packages are distinct types with
    one name. *)
Lemma getName_collisions :
  (GetNameByType (RChan BothDir (RNamed "" "int" 0)) = ""
   /\ GetNameByType (RChan BothDir (RNamed "" "string" 0)) = ""
   /\ RChan BothDir (RNamed "" "int" 0) <> RChan BothDir (RNamed "" "string" 0)) /\
  (GetNameByType (RStruct [("A", false, ("x", ""), RNamed "" "int" 0)])
   = GetNameByType (RStruct [("A", false, ("", ""), RNamed "" "int" 0)])
   /\ RStruct [("A", false, ("x", ""), RNamed "" "int" 0)]
      <> RStruct [("A", false, ("", ""), RNamed "" "int" 0)]) /\
  (GetNameByType
     (RSlice (RInterface [("M", ([RSlice (RNamed "" "int" 0)], [], (true, "")))]))
   = GetNameByType
       (RSlice (RInterface [("M", ([RSlice (RNamed "" "int" 0)], [], (false, "")))]))
   /\ RSlice (RInterface [("M", ([RSlice (RNamed "" "int" 0)], [], (true, "")))])
      <> RSlice (RInterface [("M", ([RSlice (RNamed "" "int" 0)], [], (false, "")))])) /\
  (GetNameByType (RStruct [("a", false, ("", "p"), RNamed "" "int" 0)])
   = GetNameByType (RStruct [("a", false, ("", "q"), RNamed "" "int" 0)])
   /\ RStruct [("a", false, ("", "p"), RNamed "" "int" 0)]
      <> RStruct [("a", false, ("", "q"), RNamed "" "int" 0)]) /\
  ~ (forall a b, GetNameByType a = GetNameByType b -> a = b).
Proof.
  split; [done|]. split; [done|]. split; [done|]. split; [done|].
  intros Hinj.
  by specialize (Hinj (RChan BothDir (RNamed "" "int" 0))
                      (RChan BothDir (RNamed "" "string" 0)) eq_refl).
Qed.

(** C9 (amended): canonical name derivation is deterministic and purely
    structural: getName returns the prefix it is given followed by a text
    that depends on the shape of the type only, the namespace-qualified
    name for a named type and a textual reconstruction, built by the same
    rule from the names of the components, for an unnamed pointer, array,
    slice, map, struct, interface or function type; identical shapes
    therefore always produce identical names.  Among the well-named shapes
    (no nil and no channel type, named types declared at package level,
    names that are identifiers), two shapes with one name differ at most in
    what getName does not read, the tags of fields, the variadic flags and
    the packages of unexported field and method names; two shapes with one
    name that are built by pointer, array, slice and map from named types
    are equal. *)
Theorem getName_structural :
  (forall rt prefix, getName prefix rt = prefix +:+ GetNameByType rt) /\
  (forall a b prefix, a = b -> getName prefix a = getName prefix b) /\
  ((forall p n d, GetNameByType (RNamed p n d) = qualified p n) /\
   (forall e, GetNameByType (RPtr e) = "*" +:+ GetNameByType e) /\
   (forall e, GetNameByType (RSlice e) = "[]" +:+ GetNameByType e) /\
   (forall n e,
      GetNameByType (RArray n e) = "[" +:+ Itoa n +:+ "]" +:+ GetNameByType e) /\
   (forall k e,
      GetNameByType (RMap k e)
      = "map[" +:+ GetNameByType k +:+ "]" +:+ GetNameByType e)) /\
  ((forall fields,
      GetNameByType (RStruct fields)
      = "struct {" +:+ (match fields with [] => "" | _ => " " end)
        +:+ listText fieldText "; " " " fields +:+ "}") /\
   (forall methods,
      GetNameByType (RInterface methods)
      = "interface {" +:+ (match methods with [] => "" | _ => " " end)
        +:+ listText methodText "; " " " methods +:+ "}") /\
   (forall ins outs variadic,
      GetNameByType (RFunc ins outs variadic) = "func" +:+ signatureText ins outs)) /\
  (GetNameByType
     (RStruct [("A", false, ("", ""), RNamed "" "int" 0);
               ("T", true, ("", ""), RNamed "main" "T" 0);
               ("b", false, ("", ""), RPtr (RNamed "" "int" 0))])
   = "struct { A int; main.T; b *int }"
   /\ GetNameByType
        (RInterface [("M", ([RNamed "" "int" 0; RNamed "" "string" 0],
                            [RNamed "" "int" 0], (false, "")));
                     ("N", ([], [RNamed "" "int" 0; RNamed "" "string" 0],
                            (false, "")))])
      = "interface { M(int, string) int; N() (int, string) }"
   /\ GetNameByType (RFunc [RSlice (RNamed "" "int" 0)] [] false) = "func([]int)"
   /\ GetNameByType RNil = "<nil>") /\
  (forall a b,
     wellNamed a = true -> wellNamed b = true ->
     GetNameByType a = GetNameByType b -> readShape a = readShape b) /\
  (forall a b,
     simple a = true -> simple b = true ->
     GetNameByType a = GetNameByType b -> a = b).
Proof.
  split; [intros rt prefix; apply getName_appends|].
  split; [by intros a b prefix ->|].
  split; [exact GetNameByType_eqs|].
  split; [exact GetNameByType_composite|].
  split; [done|].
  split; [exact wellNamed_injective|exact simple_injective].
Qed.

(** [map[string][]*main.T] and [map[string]*[]main.T] are simple shapes
    with different names; [func(struct { A int; main.T }) error] and
    [func(struct { A int; *main.T }) error] are well-named shapes with
    different names. *)
Lemma getName_structural_witness :
  (simple (RMap (RNamed "" "string" 0) (RSlice (RPtr (RNamed "main" "T" 0)))) = true /\
   GetNameByType (RMap (RNamed "" "string" 0) (RSlice (RPtr (RNamed "main" "T" 0))))
   = "map[string][]*main.T" /\
   GetNameByType (RMap (RNamed "" "string" 0) (RSlice (RPtr (RNamed "main" "T" 0))))
   <> GetNameByType (RMap (RNamed "" "string" 0) (RPtr (RSlice (RNamed "main" "T" 0))))) /\
  (wellNamed
     (RFunc [RStruct [("A", false, ("x", ""), RNamed "" "int" 0);
                      ("T", true, ("", ""), RNamed "main" "T" 0)]]
            [RNamed "" "error" 0] false) = true /\
   GetNameByType
     (RFunc [RStruct [("A", false, ("x", ""), RNamed "" "int" 0);
                      ("T", true, ("", ""), RNamed "main" "T" 0)]]
            [RNamed "" "error" 0] false)
   = "func(struct { A int; main.T }) error" /\
   GetNameByType
     (RFunc [RStruct [("A", false, ("x", ""), RNamed "" "int" 0);
                      ("T", true, ("", ""), RNamed "main" "T" 0)]]
            [RNamed "" "error" 0] false)
   <> GetNameByType
        (RFunc [RStruct [("A", false, ("x", ""), RNamed "" "int" 0);
                         ("T", true, ("", ""), RPtr (RNamed "main" "T" 0))]]
               [RNamed "" "error" 0] false)).
Proof.
  destruct getName_structural as (_ & _ & _ & _ & _ & Hwell & Hsimple).
  split.
  - split; [reflexivity|]. split; [reflexivity|].
    intros Heq. apply Hsimple in Heq; [discriminate Heq|reflexivity|reflexivity].
  - split; [reflexivity|]. split; [reflexivity|].
    intros Heq. apply Hwell in Heq; [discriminate Heq|reflexivity|reflexivity].
Defined.

Local Close Scope string_scope.

(** * Further properties of the decoder *)

Ltac groups_case xs :=
  exists xs; split; [unfold consumed; cbn [index setIndex length]; lia|];
  split; [cbn [length]; lia|]; split;
  [ intros k y Hk;
    repeat (destruct k as [|k];
            [ cbn in Hk; injection Hk as <-;
              cbn [length Z.of_nat Pos.of_succ_nat Pos.succ];
              rewrite ?Z.add_0_r; split; [assumption|split; intros; to_mod; lia]
            | cbn in Hk ]);
    by destruct k
  | ].

Ltac high_groups :=
  repeat match goal with
  | H : 128 <= ?x |- context [?x mod 128] =>
      replace (x mod 128) with (x - 128) by (Z.div_mod_to_equations; lia)
  end.

Ltac groups_value :=
  cbn [groupsValue pred]; to_mod; high_groups; small_mods;
  rewrite ?Zplus_mod_idemp_r, ?Zminus_mod_idemp_l;
  first [ lia | f_equal; lia | rewrite Z.mod_small by lia; lia ].

Lemma decUint16_varintOf : varintOf decUint16 16 3.
Proof.
  intros d v d'. unfold decUint16. intros H. cbv zeta in H.
  read_byte. split_lt.
  { injection H as <- <-. groups_case [x]. groups_value. }
  read_byte. split_lt.
  { injection H as <- <-. groups_case [x; x0]. groups_value. }
  read_byte. injection H as <- <-. groups_case [x; x0; x1]. groups_value.
Qed.

Lemma decUint32_varintOf : varintOf decUint32 32 5.
Proof.
  intros d v d'. unfold decUint32. intros H. cbv zeta in H.
  read_byte. split_lt.
  { injection H as <- <-. groups_case [x]. groups_value. }
  read_byte. split_lt.
  { injection H as <- <-. groups_case [x; x0]. groups_value. }
  read_byte. split_lt.
  { injection H as <- <-. groups_case [x; x0; x1]. groups_value. }
  read_byte. split_lt.
  { injection H as <- <-. groups_case [x; x0; x1; x2]. groups_value. }
  read_byte. injection H as <- <-. groups_case [x; x0; x1; x2; x3]. groups_value.
Qed.

Lemma decUint64_varintOf : varintOf decUint64 64 9.
Proof.
  intros d v d'. unfold decUint64. intros H. cbv zeta in H.
  read_byte. split_lt.
  { injection H as <- <-. groups_case [x]. groups_value. }
  read_byte. split_lt.
  { injection H as <- <-. groups_case [x; x0]. groups_value. }
  read_byte. split_lt.
  { injection H as <- <-. groups_case [x; x0; x1]. groups_value. }
  read_byte. split_lt.
  { injection H as <- <-. groups_case [x; x0; x1; x2]. groups_value. }
  read_byte. split_lt.
  { injection H as <- <-. groups_case [x; x0; x1; x2; x3]. groups_value. }
  read_byte. split_lt.
  { injection H as <- <-. groups_case [x; x0; x1; x2; x3; x4]. groups_value. }
  read_byte. split_lt.
  { injection H as <- <-. groups_case [x; x0; x1; x2; x3; x4; x5]. groups_value. }
  read_byte. split_lt.
  { injection H as <- <-. groups_case [x; x0; x1; x2; x3; x4; x5; x6]. groups_value. }
  read_byte. injection H as <- <-.
  groups_case [x; x0; x1; x2; x3; x4; x5; x6; x7]. groups_value.
Qed.


(** X1: the varint decoders read little-endian base-128: the bytes at the
    index up to the first one with a clear high bit, at most 3, 5 or 9 of
    them, and the value is the sum of the low seven bits of byte k times
    128^k, the last byte of a full-length form counting whole, wrapped to
    the type; for 64 bits nothing wraps.  A longer form of a value is
    accepted: 80 00 decodes to 0 as 00 does. *)
Theorem varint_value :
  varintOf decUint16 16 3 /\ varintOf decUint32 32 5 /\ varintOf decUint64 64 9 /\
  (forall xs, (length xs <= 9)%nat -> Forall (fun x => 0 <= x < 256) xs ->
     0 <= groupsValue 8 xs < 2 ^ 64) /\
  decUint64 (mkDecoder (bytesOf [x80; x00]%byte) 0 0 0)
  = Ok (0, mkDecoder (bytesOf [x80; x00]%byte) 2 0 0).
Proof.
  split; [exact decUint16_varintOf|]. split; [exact decUint32_varintOf|].
  split; [exact decUint64_varintOf|]. split; [|reflexivity].
  intros xs Hlen Hall.
  assert (Hgen : forall n xs, (length xs <= S n)%nat ->
            Forall (fun x => 0 <= x < 256) xs ->
            0 <= groupsValue n xs < 2 ^ (7 * Z.of_nat n + 8)).
  { clear. induction n as [|n IH]; intros [|x xs] Hlen Hall; cbn [groupsValue].
    - cbn. lia.
    - apply Forall_cons in Hall as [Hx _]. cbn. lia.
    - split; [lia|]. apply Z.pow_pos_nonneg; lia.
    - apply Forall_cons in Hall as [Hx Hall]. cbn [length] in Hlen.
      specialize (IH xs ltac:(lia) Hall).
      replace (7 * Z.of_nat (S n) + 8) with (7 + (7 * Z.of_nat n + 8)) by lia.
      rewrite Z.pow_add_r by lia. change (2 ^ 7) with 128.
      pose proof (Z.mod_pos_bound x 128 ltac:(lia)). nia. }
  exact (Hgen 8%nat xs Hlen Hall).
Qed.

Lemma varint_value_witness :
  decUint32 (mkDecoder (bytesOf [xe5; x8e; x26]%byte) 0 0 0)
  = Ok (624485, mkDecoder (bytesOf [xe5; x8e; x26]%byte) 3 0 0) /\
  exists xs,
    consumed (mkDecoder (bytesOf [xe5; x8e; x26]%byte) 0 0 0)
             (mkDecoder (bytesOf [xe5; x8e; x26]%byte) 3 0 0)
    = Z.of_nat (length xs) /\
    624485 = wrapU 32 (groupsValue 4 xs).
Proof.
  split; [reflexivity|].
  destruct varint_value as (_ & H32 & _).
  destruct (H32 (mkDecoder (bytesOf [xe5; x8e; x26]%byte) 0 0 0) 624485
              (mkDecoder (bytesOf [xe5; x8e; x26]%byte) 3 0 0) eq_refl)
    as (xs & Hc & _ & _ & Hv).
  exists xs. split; [exact Hc|exact Hv].
Defined.


Lemma at_ok s i x : at_ s i = Ok x -> 0 <= i < sl_len s.
Proof.
  unfold at_. destruct (Z.leb_spec 0 i), (Z.ltb_spec i (sl_len s)); cbn; try done.
Qed.

Lemma at_panic s i e : at_ s i = Panic e -> e = IndexOutOfRange.
Proof.
  unfold at_. destruct (_ && _); [|by intros [= <-]].
  destruct (_ !! _); [done|by intros [= <-]].
Qed.

Lemma at_beyond s i : sl_len s <= i -> at_ s i = Panic IndexOutOfRange.
Proof.
  intros Hi. unfold at_. destruct (Z.ltb_spec i (sl_len s)); [lia|].
  by rewrite andb_false_r.
Qed.

Ltac panic_reads :=
  repeat match goal with
  | |- context [rbind (at_ ?s ?i) _] =>
      let E := fresh "E" in
      destruct (at_ s i) eqn:E; cbn [rbind];
      [|apply at_panic in E; by intros [= <-]]
  | |- context [if ?a <? ?c then _ else _] => destruct (a <? c); [done|]
  end; try done.

Lemma varintSafe_of (dec : Dec Z) (w : Z) (n : nat) :
  varintOf dec w n -> groupProgress dec (Z.of_nat n) ->
  (forall d e, dec d = Panic e -> e = IndexOutOfRange) ->
  varintSafe dec (Z.of_nat n).
Proof.
  intros Hv Hp He d. destruct (dec d) as [[v d']|e] eqn:E.
  - destruct (Hv d v d' E) as (xs & Hc & Hlen & Hxs & _).
    destruct xs as [|x0 xs]; [cbn in Hlen; lia|].
    destruct (Hxs 0%nat x0 eq_refl) as (H0 & _).
    apply at_ok in H0.
    destruct (lookup_lt_is_Some_2 (x0 :: xs) (length xs)) as [y Hy];
      [cbn; lia|].
    destruct (Hxs _ _ Hy) as (Hl & _). apply at_ok in Hl.
    unfold consumed in Hc. cbn [length] in Hc. lia.
  - split; [by eapply He|].
    destruct (Z.lt_ge_cases (index d) 0); [lia|].
    destruct (Z.lt_ge_cases (sl_len (buf d)) (index d + Z.of_nat n)); [lia|].
    destruct (Z.lt_ge_cases (sl_cap (buf d)) (sl_len (buf d))); [lia|].
    destruct (Hp d) as (v & d' & E'); [lia..|]. congruence.
Qed.

Lemma truncated_of (dec : Dec Z) (w : Z) (n : nat) :
  varintOf dec w n ->
  (forall d e, dec d = Panic e -> e = IndexOutOfRange) ->
  truncated dec n.
Proof.
  intros Hv He d k Hk Hlen Hhigh.
  destruct (dec d) as [[v d']|e] eqn:E; [|f_equal; by eapply He].
  exfalso. destruct (Hv d v d' E) as (xs & Hc & Hn & Hxs & _).
  destruct (lookup_lt_is_Some_2 xs (pred (length xs))) as [y Hy]; [lia|].
  destruct (Hxs _ _ Hy) as (Hat & _ & Hlast).
  pose proof (at_ok _ _ _ Hat) as Hin.
  destruct (Hhigh (pred (length xs))) as (x & Hx & Hge); [lia|].
  rewrite Hat in Hx. injection Hx as ->.
  assert (x < 128) by (apply Hlast; lia). lia.
Qed.

Lemma decUint16_panics d e : decUint16 d = Panic e -> e = IndexOutOfRange.
Proof. unfold decUint16. cbv zeta. panic_reads. Qed.

Lemma decUint32_panics d e : decUint32 d = Panic e -> e = IndexOutOfRange.
Proof. unfold decUint32. cbv zeta. panic_reads. Qed.

Lemma decUint64_panics d e : decUint64 d = Panic e -> e = IndexOutOfRange.
Proof. unfold decUint64. cbv zeta. panic_reads. Qed.

(** X2: a varint decoder never reads outside the buffer: when it returns
    the index has moved forward and is at most the length of the buffer;
    its only panic is an index out of range, and it can only happen when
    fewer than 3, 5 or 9 bytes lie between the index and the length.  An
    encoding that is cut short panics: when fewer than 3, 5 or 9 bytes
    are left and each of them has its high bit set.  The last byte of a
    full-length form is not tested: 80 80 ff decodes with decUint16. *)
Theorem varint_reads_in_bounds :
  (varintSafe decUint16 3 /\ varintSafe decUint32 5 /\ varintSafe decUint64 9) /\
  (truncated decUint16 3 /\ truncated decUint32 5 /\ truncated decUint64 9) /\
  decUint16 (mkDecoder (bytesOf [x80; x80; xff]%byte) 0 0 0)
  = Ok (49152, mkDecoder (bytesOf [x80; x80; xff]%byte) 3 0 0).
Proof.
  split; [split; [|split]|split; [split; [|split]|]].
  - exact (varintSafe_of _ 16 3 decUint16_varintOf decUint16_progress
             decUint16_panics).
  - exact (varintSafe_of _ 32 5 decUint32_varintOf decUint32_progress
             decUint32_panics).
  - exact (varintSafe_of _ 64 9 decUint64_varintOf decUint64_progress
             decUint64_panics).
  - exact (truncated_of _ 16 3 decUint16_varintOf decUint16_panics).
  - exact (truncated_of _ 32 5 decUint32_varintOf decUint32_panics).
  - exact (truncated_of _ 64 9 decUint64_varintOf decUint64_panics).
  - reflexivity.
Qed.

(** Two bytes with their high bits set and nothing after them: decUint64
    panics; so does decUint16 at the last byte of 05 80. *)
Lemma varint_reads_in_bounds_witness :
  decUint64 (mkDecoder (bytesOf [x81; x82]%byte) 0 0 0) = Panic IndexOutOfRange /\
  decUint16 (mkDecoder (bytesOf [x05; x80]%byte) 1 0 0) = Panic IndexOutOfRange.
Proof.
  destruct varint_reads_in_bounds as (_ & (H16 & _ & H64) & _).
  split.
  - apply (H64 (mkDecoder (bytesOf [x81; x82]%byte) 0 0 0) 2%nat); [lia|reflexivity|].
    intros [|[|j]] Hj; [by exists 129|by exists 130|lia].
  - apply (H16 (mkDecoder (bytesOf [x05; x80]%byte) 1 0 0) 1%nat); [lia|reflexivity|].
    intros [|j] Hj; [by exists 128|lia].
Defined.


Lemma dbind_ok {A B} (m : Dec A) (f : A -> Dec B) d b d' :
  dbind m f d = Ok (b, d') ->
  exists a d1, m d = Ok (a, d1) /\ f a d1 = Ok (b, d').
Proof.
  unfold dbind. destruct (m d) as [[a d1]|e]; [eauto|done].
Qed.

Lemma unzigzag_magnitude w u k :
  1 < w -> inU w u -> 0 < k -> u < 2 ^ k ->
  - 2 ^ (k - 1) <= unzigzagAt w u < 2 ^ (k - 1).
Proof.
  intros Hw Hu Hk Hlt. rewrite unzigzagAt_closed by done.
  replace (2 ^ k) with (2 * 2 ^ (k - 1)) in Hlt
    by (rewrite <- Z.pow_succ_r by lia; f_equal; lia).
  unfold inU in Hu. destruct (Z.even u); Z.div_mod_to_equations; lia.
Qed.

(** X3: decInt16, decInt32 and decInt64 return a value of their type, and
    a value read from k bytes, k below the full length of 3, 5 or 9, lies
    in [-2^(7k-1), 2^(7k-1)): one byte carries -64 .. 63. *)
Theorem signed_varint_magnitude (v0 : Z) :
  signedGroups (decInt16 v0) 16 3 /\
  signedGroups (decInt32 v0) 32 5 /\
  signedGroups (decInt64 v0) 64 9.
Proof.
  split; [|split]; intros d v d' H;
    apply dbind_ok in H as (u & d1 & Hu & Hr); injection Hr as <- <-.
  - destruct (decUint16_spec _ _ _ Hu) as (_ & _ & _ & Hrange & Hc).
    split; [apply (zigzag_unzigzag 16 ltac:(lia) u Hrange)|].
    split; [lia|]. intros Hlt.
    change (uint16ToInt16 u) with (unzigzagAt 16 u).
    destruct Hc as [[-> ?]|[[-> ?]|Hc]]; [| |lia];
      apply unzigzag_magnitude; (done || lia).
  - destruct (decUint32_spec _ _ _ Hu) as (_ & _ & _ & Hrange & Hc).
    split; [apply (zigzag_unzigzag 32 ltac:(lia) u Hrange)|].
    split; [lia|]. intros Hlt.
    change (uint32ToInt32 u) with (unzigzagAt 32 u).
    destruct Hc as [[-> ?]|[[-> ?]|[[-> ?]|[[-> ?]|Hc]]]]; [| | | |lia];
      apply unzigzag_magnitude; (done || lia).
  - destruct (decUint64_spec _ _ _ Hu) as (_ & _ & _ & Hrange & Hc).
    split; [apply (zigzag_unzigzag 64 ltac:(lia) u Hrange)|].
    split; [lia|]. intros Hlt.
    change (uint64ToInt64 u) with (unzigzagAt 64 u).
    destruct Hc as [[-> ?]|[[-> ?]|[[-> ?]|[[-> ?]|[[-> ?]|[[-> ?]|[[-> ?]|[[-> ?]|Hc]]]]]]]];
      [| | | | | | | |lia];
      apply unzigzag_magnitude; (done || lia).
Qed.

Lemma signed_varint_magnitude_witness :
  decInt64 0 (mkDecoder (bytesOf [x7f]%byte) 0 0 0)
  = Ok (-64, mkDecoder (bytesOf [x7f]%byte) 1 0 0) /\
  - 2 ^ 6 <= -64 < 2 ^ 6.
Proof.
  split; [reflexivity|].
  destruct (signed_varint_magnitude 0) as (_ & _ & H64).
  destruct (H64 (mkDecoder (bytesOf [x7f]%byte) 0 0 0) (-64)
              (mkDecoder (bytesOf [x7f]%byte) 1 0 0) eq_refl) as (_ & _ & Hm).
  apply Hm. unfold consumed. cbn. lia.
Defined.


(** X4: on a 64-bit platform decInt, decUint and decUintptr are the 64-bit
    decoders; on a 32-bit platform they read the same bytes and return
    the value wrapped to 32 bits, without a panic, which is the value read
    exactly when it fits 32 bits. *)
Theorem platform_width_integers :
  (forall v d, decInt P64 v d = decInt64 v d) /\
  (forall v d, decUint P64 v d = decUint64 d /\ decUintptr P64 v d = decUint64 d) /\
  (forall v d x d', decInt64 v d = Ok (x, d') ->
     decInt P32 v d = Ok (wrapS 32 x, d') /\
     inS 32 (wrapS 32 x) /\ (wrapS 32 x = x <-> inS 32 x)) /\
  (forall v d u d', decUint64 d = Ok (u, d') ->
     decUint P32 v d = Ok (u mod 2 ^ 32, d') /\
     decUintptr P32 v d = Ok (u mod 2 ^ 32, d') /\
     (u mod 2 ^ 32 = u <-> u < 2 ^ 32)).
Proof.
  split; [|split; [|split]].
  - intros v d. unfold decInt, decInt64, dbind, dret.
    destruct (decUint64 d) as [[u d']|e] eqn:E; [|done].
    destruct (decUint64_spec _ _ _ E) as (_ & _ & _ & Hrange & _).
    destruct (zigzag_unzigzag 64 ltac:(lia) u Hrange) as [Hs _].
    change (unzigzagAt 64 u) with (uint64ToInt64 u) in Hs.
    unfold int. change (intBits P64) with 64.
    by rewrite (wrapS_small 64 ltac:(lia)).
  - intros v d. unfold decUint, decUintptr, dbind, dret.
    destruct (decUint64 d) as [[u d']|e] eqn:E; [|done].
    destruct (decUint64_spec _ _ _ E) as (_ & _ & _ & Hrange & _).
    unfold wrapU. change (intBits P64) with 64.
    by rewrite Z.mod_small.
  - intros v d x d' H. split; [|split].
    + unfold decInt, decInt64, dbind, dret in *.
      destruct (decUint64 d) as [[u d1]|e]; [|done].
      by injection H as <- <-.
    + unfold inS, wrapS. pose proof (Z.mod_pos_bound (x + 2 ^ (32 - 1)) (2 ^ 32)).
      lia.
    + split.
      * intros <-. unfold inS, wrapS.
        pose proof (Z.mod_pos_bound (x + 2 ^ (32 - 1)) (2 ^ 32)). lia.
      * apply (wrapS_small 32 ltac:(lia)).
  - intros v d u d' H.
    destruct (decUint64_spec _ _ _ H) as (_ & _ & _ & Hrange & _).
    unfold decUint, decUintptr, dbind, dret. rewrite H.
    split; [done|]. split; [done|]. split.
    + intros <-. apply Z.mod_pos_bound. lia.
    + intros Hlt. apply Z.mod_small. lia.
Qed.

Lemma platform_width_integers_witness :
  decUint64 (mkDecoder (bytesOf [x80; x80; x80; x80; x10]%byte) 0 0 0)
  = Ok (2 ^ 32, mkDecoder (bytesOf [x80; x80; x80; x80; x10]%byte) 5 0 0) /\
  decUint P32 0 (mkDecoder (bytesOf [x80; x80; x80; x80; x10]%byte) 0 0 0)
  = Ok (0, mkDecoder (bytesOf [x80; x80; x80; x80; x10]%byte) 5 0 0).
Proof.
  split; [reflexivity|].
  destruct platform_width_integers as (_ & _ & _ & H).
  destruct (H 0 (mkDecoder (bytesOf [x80; x80; x80; x80; x10]%byte) 0 0 0) (2 ^ 32)
              (mkDecoder (bytesOf [x80; x80; x80; x80; x10]%byte) 5 0 0) eq_refl)
    as (Hu & _).
  exact Hu.
Defined.

Lemma decUint32_keeps d u d1 :
  decUint32 d = Ok (u, d1) ->
  buf d1 = buf d /\ boolPos d1 = boolPos d /\ boolBit d1 = boolBit d /\
  0 <= index d < index d1 /\ 0 <= u < 2 ^ 32.
Proof.
  intros H. destruct (decUint32_spec _ _ _ H) as (Hb & Hp & Hbit & Hu & Hc).
  assert (0 <= index d).
  { unfold decUint32 in H. cbv zeta in H.
    destruct (at_ (buf d) (index d)) eqn:E; [|done]. apply at_ok in E. lia. }
  unfold consumed in Hc. repeat split; try done; lia.
Qed.

Lemma subslice_ok s lo hi :
  0 <= lo -> lo <= hi -> hi <= sl_cap s ->
  subslice s lo hi = Ok (mkSlice (drop (Z.to_nat lo) (sl_arr s)) (hi - lo)).
Proof.
  intros H0 H1 H2. unfold subslice.
  destruct (Z.leb_spec 0 lo), (Z.leb_spec lo hi), (Z.leb_spec hi (sl_cap s));
    (done || lia).
Qed.

Lemma subslice_panic s lo hi :
  lo < 0 \/ hi < lo \/ sl_cap s < hi ->
  subslice s lo hi = Panic SliceBoundsOutOfRange.
Proof.
  intros H. unfold subslice.
  destruct (Z.leb_spec 0 lo), (Z.leb_spec lo hi), (Z.leb_spec hi (sl_cap s));
    (done || lia).
Qed.

(** X5: decString returns the bytes of the backing array that follow the
    length prefix, as many as the prefix says, and moves the index past
    them; the bound it checks is the capacity of the buffer, not its
    length; a length that is negative (32-bit platform, prefix of 2^31 or
    more) or goes past the capacity panics with slice bounds out of
    range, and a panic of the prefix is the panic of decString. *)
Theorem decString_reads_bytes :
  (forall p v d e, decUint32 d = Panic e -> decString p v d = Panic e) /\
  (forall p v d u d1, decUint32 d = Ok (u, d1) ->
     (0 <= int p u -> index d1 + int p u <= sl_cap (buf d) ->
        decString p v d
        = Ok (string_of_list_byte (bytesFrom (buf d) (index d1) (int p u)),
              setIndex d1 (index d1 + int p u))) /\
     (int p u < 0 \/ sl_cap (buf d) < index d1 + int p u ->
        decString p v d = Panic SliceBoundsOutOfRange)) /\
  (forall p v d s d', decString p v d = Ok (s, d') ->
     exists u d1, decUint32 d = Ok (u, d1) /\
       Z.of_nat (String.length s) = int p u /\
       consumed d d' = consumed d d1 + int p u /\
       index d' <= sl_cap (buf d)) /\
  (forall v d u d1, decUint32 d = Ok (u, d1) -> 2 ^ 31 <= u ->
     decString P32 v d = Panic SliceBoundsOutOfRange).
Proof.
  assert (Hpos : forall p v d u d1, decUint32 d = Ok (u, d1) ->
     (0 <= int p u -> index d1 + int p u <= sl_cap (buf d) ->
        decString p v d
        = Ok (string_of_list_byte (bytesFrom (buf d) (index d1) (int p u)),
              setIndex d1 (index d1 + int p u))) /\
     (int p u < 0 \/ sl_cap (buf d) < index d1 + int p u ->
        decString p v d = Panic SliceBoundsOutOfRange)).
  { intros p v d u d1 H.
    destruct (decUint32_keeps _ _ _ H) as (Hb & _ & _ & Hi & Hu).
    unfold decString. rewrite H. cbv beta iota zeta. split.
    - intros Hl Hcap. rewrite subslice_ok; [|lia|lia|rewrite Hb; lia].
      cbn [rbind]. unfold sl_bytes, bytesFrom. cbn [sl_arr sl_len].
      rewrite Hb. by replace (index d1 + int p u - index d1) with (int p u) by lia.
    - intros Hbad. rewrite subslice_panic; [done|]. rewrite Hb. lia. }
  split; [|split; [exact Hpos|split]].
  - intros p v d e H. unfold decString. by rewrite H.
  - intros p v d s d' H.
    destruct (decUint32 d) as [[u d1]|e] eqn:E;
      [|unfold decString in H; by rewrite E in H].
    exists u, d1. split; [done|].
    destruct (decUint32_keeps _ _ _ E) as (Hb & _ & _ & Hi & Hu).
    destruct (Hpos p v d u d1 E) as [Hok Hbad].
    destruct (Z.lt_ge_cases (int p u) 0) as [Hn|Hn];
      [rewrite Hbad in H by lia; done|].
    destruct (Z.lt_ge_cases (sl_cap (buf d)) (index d1 + int p u)) as [Hc|Hc];
      [rewrite Hbad in H by lia; done|].
    rewrite Hok in H by lia. injection H as <- <-.
    rewrite string_of_list_byte_length. unfold bytesFrom, consumed.
    cbn [index setIndex]. rewrite length_take, length_drop.
    unfold sl_cap in Hc. split; [lia|]. split; [lia|]. unfold sl_cap. lia.
  - intros v d u d1 H Hu.
    destruct (decUint32_keeps _ _ _ H) as (_ & _ & _ & _ & Hrange).
    destruct (Hpos P32 v d u d1 H) as [_ Hbad]. apply Hbad. left.
    unfold int, wrapS. change (intBits P32) with 32.
    change (2 ^ (32 - 1)) with 2147483648. change (2 ^ 32) with 4294967296 in *.
    change (2 ^ 31) with 2147483648 in *.
    Z.div_mod_to_equations. lia.
Qed.

(** A buffer of length 1 over an array of 3 bytes: the string is read from
    the capacity. *)
Lemma decString_reads_bytes_witness :
  decString P64 EmptyString (mkDecoder (mkSlice [x02; x68; x69]%byte 1) 0 0 0)
  = Ok ("hi"%string, mkDecoder (mkSlice [x02; x68; x69]%byte 1) 3 0 0).
Proof.
  destruct decString_reads_bytes as (_ & H & _).
  destruct (H P64 EmptyString (mkDecoder (mkSlice [x02; x68; x69]%byte 1) 0 0 0) 2
              (mkDecoder (mkSlice [x02; x68; x69]%byte 1) 1 0 0) eq_refl)
    as [Hok _].
  rewrite Hok; [reflexivity|vm_compute; discriminate|vm_compute; discriminate].
Defined.

Lemma decBool_keeps d b d1 :
  decBool d = Ok (b, d1) ->
  buf d1 = buf d /\ index d <= index d1 <= index d + 1.
Proof.
  unfold decBool. destruct (boolBit d =? 0).
  - destruct (at_ (buf d) (index d)) as [x|]; [|done]. cbn [rbind].
    intros [= <- <-]. cbn [buf index]. split; [done|lia].
  - cbn [rbind]. intros [= <- <-]. cbn [buf index]. split; [done|lia].
Qed.

(** X6: decBytes does not copy: the slice it stores shares the backing
    array of the buffer, starts after the length prefix and has the rest
    of that array as capacity; when the wire says absent it stores nil. *)
Theorem decBytes_aliases_buffer :
  (forall p dst d d1,
     decIsNotNil d = Ok (false, d1) -> decBytes p dst d = Ok (None, d1)) /\
  (forall p dst d d1 u d2,
     decIsNotNil d = Ok (true, d1) -> decUint32 d1 = Ok (u, d2) ->
     (0 <= int p u -> index d2 + int p u <= sl_cap (buf d) ->
        decBytes p dst d
        = Ok (Some (mkSlice (drop (Z.to_nat (index d2)) (sl_arr (buf d))) (int p u)),
              setIndex d2 (index d2 + int p u))) /\
     (int p u < 0 \/ sl_cap (buf d) < index d2 + int p u ->
        decBytes p dst d = Panic SliceBoundsOutOfRange)) /\
  (forall p dst d s d', decBytes p dst d = Ok (Some s, d') ->
     exists i, 0 <= i /\ 0 <= sl_len s /\ index d' = i + sl_len s /\
       sl_arr s = drop (Z.to_nat i) (sl_arr (buf d)) /\
       sl_cap s = sl_cap (buf d) - i /\
       sl_bytes s = bytesFrom (buf d) i (sl_len s)).
Proof.
  assert (Hpos : forall p dst d d1 u d2,
     decIsNotNil d = Ok (true, d1) -> decUint32 d1 = Ok (u, d2) ->
     (0 <= int p u -> index d2 + int p u <= sl_cap (buf d) ->
        decBytes p dst d
        = Ok (Some (mkSlice (drop (Z.to_nat (index d2)) (sl_arr (buf d))) (int p u)),
              setIndex d2 (index d2 + int p u))) /\
     (int p u < 0 \/ sl_cap (buf d) < index d2 + int p u ->
        decBytes p dst d = Panic SliceBoundsOutOfRange)).
  { intros p dst d d1 u d2 Hnn Hu.
    destruct (decBool_keeps _ _ _ Hnn) as (Hb1 & _).
    destruct (decUint32_keeps _ _ _ Hu) as (Hb2 & _ & _ & Hi & _).
    unfold decBytes, dbind. rewrite Hnn, Hu. cbv beta iota zeta. split.
    - intros Hl Hcap.
      rewrite subslice_ok; [|lia|lia|rewrite Hb2, Hb1; lia].
      cbn [rbind]. rewrite Hb2, Hb1.
      by replace (index d2 + int p u - index d2) with (int p u) by lia.
    - intros Hbad. rewrite subslice_panic; [done|]. rewrite Hb2, Hb1. lia. }
  split; [|split; [exact Hpos|]].
  - intros p dst d d1 Hnn. unfold decBytes, dbind. rewrite Hnn.
    by destruct (bool_decide_reflect (dst = None)) as [->|].
  - intros p dst d s d' H.
    destruct (decIsNotNil d) as [[[] d1]|e] eqn:Hnn.
    + destruct (decUint32 d1) as [[u d2]|e] eqn:Hu;
        [|unfold decBytes, dbind in H; by rewrite Hnn, Hu in H].
      destruct (decUint32_keeps _ _ _ Hu) as (Hb2 & _ & _ & Hi & _).
      destruct (decBool_keeps _ _ _ Hnn) as (Hb1 & _).
      destruct (Hpos p dst d d1 u d2 Hnn Hu) as [Hok Hbad].
      destruct (Z.lt_ge_cases (int p u) 0) as [Hn|Hn];
        [rewrite Hbad in H by lia; done|].
      destruct (Z.lt_ge_cases (sl_cap (buf d)) (index d2 + int p u)) as [Hc|Hc];
        [rewrite Hbad in H by lia; done|].
      rewrite Hok in H by lia. injection H as <- <-.
      exists (index d2). cbn [sl_arr sl_len index setIndex].
      repeat split; try done; try lia.
      unfold sl_cap. cbn [sl_arr]. rewrite length_drop.
      unfold sl_cap in Hc. lia.
    + unfold decBytes, dbind in H. rewrite Hnn in H.
      by destruct (bool_decide_reflect (dst = None)) as [->|].
    + unfold decBytes, dbind in H. by rewrite Hnn in H.
Qed.

Lemma decBytes_aliases_buffer_witness :
  decBytes P64 None (mkDecoder (bytesOf [x01; x02; x68; x69; x21]%byte) 0 0 0)
  = Ok (Some (mkSlice [x68; x69; x21]%byte 2),
        mkDecoder (bytesOf [x01; x02; x68; x69; x21]%byte) 4 1 2).
Proof.
  destruct decBytes_aliases_buffer as (_ & H & _).
  destruct (H P64 None (mkDecoder (bytesOf [x01; x02; x68; x69; x21]%byte) 0 0 0)
              (mkDecoder (bytesOf [x01; x02; x68; x69; x21]%byte) 1 1 2) 2
              (mkDecoder (bytesOf [x01; x02; x68; x69; x21]%byte) 2 1 2)
              eq_refl eq_refl) as [Hok _].
  rewrite Hok; [reflexivity|vm_compute; discriminate|vm_compute; discriminate].
Defined.


Lemma at_lookup s i b :
  0 <= i < sl_len s -> sl_arr s !! Z.to_nat i = Some b -> at_ s i = Ok (byteVal b).
Proof.
  intros Hi Hb. unfold at_.
  destruct (Z.leb_spec 0 i), (Z.ltb_spec i (sl_len s)); try lia.
  cbn. by rewrite Hb.
Qed.

Lemma setIndex_same d i : i = index d -> setIndex d i = d.
Proof. intros ->. by destruct d. Qed.

Lemma bytesFrom_S s i (n : nat) b :
  0 <= i -> sl_arr s !! Z.to_nat i = Some b ->
  bytesFrom s i (Z.of_nat (S n)) = b :: bytesFrom s (i + 1) (Z.of_nat n).
Proof.
  intros Hi Hb. unfold bytesFrom.
  rewrite !Nat2Z.id. rewrite (drop_S _ _ _ Hb). cbn [take].
  by replace (Z.to_nat (i + 1)) with (S (Z.to_nat i)) by lia.
Qed.

Lemma byteArray_reads (l : nat) : forall (dst : list Z) d,
  length dst = l -> 0 <= index d ->
  index d + Z.of_nat l <= sl_len (buf d) -> sl_len (buf d) <= sl_cap (buf d) ->
  decArrayEng l decUint8 dst d
  = Ok (byteVal <$> bytesFrom (buf d) (index d) (Z.of_nat l),
        setIndex d (index d + Z.of_nat l)).
Proof.
  unfold decArrayEng.
  induction l as [|l IH]; intros [|v dst] d Hlen Hi Hend Hcap; try done.
  - cbn [replicate runEngines]. unfold dret. f_equal. f_equal.
    symmetry. apply setIndex_same. lia.
  - cbn [replicate runEngines]. unfold dbind at 1.
    destruct (lookup_lt_is_Some_2 (sl_arr (buf d)) (Z.to_nat (index d)))
      as [b Hb]; [unfold sl_cap in Hcap; lia|].
    unfold decUint8 at 1. rewrite (at_lookup _ _ b) by (done || lia).
    cbn [rbind]. unfold dbind.
    rewrite IH; cbn [buf index setIndex]; [|by injection Hlen|lia|lia|done].
    unfold dret. rewrite (bytesFrom_S _ _ l b) by (done || lia).
    cbn [fmap list_fmap]. do 2 f_equal. unfold setIndex. cbn. f_equal. lia.
Qed.

(** X7: the engine of an array has no length on the wire; for an array of
    l bytes, with l bytes left in the buffer, it reads the next l bytes
    as they are and moves the index by l, and for an array of no elements
    it reads nothing. *)
Theorem byte_array_is_raw_copy :
  (forall (l : nat) (dst : list Z) d,
     length dst = l -> 0 <= index d ->
     index d + Z.of_nat l <= sl_len (buf d) -> sl_len (buf d) <= sl_cap (buf d) ->
     decArrayEng l decUint8 dst d
     = Ok (byteVal <$> bytesFrom (buf d) (index d) (Z.of_nat l),
           setIndex d (index d + Z.of_nat l))) /\
  (forall (V : Type) (eng : decEng V) (dst : list V) d,
     decArrayEng 0 eng dst d = Ok (dst, d)).
Proof.
  split; [exact byteArray_reads|].
  intros V eng dst d. unfold decArrayEng. cbn. by destruct dst.
Qed.

Lemma byte_array_is_raw_copy_witness :
  decArrayEng 3 decUint8 [0; 0; 0] (mkDecoder (bytesOf [x80; xff; x01; x07]%byte) 0 0 0)
  = Ok ([128; 255; 1], mkDecoder (bytesOf [x80; xff; x01; x07]%byte) 3 0 0).
Proof.
  destruct byte_array_is_raw_copy as [H _].
  rewrite (H 3%nat); [reflexivity|reflexivity|vm_compute; discriminate
                     |vm_compute; discriminate|vm_compute; discriminate].
Defined.

Section MapEngine.
Context {V : Type} {K : Type}.
Variable keyEq : K -> K -> bool.
Variable zero : V.
Variable zeroK : K.
Variables (kEng : decEng K) (vEng : decEng V).

Lemma mapLoop_pairs n : forall (v : list (K * V)) d,
  mapLoop zero keyEq zeroK kEng vEng n zeroK zero v d
  = match decPairs zeroK zero kEng vEng n d with
    | Ok (kvs, d') => Ok (insertAll keyEq v kvs, d')
    | Panic e => Panic e
    end.
Proof.
  induction n as [|n IH]; intros v d; cbn [mapLoop decPairs]; [done|].
  unfold dbind.
  destruct (kEng zeroK d) as [[key d1]|]; [|done].
  destruct (vEng zero d1) as [[val d2]|]; [|done].
  rewrite IH. by destruct (decPairs _ _ _ _ n d2) as [[kvs d3]|].
Qed.

Lemma decPairs_length n : forall d kvs d',
  decPairs zeroK zero kEng vEng n d = Ok (kvs, d') -> length kvs = n.
Proof.
  induction n as [|n IH]; intros d kvs d'; cbn [decPairs].
  - by intros [= <- <-].
  - unfold dbind.
    destruct (kEng zeroK d) as [[key d1]|]; [|done].
    destruct (vEng zero d1) as [[val d2]|]; [|done].
    destruct (decPairs _ _ _ _ n d2) as [[rest d3]|] eqn:E; [|done].
    intros [= <- <-]. cbn. f_equal. by eapply IH.
Qed.

Lemma insertAll_cons (v : list (K * V)) k x kvs :
  insertAll keyEq v ((k, x) :: kvs) = insertAll keyEq (SetMapIndex keyEq k x v) kvs.
Proof. done. Qed.

Lemma insertAll_length kvs : forall (v : list (K * V)),
  (length v <= length (insertAll keyEq v kvs) <= length v + length kvs)%nat.
Proof.
  induction kvs as [|[k x] kvs IH]; intros v; [cbn; lia|].
  rewrite insertAll_cons. specialize (IH (SetMapIndex keyEq k x v)).
  pose proof (SetMapIndex_length keyEq k x v). cbn [length]. lia.
Qed.

(** An entry with an equal key is found, whichever one it is. *)
Lemma MapIndex_elem key (v : list (K * V)) k x :
  (k, x) ∈ v -> keyEq k key = true -> is_Some (MapIndex keyEq key v).
Proof.
  induction v as [|[k0 x0] v IH]; intros Hin Hk; [by apply elem_of_nil in Hin|].
  cbn [MapIndex]. destruct (keyEq k0 key) eqn:E; [eauto|].
  apply elem_of_cons in Hin as [[= -> ->]|Hin]; [congruence|]. by apply IH.
Qed.

Lemma SetMapIndex_elem key val (v : list (K * V)) :
  (key, val) ∈ SetMapIndex keyEq key val v.
Proof.
  induction v as [|[k0 x0] v IH]; cbn [SetMapIndex]; [apply list_elem_of_here|].
  destruct (keyEq k0 key); [apply list_elem_of_here|by apply list_elem_of_further].
Qed.

Lemma MapIndex_SetMapIndex_eq key val (v : list (K * V)) :
  keyEq key key = true ->
  MapIndex keyEq key (SetMapIndex keyEq key val v) = Some val.
Proof.
  intros Hr. induction v as [|[k0 x0] v IH]; cbn [SetMapIndex MapIndex].
  - by rewrite Hr.
  - destruct (keyEq k0 key) eqn:E; cbn [MapIndex]; [by rewrite Hr|by rewrite E].
Qed.

Section Equality.
Hypothesis keyEq_sym : forall a b, keyEq a b = true -> keyEq b a = true.
Hypothesis keyEq_trans :
  forall a b c, keyEq a b = true -> keyEq b c = true -> keyEq a c = true.

Lemma keyEq_other a b c :
  keyEq a b = true -> keyEq b c = false -> keyEq a c = false.
Proof.
  intros Hab Hbc. destruct (keyEq a c) eqn:E; [|done].
  rewrite <- Hbc. symmetry. eapply keyEq_trans; [|exact E]. by apply keyEq_sym.
Qed.

Lemma MapIndex_SetMapIndex_ne key key' val (v : list (K * V)) :
  keyEq key' key = false ->
  MapIndex keyEq key (SetMapIndex keyEq key' val v) = MapIndex keyEq key v.
Proof.
  intros Hne. induction v as [|[k0 x0] v IH]; cbn [SetMapIndex MapIndex].
  - by rewrite Hne.
  - destruct (keyEq k0 key') eqn:E; cbn [MapIndex].
    + rewrite Hne. by rewrite (keyEq_other k0 key' key E Hne).
    + by rewrite IH.
Qed.

Lemma MapIndex_SetMapIndex_some key key' val (v : list (K * V)) :
  is_Some (MapIndex keyEq key v) ->
  is_Some (MapIndex keyEq key (SetMapIndex keyEq key' val v)).
Proof.
  intros Hs. destruct (keyEq key' key) eqn:E.
  - eapply MapIndex_elem; [apply SetMapIndex_elem|exact E].
  - by rewrite MapIndex_SetMapIndex_ne.
Qed.

(** A key that is not equal to itself is never found, and is added each
    time it is stored. *)
Lemma MapIndex_irreflexive key (v : list (K * V)) :
  keyEq key key = false -> MapIndex keyEq key v = None.
Proof.
  intros Hn. induction v as [|[k0 x0] v IH]; [done|]. cbn [MapIndex].
  destruct (keyEq k0 key) eqn:E; [|done].
  assert (keyEq key key = true) by (eapply keyEq_trans; [by apply keyEq_sym|exact E]).
  congruence.
Qed.

Lemma SetMapIndex_irreflexive key val (v : list (K * V)) :
  keyEq key key = false -> SetMapIndex keyEq key val v = v ++ [(key, val)].
Proof.
  intros Hn. induction v as [|[k0 x0] v IH]; [done|]. cbn [SetMapIndex].
  destruct (keyEq k0 key) eqn:E; [|by rewrite IH].
  assert (keyEq key key = true) by (eapply keyEq_trans; [by apply keyEq_sym|exact E]).
  congruence.
Qed.

Lemma insertAll_lookup kvs : forall (v : list (K * V)) key,
  (forall k, k ∈ kvs.*1 -> keyEq k key = false) ->
  MapIndex keyEq key (insertAll keyEq v kvs) = MapIndex keyEq key v.
Proof.
  induction kvs as [|[k0 x0] kvs IH]; intros v key Hk; [done|].
  rewrite insertAll_cons, IH.
  - apply MapIndex_SetMapIndex_ne. apply Hk. cbn. apply list_elem_of_here.
  - intros k Hin. apply Hk. cbn. by apply list_elem_of_further.
Qed.

Lemma insertAll_some kvs : forall (v : list (K * V)) key,
  is_Some (MapIndex keyEq key v) ->
  is_Some (MapIndex keyEq key (insertAll keyEq v kvs)).
Proof.
  induction kvs as [|[k0 x0] kvs IH]; intros v key Hs; [done|].
  rewrite insertAll_cons. apply IH. by apply MapIndex_SetMapIndex_some.
Qed.

Lemma insertAll_last kvs : forall (v : list (K * V)) k x,
  last kvs = Some (k, x) -> keyEq k k = true ->
  MapIndex keyEq k (insertAll keyEq v kvs) = Some x.
Proof.
  induction kvs as [|[k0 x0] kvs IH]; intros v k x Hl Hr; [done|].
  rewrite insertAll_cons.
  destruct kvs as [|kv kvs].
  - injection Hl as -> ->. cbn. by apply MapIndex_SetMapIndex_eq.
  - apply IH; [exact Hl|exact Hr].
Qed.
End Equality.
End MapEngine.




Section SliceElements.
Context {V : Type}.
Variable eng : decEng V.

Lemma sliceLoop_elements blk off n : forall (o : nat) i m d arr,
  m !! blk = Some arr -> 0 <= off + i -> Z.to_nat (off + i) = o ->
  (o + n <= length arr)%nat ->
  sliceLoop eng (addr blk off) n i m d
  = match runEngines (replicate n eng) (take n (drop o arr)) d with
    | Ok (vs, d') => Ok (<[blk := take o arr ++ vs ++ drop (o + n) arr]> m, d')
    | Panic e => Panic e
    end.
Proof.
  induction n as [|n IH]; intros o i m d arr Hm Hi Ho Hlen.
  - cbn [sliceLoop replicate take runEngines]. unfold dret.
    rewrite Nat.add_0_r, take_0. cbn [app]. rewrite take_drop.
    by rewrite insert_id.
  - cbn [sliceLoop replicate]. unfold dbind at 1. unfold engineAt.
    rewrite Hm. destruct (Z.leb_spec 0 (off + i)); [|lia]. rewrite Ho.
    destruct (lookup_lt_is_Some_2 arr o) as [v Hv]; [lia|].
    rewrite Hv. rewrite (drop_S _ _ _ Hv). cbn [take runEngines].
    unfold dbind, dret.
    destruct (eng v d) as [[v' d1]|]; [|done].
    rewrite (IH (S o) (i + 1) _ d1 (<[o := v']> arr));
      [|by rewrite lookup_insert_eq|lia|lia|rewrite length_insert; lia].
    rewrite drop_insert_lt by lia.
    destruct (runEngines _ _ d1) as [[vs d2]|]; [|done].
    rewrite insert_insert_eq. do 2 f_equal.
    rewrite take_S_r with (x := v') by (apply list_lookup_insert_eq; lia).
    rewrite take_insert_ge by lia.
    rewrite drop_insert_lt by lia.
    rewrite <- app_assoc. cbn [app].
    by replace (o + S n)%nat with (S o + n)%nat by lia.
Qed.
End SliceElements.

(** X9: the slice engine decodes its elements as the array engine does: in
    a destination it reuses, into the first count slots from the data
    pointer on, each over the element that was there, leaving every other
    slot of the array as it was; in a new array, each over a zero
    value. *)
Theorem slice_decode_elements {V : Type} (p : platform) (zero : V)
    (eng : decEng V) header m d header' m' d' d1 l d2 :
  decSliceEng p zero eng (header, m) d = Ok ((header', m'), d') ->
  decIsNotNil d = Ok (true, d1) -> decLength p d1 = Ok (l, d2) ->
  (forall blk off arr,
     data header = addr blk off -> m !! blk = Some arr ->
     0 <= off -> l <= cap header -> off + cap header <= Z.of_nat (length arr) ->
     exists vs,
       decArrayEng (Z.to_nat l) eng
         (take (Z.to_nat l) (drop (Z.to_nat off) arr)) d2 = Ok (vs, d') /\
       m' = <[blk := take (Z.to_nat off) arr ++ vs
                     ++ drop (Z.to_nat off + Z.to_nat l) arr]> m) /\
  (data header = nilPtr \/ cap header < l ->
     exists vs,
       decArrayEng (Z.to_nat l) eng (replicate (Z.to_nat l) zero) d2 = Ok (vs, d') /\
       m' = <[fresh (dom m) := vs]> m).
Proof.
  intros H Hnn Hl.
  destruct (decSliceEng_inv p zero eng _ _ _ _ _ _ H) as (nn & d1' & Hnn' & Hrest).
  rewrite Hnn in Hnn'. injection Hnn' as <- <-.
  destruct Hrest as (l' & d2' & Hl' & Hrest).
  rewrite Hl in Hl'. injection Hl' as <- <-.
  unfold isNil in Hrest. unfold decArrayEng. split.
  - intros blk off arr Hdata Hm Hoff Hcap Harr.
    rewrite bool_decide_eq_false_2 in Hrest by (rewrite Hdata; done).
    destruct (Z.ltb_spec (cap header) l); [lia|].
    cbn [orb] in Hrest. destruct Hrest as (-> & Hloop).
    destruct (decLength_bound _ _ _ _ Hl) as (_ & _ & _).
    rewrite Hdata in Hloop.
    assert (0 <= l \/ l < 0) as [Hl0|Hl0] by lia.
    + rewrite (sliceLoop_elements eng blk off _ (Z.to_nat off) 0 m d2 arr) in Hloop;
        [|done|lia|f_equal; lia|lia].
      destruct (runEngines _ _ d2) as [[vs d3]|]; [|done].
      injection Hloop as <- <-. by exists vs.
    + replace (Z.to_nat l) with 0%nat in * by lia.
      cbn [sliceLoop] in Hloop. injection Hloop as <- <-.
      exists []. cbn [replicate take runEngines]. split; [done|].
      rewrite Nat.add_0_r. cbn [app]. rewrite take_drop. by rewrite insert_id.
  - intros Hnew.
    assert (Hc : bool_decide (data header = nilPtr) || (cap header <? l) = true).
    { destruct Hnew as [Hn|Hn].
      - by rewrite bool_decide_eq_true_2.
      - destruct (Z.ltb_spec (cap header) l); [|lia]. apply orb_true_r. }
    rewrite Hc in Hrest. destruct Hrest as (Hl0 & -> & Hloop).
    rewrite (sliceLoop_elements eng (fresh (dom m)) 0 _ 0%nat 0 _ d2
               (replicate (Z.to_nat l) zero)) in Hloop;
      [|by rewrite lookup_insert_eq|lia|done|rewrite length_replicate; lia].
    rewrite drop_0, take_replicate, Nat.min_id in Hloop.
    destruct (runEngines _ _ d2) as [[vs d3]|] eqn:Er; [|done].
    injection Hloop as <- <-. exists vs. split; [done|].
    rewrite insert_insert_eq. cbn [take app]. f_equal.
    rewrite drop_ge; [by rewrite app_nil_r|].
    rewrite length_replicate. lia.
Qed.

(** A destination of length 1 and capacity 4 over [7; 8; 9; 10] that takes
    two elements keeps 9 and 10 behind them. *)
Lemma slice_decode_elements_witness :
  exists vs,
    decArrayEng 2 decUint8 [7; 8]
      (mkDecoder (bytesOf [x01; x02; x05; x06]%byte) 2 1 2)
    = Ok (vs, mkDecoder (bytesOf [x01; x02; x05; x06]%byte) 4 1 2) /\
    ({[ 1%positive := [5; 6; 9; 10] ]} : gmap positive (list Z))
    = <[1%positive := [] ++ vs ++ [9; 10]]> {[ 1%positive := [7; 8; 9; 10] ]}.
Proof.
  assert (Hrun :
    decSliceEng P64 0 decUint8
      (mkHeader (addr 1 0) 1 4, {[ 1%positive := [7; 8; 9; 10] ]})
      (mkDecoder (bytesOf [x01; x02; x05; x06]%byte) 0 0 0)
    = Ok ((mkHeader (addr 1 0) 2 4, {[ 1%positive := [5; 6; 9; 10] ]}),
          mkDecoder (bytesOf [x01; x02; x05; x06]%byte) 4 1 2))
    by (vm_compute; reflexivity).
  destruct (slice_decode_elements P64 0 decUint8 _ _ _ _ _ _
              (mkDecoder (bytesOf [x01; x02; x05; x06]%byte) 1 1 2) 2
              (mkDecoder (bytesOf [x01; x02; x05; x06]%byte) 2 1 2)
              Hrun eq_refl eq_refl) as [Hreuse _].
  destruct (Hreuse 1%positive 0 [7; 8; 9; 10] eq_refl eq_refl)
    as (vs & Hvs & Hm); [lia|cbn; lia|cbn; lia|].
  exists vs. split; [exact Hvs|exact Hm].
Defined.





Lemma fieldType_nested ignore Offset ft other sub baseOff :
  fieldType (StructFieldOf ignore Offset ft other sub) baseOff
  = if ignore then ([], [])
    else if other then ([ft], [Offset + baseOff])
    else getFieldType sub (Offset + baseOff).
Proof.
  cbn [fieldType]. destruct ignore; [done|]. destruct other; [done|].
  induction sub as [|g sub IH]; [done|].
  cbn [getFieldType]. by rewrite IH.
Qed.

Lemma structField_nested_ind (P : structField -> Prop) :
  (forall ignore Offset ft, P (FieldOf ignore Offset ft)) ->
  (forall ignore Offset ft other fields,
     Forall P fields -> P (StructFieldOf ignore Offset ft other fields)) ->
  forall f, P f.
Proof.
  intros HField HStruct. fix IH 1.
  intros [ignore Offset ft|ignore Offset ft other fields].
  - apply HField.
  - apply HStruct. revert fields. fix IHf 1.
    intros [|g fields]; constructor; [apply IH|apply IHf].
Qed.

Lemma getFieldType_flattened fields :
  Forall flattened fields ->
  forall baseOff,
    length (fst (getFieldType fields baseOff))
    = length (snd (getFieldType fields baseOff)) /\
    fst (getFieldType fields baseOff) = fst (getFieldType fields 0) /\
    snd (getFieldType fields baseOff)
    = (fun o => o + baseOff) <$> snd (getFieldType fields 0).
Proof.
  induction 1 as [|f fields Hf _ IH]; intros baseOff; [done|].
  cbn [getFieldType].
  destruct (Hf baseOff) as (Hl & Ht & Ho). destruct (IH baseOff) as (Hl' & Ht' & Ho').
  destruct (fieldType f baseOff) as [a b], (getFieldType fields baseOff) as [a' b'],
           (fieldType f 0) as [a0 b0], (getFieldType fields 0) as [a0' b0'].
  cbn [fst snd] in *. subst.
  rewrite !length_app, fmap_app. by rewrite Hl, Hl'.
Qed.

Lemma fieldType_flattened f : flattened f.
Proof.
  induction f as [ignore Offset ft|ignore Offset ft other sub IH]
    using structField_nested_ind; intros baseOff.
  - cbn [fieldType]. destruct ignore; [done|]. cbn. repeat split. f_equal. lia.
  - rewrite !fieldType_nested. destruct ignore; [done|].
    destruct other; [cbn; repeat split; f_equal; lia|].
    destruct (getFieldType_flattened sub IH (Offset + baseOff)) as (Hl & Ht & Ho).
    destruct (getFieldType_flattened sub IH (Offset + 0)) as (Hl0 & Ht0 & Ho0).
    split; [done|]. split; [by rewrite Ht, Ht0|].
    rewrite Ho, Ho0. rewrite <- list_fmap_compose.
    apply list_fmap_ext. intros _ o _. cbn. lia.
Qed.

(** X11: getFieldType returns one offset for each type; the types do not
    depend on the base offset and the offsets are those at base 0 moved
    by it; a field of struct type is dropped when ignored, kept whole
    when its type has a serializer of its own and replaced by its own
    flattened fields, at its offset, otherwise. *)
Theorem struct_fields_flattened (fields : list structField) (baseOff : Z) :
  length (fst (getFieldType fields baseOff))
  = length (snd (getFieldType fields baseOff)) /\
  fst (getFieldType fields baseOff) = fst (getFieldType fields 0) /\
  snd (getFieldType fields baseOff)
  = (fun o => o + baseOff) <$> snd (getFieldType fields 0) /\
  (forall ignore Offset ft other sub rest,
     getFieldType (StructFieldOf ignore Offset ft other sub :: rest) baseOff
     = if ignore then getFieldType rest baseOff
       else if other then
         (ft :: fst (getFieldType rest baseOff),
          (Offset + baseOff) :: snd (getFieldType rest baseOff))
       else
         (fst (getFieldType sub (Offset + baseOff)) ++ fst (getFieldType rest baseOff),
          snd (getFieldType sub (Offset + baseOff)) ++ snd (getFieldType rest baseOff))).
Proof.
  assert (Hall : Forall flattened fields)
    by (apply Forall_forall; intros f _; apply fieldType_flattened).
  destruct (getFieldType_flattened fields Hall baseOff) as (Hl & Ht & Ho).
  split; [exact Hl|]. split; [exact Ht|]. split; [exact Ho|].
  intros ignore Offset ft other sub rest.
  change (getFieldType (?f :: ?r) ?b)
    with (let '(fFields, fOffs) := fieldType f b in
          let '(fields, offs) := getFieldType r b in
          (fFields ++ fields, fOffs ++ offs)).
  rewrite fieldType_nested.
  destruct ignore; [by destruct (getFieldType rest baseOff)|].
  destruct other; [by destruct (getFieldType rest baseOff)|].
  by destruct (getFieldType sub _), (getFieldType rest baseOff).
Qed.

Lemma struct_fields_flattened_witness :
  getFieldType
    [FieldOf false 0 1%positive;
     StructFieldOf false 8 2%positive false
       [FieldOf true 0 3%positive; FieldOf false 4 4%positive];
     StructFieldOf false 16 5%positive true [FieldOf false 0 6%positive]] 100
  = ([1%positive; 4%positive; 5%positive], [100; 112; 116]).
Proof.
  destruct (struct_fields_flattened
    [FieldOf false 0 1%positive;
     StructFieldOf false 8 2%positive false
       [FieldOf true 0 3%positive; FieldOf false 4 4%positive];
     StructFieldOf false 16 5%positive true [FieldOf false 0 6%positive]] 100)
    as (_ & Ht & Ho & _).
  apply injective_projections; [rewrite Ht|rewrite Ho]; reflexivity.
Defined.


Section Cache.
Variable types : gmap positive rtypeInfo.

Lemma keeps_refl c : keeps c c.
Proof. by split. Qed.

Lemma keeps_trans c1 c2 c3 : keeps c1 c2 -> keeps c2 c3 -> keeps c1 c3.
Proof.
  intros (? & ? & ?) (? & ? & ?). split; [by etrans|]. split; congruence.
Qed.

Lemma thenDeferred_inv r call c' e :
  thenDeferred r call = Some (c', e) ->
  exists c1 e1 e2, r = Some (c1, e1) /\ call c1 = Some (c', e2) /\
    e = match e2 with Some x => Some x | None => e1 end.
Proof.
  unfold thenDeferred. destruct r as [[c1 e1]|]; [|done].
  destruct (call c1) as [[c2 [e2|]]|] eqn:Ec; [| |done]; intros [= <- <-].
  - by exists c1, e1, (Some e2).
  - by exists c1, e1, None.
Qed.

Lemma store_keeps rt slot eng c :
  rt2decEng c !! rt = None -> slot <> Top -> keeps c (store rt slot eng c).
Proof.
  intros Hc Hs. split; [by apply store_subseteq|].
  split; [|done]. cbn. by apply lookup_insert_ne.
Qed.

Ltac not_composite Hin :=
  repeat (apply elem_of_cons in Hin as [?|Hin]; [done|]);
  by apply elem_of_nil in Hin.

Lemma buildEngine_keeps fuel : forall rt slot c c' e,
  buildEngine types fuel rt slot c = Some (c', e) ->
  rt2decEng c ⊆ rt2decEng c' /\
  (slot <> Top -> vars c' !! Top = vars c !! Top) /\
  (rt2decEng c !! rt = None -> hasOtherSerializer (typeOf types rt) = false ->
   Kind (typeOf types rt) ∈
     [reflect.Ptr; reflect.Array; reflect.Slice; reflect.Map; reflect.Struct;
      reflect.Interface] ->
   rt2decEng c' !! rt = Some (EClosure rt)) /\
  (slot = Top -> e = None ->
   exists eng, rt2decEng c' !! rt = Some eng /\ vars c' !! Top = Some eng) /\
  locked c' = locked c.
Proof.
  induction fuel as [|fuel IH]; intros rt slot c c' e; [done|].
  cbn [buildEngine].
  destruct (rt2decEng c !! rt) as [eng|] eqn:Hc.
  { intros [= <- <-]. cbn. split; [done|]. split; [|split; [done|split; [|done]]].
    - intros Hs. by apply lookup_insert_ne.
    - intros -> _. exists eng. split; [done|]. apply lookup_insert_eq. }
  destruct (types !! rt) as [known|] eqn:Hin.
  2:{ intros [= <- <-]. split; [done|]. split; [done|]. split; [|by split].
      intros _ _ Hk. unfold typeOf in Hk. rewrite Hin in Hk. cbn in Hk.
      not_composite Hk. }
  destruct (hasOtherSerializer (typeOf types rt)) eqn:Hother.
  { intros [= <- <-]. split; [by apply store_subseteq|].
    split; [|split; [done|split; [|done]]].
    - intros Hs. cbn. by apply lookup_insert_ne.
    - intros -> _. exists (EOther rt). cbn. by rewrite !lookup_insert_eq. }
  set (registered := store rt slot (EClosure rt) c).
  assert (Hsub : rt2decEng c ⊆ rt2decEng registered) by by apply store_subseteq.
  assert (Hreg : rt2decEng registered !! rt = Some (EClosure rt))
    by (cbn; apply lookup_insert_eq).
  assert (HTop : slot <> Top -> vars registered !! Top = vars c !! Top)
    by (intros Hs; cbn; by apply lookup_insert_ne).
  assert (HTop' : slot = Top -> vars registered !! Top = Some (EClosure rt))
    by (intros ->; cbn; apply lookup_insert_eq).
  assert (Hsub_call : forall t i c1 c2 e2,
            buildEngine types fuel t (Captured rt i) c1 = Some (c2, e2) ->
            keeps c1 c2).
  { intros t i c1 c2 e2 Hb. destruct (IH _ _ _ _ _ Hb) as (? & HT & _ & _ & ?).
    split; [done|]. split; [by apply HT|done]. }
  assert (Hdone : forall c2 K, keeps registered c2 ->
            rt2decEng c ⊆ rt2decEng c2 /\
            (slot <> Top -> vars c2 !! Top = vars c !! Top) /\
            (None = None (A := engine) -> false = false -> K ->
             rt2decEng c2 !! rt = Some (EClosure rt)) /\
            (slot = Top -> e = None ->
             exists eng, rt2decEng c2 !! rt = Some eng /\ vars c2 !! Top = Some eng) /\
            locked c2 = locked c).
  { intros c2 K (Hk1 & Hk2 & Hk3). split; [by etrans|]. split; [|split; [|split]].
    - intros Hs. rewrite Hk2. by apply HTop.
    - intros _ _ _. by eapply lookup_weaken.
    - intros Hs _. exists (EClosure rt). split; [by eapply lookup_weaken|].
      rewrite Hk2. by apply HTop'.
    - by rewrite Hk3. }
  assert (Hone : forall t i r,
            thenDeferred (Some (registered, None))
              (buildEngine types fuel t (Captured rt i)) = Some r ->
            keeps registered (fst r)).
  { intros t i [c2 e2] Hd.
    apply thenDeferred_inv in Hd as (c1 & e1 & e3 & [= <- <-] & Hb & _).
    by eapply Hsub_call. }
  destruct (Kind (typeOf types rt)) eqn:Hkind;
    try (intros [= <- <-]; split; [done|]; split; [done|]; split;
         [intros _ _ Hk; not_composite Hk|split; [by intros _ [=]|done]]);
    try (intros [= <- <-]; split; [by apply store_subseteq|]; split;
         [intros Hs; cbn; by apply lookup_insert_ne|]; split;
         [intros _ _ Hk; not_composite Hk|]; split; [|done];
         intros -> _; eexists; cbn; by rewrite !lookup_insert_eq).
  - intros Hd. apply Hdone. exact (Hone _ _ _ Hd).
  - intros Hd. apply Hdone.
    apply thenDeferred_inv in Hd as (c1 & e1 & e3 & Hd & Hb & _).
    apply Hsub_call in Hb. eapply keeps_trans; [|exact Hb].
    exact (Hone _ _ _ Hd).
  - intros Hd. apply Hdone. exact (Hone _ _ _ Hd).
  - intros Hd. apply Hdone. exact (Hone _ _ _ Hd).
  - destruct (getFieldType (Fields (typeOf types rt)) 0) as [fields offs].
    intros Hd. apply Hdone.
    apply thenDeferred_inv in Hd as (c1 & e1 & e3 & [= <- <-] & Hb & _).
    revert Hb. generalize 0%nat. generalize registered.
    induction fields as [|f fields IHf]; intros c1 i.
    + intros [= <- <-]. apply keeps_refl.
    + destruct (buildEngine types fuel f (Captured rt i) c1)
        as [[c2 [e2|]]|] eqn:Eb; [| |done].
      * intros [= <- <-]. by eapply Hsub_call.
      * intros Hl. eapply keeps_trans; [by eapply Hsub_call|by eapply IHf].
Qed.
End Cache.

Section Locking.
Variable types : gmap positive rtypeInfo.

Lemma getDecEngine_blocked fuel rt c :
  locked c = true -> getDecEngine types fuel rt c = None.
Proof. intros Hl. unfold getDecEngine. by rewrite Hl. Qed.

Lemma getDecEngine_inv fuel rt c c' e :
  getDecEngine types fuel rt c = Some (c', e) ->
  locked c = false /\
  match rt2decEng c !! rt with
  | Some eng =>
      e = None /\ c' = mkCompiler (rt2decEng c) (<[Top := eng]> (vars c)) false
  | None =>
      exists c1,
        buildEngine types fuel rt Top (mkCompiler (rt2decEng c) (vars c) true)
        = Some (c1, e) /\
        locked c1 = true /\
        c' = match e with
             | None => mkCompiler (rt2decEng c1) (vars c1) false
             | Some _ => c1
             end
  end.
Proof.
  unfold getDecEngine, buildDecEngine. destruct (locked c) eqn:Hl; [done|].
  intros H. split; [done|].
  destruct (rt2decEng c !! rt) as [eng|]; [by injection H as <- <-|].
  destruct (buildEngine _ _ _ _ _) as [[c1 [e1|]]|] eqn:Eb; [| |done];
    injection H as <- <-; exists c1; (split; [done|]);
    (split; [|done]);
    by destruct (buildEngine_keeps types _ _ _ _ _ _ Eb) as (_ & _ & _ & _ & ->).
Qed.

Lemma getDecEngine_keeps fuel rt c c' e :
  getDecEngine types fuel rt c = Some (c', e) ->
  rt2decEng c ⊆ rt2decEng c' /\
  locked c = false /\
  locked c' = match e with None => false | Some _ => true end.
Proof.
  intros H. destruct (getDecEngine_inv _ _ _ _ _ H) as [Hl Hc].
  destruct (rt2decEng c !! rt) as [eng|].
  - by destruct Hc as [-> ->].
  - destruct Hc as (c1 & Hb & Hl1 & ->).
    destruct (buildEngine_keeps types _ _ _ _ _ _ Hb) as (Hsub & _).
    by destruct e.
Qed.

Lemma getDecEngine_returns fuel rt c :
  locked c = false -> (size (pending types c) < fuel)%nat ->
  exists c' e, getDecEngine types fuel rt c = Some (c', e).
Proof.
  intros Hl Hsize. unfold getDecEngine, buildDecEngine. rewrite Hl.
  destruct (rt2decEng c !! rt) as [eng|]; [by eauto|].
  destruct (buildEngine_returns types fuel rt Top
              (mkCompiler (rt2decEng c) (vars c) true) Hsize)
    as (c1 & e & -> & _).
  destruct e; eauto.
Qed.

Lemma getDecEngine_cached_engine fuel rt c c' :
  getDecEngine types fuel rt c = Some (c', None) ->
  exists eng,
    rt2decEng c' !! rt = Some eng /\ vars c' !! Top = Some eng /\
    rt2decEng c ⊆ rt2decEng c' /\
    forall fuel', getDecEngine types fuel' rt c' = Some (c', None).
Proof.
  intros H.
  destruct (getDecEngine_keeps _ _ _ _ _ H) as (Hsub & Hl & Hl').
  assert (Hg : exists eng, rt2decEng c' !! rt = Some eng /\
                 vars c' !! Top = Some eng).
  { destruct (getDecEngine_inv _ _ _ _ _ H) as [_ Hc].
    destruct (rt2decEng c !! rt) as [eng|] eqn:Hrt.
    - destruct Hc as [_ ->]. exists eng. cbn. split; [done|]. apply lookup_insert_eq.
    - destruct Hc as (c1 & Hb & _ & ->).
      destruct (buildEngine_keeps types _ _ _ _ _ _ Hb) as (_ & _ & _ & Heng & _).
      exact (Heng eq_refl eq_refl). }
  destruct Hg as (eng & Hin & Htop). exists eng.
  split; [done|]. split; [done|]. split; [done|].
  intros fuel'. unfold getDecEngine. rewrite Hl', Hin.
  destruct c' as [cache vs lk]. cbn in *. subst lk.
  by rewrite insert_id.
Qed.
End Locking.

(** X12: buildDecEngine stores the engine of a pointer, array, slice, map
    or struct type in the cache before the deferred builds of its
    components run: when one of them panics the engine stays in the
    cache, and a later buildDecEngine of the type returns it at once.
    getDecEngine has no deferred Unlock: a call that ends in a panic was
    building, it leaves decLock held, and from then on no getDecEngine
    returns, for any type, cached or not. *)
Theorem failed_build_stays_cached (types : gmap positive rtypeInfo) :
  (forall fuel rt slot c c' e,
     rt2decEng c !! rt = None ->
     hasOtherSerializer (typeOf types rt) = false ->
     Kind (typeOf types rt) ∈
       [reflect.Ptr; reflect.Array; reflect.Slice; reflect.Map; reflect.Struct] ->
     buildDecEngine types fuel rt slot c = Some (c', Some e) ->
     rt2decEng c' !! rt = Some (EClosure rt) /\
     rt2decEng c ⊆ rt2decEng c' /\
     locked c' = locked c /\
     forall fuel' slot',
       buildDecEngine types (S fuel') rt slot' c'
       = Some (mkCompiler (rt2decEng c') (<[slot' := EClosure rt]> (vars c'))
                 (locked c'), None)) /\
  (forall fuel rt c c' e,
     getDecEngine types fuel rt c = Some (c', Some e) ->
     locked c = false /\ locked c' = true /\
     rt2decEng c !! rt = None /\
     rt2decEng c ⊆ rt2decEng c' /\
     (hasOtherSerializer (typeOf types rt) = false ->
      Kind (typeOf types rt) ∈
        [reflect.Ptr; reflect.Array; reflect.Slice; reflect.Map; reflect.Struct] ->
      rt2decEng c' !! rt = Some (EClosure rt)) /\
     forall fuel' rt', getDecEngine types fuel' rt' c' = None) /\
  (forall fuel rt c, locked c = true -> getDecEngine types fuel rt c = None).
Proof.
  assert (Hbuild : forall fuel rt slot c c' e,
     rt2decEng c !! rt = None ->
     hasOtherSerializer (typeOf types rt) = false ->
     Kind (typeOf types rt) ∈
       [reflect.Ptr; reflect.Array; reflect.Slice; reflect.Map; reflect.Struct] ->
     buildEngine types fuel rt slot c = Some (c', e) ->
     rt2decEng c' !! rt = Some (EClosure rt)).
  { intros fuel rt slot c c' e Hc Hother Hkind Hb.
    destruct (buildEngine_keeps types _ _ _ _ _ _ Hb) as (_ & _ & Hreg & _).
    apply Hreg; [done|done|]. set_solver. }
  split; [|split].
  - intros fuel rt slot c c' e Hc Hother Hkind Hb.
    destruct (buildEngine_keeps types _ _ _ _ _ _ Hb) as (Hsub & _ & _ & _ & Hl).
    pose proof (Hbuild _ _ _ _ _ _ Hc Hother Hkind Hb) as Hin.
    split; [done|]. split; [done|]. split; [done|].
    intros fuel' slot'. by apply buildEngine_cached.
  - intros fuel rt c c' e H.
    destruct (getDecEngine_keeps types _ _ _ _ _ H) as (Hsub & Hl & Hl').
    destruct (getDecEngine_inv types _ _ _ _ _ H) as [_ Hc].
    destruct (rt2decEng c !! rt) as [eng|] eqn:Hrt; [by destruct Hc|].
    destruct Hc as (c1 & Hb & _ & ->).
    split; [done|]. split; [done|]. split; [done|]. split; [done|]. split.
    + intros Hother Hkind.
      exact (Hbuild fuel rt Top (mkCompiler (rt2decEng c) (vars c) true) c1
               (Some e) Hrt Hother Hkind Hb).
    + intros fuel' rt'. by apply getDecEngine_blocked.
  - intros fuel rt c. apply getDecEngine_blocked.
Qed.

(** [*chan int]: the build of the pointer type panics on the channel
    type; the engine of the pointer type stays in the cache, the lock
    stays held, and the next getDecEngine does not return. *)
Lemma failed_build_stays_cached_witness :
  getDecEngine chanTypes 2 1%positive (mkCompiler ∅ ∅ false)
  = Some (mkCompiler {[ 1%positive := EClosure 1 ]} {[ Top := EClosure 1 ]} true,
          Some (PanicMsg "not support chan int type")) /\
  getDecEngine chanTypes 2 1%positive
    (mkCompiler {[ 1%positive := EClosure 1 ]} {[ Top := EClosure 1 ]} true)
  = None.
Proof.
  assert (Hrun :
    getDecEngine chanTypes 2 1%positive (mkCompiler ∅ ∅ false)
    = Some (mkCompiler {[ 1%positive := EClosure 1 ]} {[ Top := EClosure 1 ]} true,
            Some (PanicMsg "not support chan int type")))
    by (vm_compute; reflexivity).
  split; [exact Hrun|].
  destruct (failed_build_stays_cached chanTypes) as (_ & Hget & _).
  destruct (Hget _ _ _ _ _ Hrun) as (_ & _ & _ & _ & _ & Hblocked).
  apply Hblocked.
Defined.

(** X13: when getDecEngine (getEncEngine) returns without a panic, the
    engine it returns is the one the cache holds for the type, engines
    cached before are kept, and a second call returns the same engine and
    leaves the state as it is. *)
Theorem getDecEngine_caches (types : gmap positive rtypeInfo) :
  (forall fuel rt c c',
     getDecEngine types fuel rt c = Some (c', None) ->
     exists eng,
       rt2decEng c' !! rt = Some eng /\ vars c' !! Top = Some eng /\
       rt2decEng c ⊆ rt2decEng c' /\
       forall fuel', getDecEngine types fuel' rt c' = Some (c', None)) /\
  (forall fuel rt c c',
     getEncEngine types fuel rt c = Some (c', None) ->
     exists eng,
       rt2decEng c' !! rt = Some eng /\ vars c' !! Top = Some eng /\
       rt2decEng c ⊆ rt2decEng c' /\
       forall fuel', getEncEngine types fuel' rt c' = Some (c', None)).
Proof.
  split.
  - exact (getDecEngine_cached_engine types).
  - exact (getDecEngine_cached_engine types).
Qed.

Lemma getDecEngine_caches_witness :
  exists eng,
    rt2decEng (mkCompiler
                 {[ 1%positive := EClosure 1; 2%positive := EClosure 2 ]}
                 {[ Top := EClosure 1;
                    Captured 1 0 := EClosure 2;
                    Captured 2 0 := EClosure 1 ]} false) !! 1%positive = Some eng /\
    eng = EClosure 1.
Proof.
  assert (Hrun :
    getDecEngine nodeTypes 3 1%positive (mkCompiler ∅ ∅ false)
    = Some (mkCompiler
              {[ 1%positive := EClosure 1; 2%positive := EClosure 2 ]}
              {[ Top := EClosure 1;
                 Captured 1 0 := EClosure 2;
                 Captured 2 0 := EClosure 1 ]} false,
            None)) by (vm_compute; reflexivity).
  destruct (getDecEngine_caches nodeTypes) as [Hdec _].
  destruct (Hdec _ _ _ _ Hrun) as (eng & Hin & Htop & _).
  exists eng. split; [exact Hin|].
  vm_compute in Htop. by injection Htop as <-.
Defined.

Section ConstructorProps.
Variable types : gmap positive rtypeInfo.

Lemma getDecEngines_keeps fuel ts : forall c c' r,
  getDecEngines types fuel ts c = Some (c', r) -> rt2decEng c ⊆ rt2decEng c'.
Proof.
  induction ts as [|rt ts IH]; intros c c' r; cbn [getDecEngines].
  - by intros [= <- <-].
  - destruct (getDecEngine types fuel rt c) as [[c1 [e|]]|] eqn:Eg; [| |done].
    + intros [= <- <-]. by eapply getDecEngine_keeps.
    + destruct (getDecEngines types fuel ts c1) as [[c2 [es|e]]|] eqn:Er; [| |done];
        intros [= <- <-]; (etrans; [by eapply getDecEngine_keeps|by eapply IH]).
Qed.

Lemma getDecEngines_unlocked fuel ts : forall c c' engines,
  getDecEngines types fuel ts c = Some (c', Ok engines) ->
  locked c' = locked c.
Proof.
  induction ts as [|rt ts IH]; intros c c' engines; cbn [getDecEngines].
  - by intros [= <- <-].
  - destruct (getDecEngine types fuel rt c) as [[c1 [e|]]|] eqn:Eg; [done| |done].
    destruct (getDecEngines types fuel ts c1) as [[c2 [es|e]]|] eqn:Er; [|done|done].
    intros [= <- <-].
    destruct (getDecEngine_keeps types _ _ _ _ _ Eg) as (_ & Hl & Hl').
    rewrite (IH _ _ _ Er). congruence.
Qed.

Lemma getDecEngines_cached fuel ts : forall c,
  ts = [] \/ locked c = false ->
  Forall (fun rt => is_Some (rt2decEng c !! rt)) ts ->
  exists c', getDecEngines types fuel ts c = Some (c', Ok ((fun rt => rt2decEng c !! rt) <$> ts))
    /\ rt2decEng c' = rt2decEng c.
Proof.
  induction ts as [|rt ts IH]; intros c Hl Hall; cbn [getDecEngines].
  - by exists c.
  - destruct Hl as [|Hl]; [done|].
    apply Forall_cons in Hall as [[eng Hrt] Hall].
    unfold getDecEngine at 1. rewrite Hl, Hrt.
    destruct (IH (mkCompiler (rt2decEng c) (<[Top := eng]> (vars c)) false)
                (or_intror eq_refl) Hall)
      as (c' & -> & Hc').
    exists c'. split; [|done]. cbn. by rewrite lookup_insert_eq, Hrt.
Qed.

Lemma getDecEngines_engines fuel ts : forall c c' engines,
  getDecEngines types fuel ts c = Some (c', Ok engines) ->
  engines = (fun rt => rt2decEng c' !! rt) <$> ts /\
  Forall (fun rt => is_Some (rt2decEng c' !! rt)) ts /\
  (ts = [] \/ locked c' = false).
Proof.
  induction ts as [|rt ts IH]; intros c c' engines; cbn [getDecEngines].
  - intros [= <- <-]. split; [done|]. split; [done|by left].
  - destruct (getDecEngine types fuel rt c) as [[c1 [e|]]|] eqn:Eg; [done| |done].
    destruct (getDecEngines types fuel ts c1) as [[c2 [es|e]]|] eqn:Er; [|done|done].
    intros [= <- <-].
    destruct (getDecEngine_cached_engine types _ _ _ _ Eg) as (eng & Hin & Htop & _).
    destruct (getDecEngine_keeps types _ _ _ _ _ Eg) as (_ & _ & Hl1).
    destruct (IH _ _ _ Er) as (-> & Hall & _).
    pose proof (getDecEngines_keeps _ _ _ _ _ Er) as Hsub.
    pose proof (getDecEngines_unlocked _ _ _ _ _ Er) as Hl2.
    pose proof (lookup_weaken _ _ _ _ Hin Hsub) as Hin2.
    split; [|split].
    + cbn. by rewrite Htop, Hin2.
    + constructor; [by eexists|done].
    + right. congruence.
Qed.

Lemma getDecEngines_returns fuel ts : forall c,
  locked c = false -> (size (pending types c) < fuel)%nat ->
  exists c' r, getDecEngines types fuel ts c = Some (c', r).
Proof.
  induction ts as [|rt ts IH]; intros c Hl Hsize; cbn [getDecEngines]; [by eauto|].
  destruct (getDecEngine_returns types fuel rt c Hl Hsize) as (c1 & e & Eg).
  rewrite Eg. destruct (getDecEngine_keeps types _ _ _ _ _ Eg) as (Hsub & _ & Hl1).
  destruct e as [e|]; [by eauto|].
  destruct (IH c1 Hl1) as (c2 & r & ->).
  { pose proof (pending_mono types _ _ Hsub). lia. }
  destruct r; eauto.
Qed.

Lemma NewDecoderWithPtr_returns fuel ps : forall c,
  locked c = false -> (size (pending types c) < fuel)%nat ->
  exists c' r, NewDecoderWithPtr types fuel ps c = Some (c', r).
Proof.
  induction ps as [|rt ps IH]; intros c Hl Hsize; cbn [NewDecoderWithPtr];
    [by eauto|].
  destruct (negb (bool_decide (is_Some (types !! rt)))); [by eauto|].
  destruct (negb (bool_decide (Kind (typeOf types rt) = reflect.Ptr))); [by eauto|].
  destruct (getDecEngine_returns types fuel (Elem (typeOf types rt)) c Hl Hsize)
    as (c1 & e & Eg).
  rewrite Eg. destruct (getDecEngine_keeps types _ _ _ _ _ Eg) as (Hsub & _ & Hl1).
  destruct e as [e|]; [by eauto|].
  destruct (IH c1 Hl1) as (c2 & r & ->).
  { pose proof (pending_mono types _ _ Hsub). lia. }
  destruct r; eauto.
Qed.

Lemma pointer_known rt :
  Kind (typeOf types rt) = reflect.Ptr -> is_Some (types !! rt).
Proof. intros Hk. apply typeOf_known. by rewrite Hk. Qed.
End ConstructorProps.

(** X14: with more fuel than there are types without an engine, and
    decLock free, the constructors run to their end.  When
    NewDecoderWithType returns, it returns one engine for each type, none
    of them nil, each the engine the cache holds for the type afterwards;
    a second construction from the state it leaves returns the same
    engines and adds nothing to the cache.  NewDecoderWithPtr on pointer
    types is NewDecoderWithType on the types pointed to; at the first
    argument that is not a pointer it panics, with a nil dereference for
    an untyped nil and with its message otherwise, after the engines of
    the arguments before it have been built and cached. *)
Theorem decoder_constructors (types : gmap positive rtypeInfo) :
  (forall fuel ts c,
     locked c = false -> (size (pending types c) < fuel)%nat ->
     (exists c' r, NewDecoderWithType types fuel ts c = Some (c', r)) /\
     (exists c' r, NewDecoder types fuel ts c = Some (c', r)) /\
     (exists c' r, NewDecoderWithPtr types fuel ts c = Some (c', r))) /\
  (forall fuel ts c c' engines,
     NewDecoderWithType types fuel ts c = Some (c', Ok engines) ->
     length engines = length ts /\
     rt2decEng c ⊆ rt2decEng c' /\
     engines = (fun rt => rt2decEng c' !! rt) <$> ts /\
     Forall is_Some engines /\
     forall fuel', exists c'',
       NewDecoderWithType types fuel' ts c' = Some (c'', Ok engines) /\
       rt2decEng c'' = rt2decEng c') /\
  (forall fuel ps c,
     Forall (fun rt => Kind (typeOf types rt) = reflect.Ptr) ps ->
     NewDecoderWithPtr types fuel ps c
     = NewDecoderWithType types fuel ((fun rt => Elem (typeOf types rt)) <$> ps) c) /\
  (forall fuel ps rt rest c,
     Forall (fun rt => Kind (typeOf types rt) = reflect.Ptr) ps ->
     Kind (typeOf types rt) <> reflect.Ptr ->
     NewDecoderWithPtr types fuel (ps ++ rt :: rest) c
     = match NewDecoderWithPtr types fuel ps c with
       | Some (c1, Ok _) =>
           Some (c1,
                 Panic (if bool_decide (is_Some (types !! rt))
                        then PanicMsg "the argument must be a pointer type!"
                        else NilDereference))
       | r => r
       end).
Proof.
  split; [|split; [|split]].
  - intros fuel ts c Hl Hsize.
    split; [by apply getDecEngines_returns|].
    split; [by apply getDecEngines_returns|by apply NewDecoderWithPtr_returns].
  - intros fuel ts c c' engines Hn. unfold NewDecoderWithType in *.
    destruct (getDecEngines_engines types _ _ _ _ _ Hn) as (-> & Hall & Hl).
    split; [by rewrite length_fmap|].
    split; [by eapply getDecEngines_keeps|]. split; [done|]. split.
    + apply Forall_fmap. exact Hall.
    + intros fuel'. exact (getDecEngines_cached types fuel' ts c' Hl Hall).
  - intros fuel ps. unfold NewDecoderWithType.
    induction ps as [|rt ps IH]; intros c Hall; [done|].
    apply Forall_cons in Hall as [Hrt Hall].
    cbn [NewDecoderWithPtr getDecEngines fmap list_fmap].
    rewrite (bool_decide_eq_true_2 (is_Some _)) by by apply pointer_known.
    rewrite bool_decide_eq_true_2 by done. cbn [negb].
    destruct (getDecEngine types fuel _ c) as [[c1 [e|]]|]; [done| |done].
    by rewrite IH.
  - intros fuel ps rt rest.
    induction ps as [|p ps IH]; intros c Hall Hrt.
    + cbn [app NewDecoderWithPtr].
      destruct (bool_decide (is_Some (types !! rt))); cbn [negb]; [|done].
      by rewrite bool_decide_eq_false_2.
    + apply Forall_cons in Hall as [Hp Hall].
      cbn [app NewDecoderWithPtr].
      rewrite (bool_decide_eq_true_2 (is_Some _)) by by apply pointer_known.
      rewrite bool_decide_eq_true_2 by done.
      cbn [negb].
      destruct (getDecEngine types fuel _ c) as [[c1 [e|]]|]; [done| |done].
      rewrite IH by done.
      by destruct (NewDecoderWithPtr types fuel ps c1) as [[c2 [es|e]]|].
Qed.

(** Unmarshal into a [*Node] and a [Node]: the engine of Node is built for
    the first argument, and the second one panics; with an untyped nil
    in its place the panic is a nil dereference. *)
Lemma decoder_constructors_witness :
  NewDecoderWithPtr nodeTypes 3 [2%positive; 1%positive] (mkCompiler ∅ ∅ false)
  = Some (mkCompiler
            {[ 1%positive := EClosure 1; 2%positive := EClosure 2 ]}
            {[ Top := EClosure 1;
               Captured 1 0 := EClosure 2;
               Captured 2 0 := EClosure 1 ]} false,
          Panic (PanicMsg "the argument must be a pointer type!")) /\
  NewDecoderWithPtr nodeTypes 3 [2%positive; 7%positive] (mkCompiler ∅ ∅ false)
  = Some (mkCompiler
            {[ 1%positive := EClosure 1; 2%positive := EClosure 2 ]}
            {[ Top := EClosure 1;
               Captured 1 0 := EClosure 2;
               Captured 2 0 := EClosure 1 ]} false,
          Panic NilDereference) /\
  exists c' r,
    NewDecoderWithType nodeTypes 3 [2%positive; 1%positive] (mkCompiler ∅ ∅ false)
    = Some (c', r).
Proof.
  destruct (decoder_constructors nodeTypes) as (Hret & _ & _ & H).
  split; [|split].
  - rewrite (H 3%nat [2%positive] 1%positive [] (mkCompiler ∅ ∅ false)).
    + vm_compute. reflexivity.
    + repeat constructor.
    + vm_compute. discriminate.
  - rewrite (H 3%nat [2%positive] 7%positive [] (mkCompiler ∅ ∅ false)).
    + vm_compute. reflexivity.
    + repeat constructor.
    + vm_compute. discriminate.
  - apply (Hret 3%nat [2%positive; 1%positive] (mkCompiler ∅ ∅ false)).
    + reflexivity.
    + vm_compute. lia.
Defined.


Lemma runEngines_length {V} (engines : list (decEng V)) : forall (is_ : list V) d vs d',
  runEngines engines is_ d = Ok (vs, d') ->
  length vs = length is_ /\
  drop (length engines) vs = drop (length engines) is_.
Proof.
  induction engines as [|eng engines IH]; intros [|v is_] d vs d';
    cbn [runEngines]; try (by intros [= <- <-]).
  unfold dbind.
  destruct (eng v d) as [[v' d1]|]; [|done].
  destruct (runEngines engines is_ d1) as [[vs' d2]|] eqn:E; [|done].
  intros [= <- <-]. destruct (IH _ _ _ _ E) as [Hl Hd].
  cbn. by rewrite Hl.
Qed.

(** X15: decode runs engine i on destination i for as long as there is
    both: destinations beyond the engines come back unchanged, engines
    beyond the destinations do not run; Unmarshal returns the index the
    last engine left, and decode leaves the decoder at index 0 with no
    pending booleans. *)
Theorem decode_pairs_engines_with_destinations {V : Type}
    (engines : list (decEng V)) :
  (forall (is_ : list V) d vs d',
     runEngines engines is_ d = Ok (vs, d') ->
     length vs = length is_ /\
     drop (length engines) vs = drop (length engines) is_) /\
  (forall (is_ : list V) d,
     runEngines engines is_ d
     = match runEngines (take (length is_) engines) (take (length engines) is_) d with
       | Ok (vs, d') => Ok (vs ++ drop (length engines) is_, d')
       | Panic e => Panic e
       end) /\
  (forall buffer (is_ : list V),
     Unmarshal engines buffer is_
     = match runEngines engines is_ (mkDecoder buffer 0 0 0) with
       | Ok (vs, d') => Ok (index d', vs)
       | Panic e => Panic e
       end) /\
  (forall d0 buffer (is_ : list V),
     decode engines d0 buffer is_
     = match runEngines engines is_
               (mkDecoder buffer (index d0) (boolPos d0) (boolBit d0)) with
       | Ok (vs, d') => Ok (index d', vs, mkDecoder (buf d') 0 0 0)
       | Panic e => Panic e
       end).
Proof.
  split; [apply runEngines_length|]. split; [|split].
  - induction engines as [|eng engs IH]; intros [|v is_] d; cbn; try done.
    unfold dbind. destruct (eng v d) as [[v' d1]|]; [|done].
    rewrite IH.
    by destruct (runEngines (take _ engs) (take _ is_) d1) as [[vs d2]|].
  - intros buffer is_. unfold Unmarshal, decode, newDecoder. cbn [index boolPos boolBit].
    by destruct (runEngines engines is_ _) as [[vs d']|].
  - intros d0 buffer is_. unfold decode.
    by destruct (runEngines engines is_ _) as [[vs d']|].
Qed.

Lemma decode_pairs_engines_with_destinations_witness :
  Unmarshal [decUint8; decUint8] (bytesOf [x07; x08; x09]%byte) [0; 0; 5]
  = Ok (2, [7; 8; 5]).
Proof.
  destruct (decode_pairs_engines_with_destinations [decUint8; decUint8])
    as (_ & _ & H & _).
  rewrite H. reflexivity.
Defined.


Section RegistryUse.
Context {T : Type} `{Countable T}.
Variable valid : T -> bool.
Variable nameOf : T -> string.

Lemma registerType_ok rt (r : registry (T := T)) n r' :
  registerType valid nameOf rt r = Ok (n, r') ->
  n = nameOf rt /\ RegisterName valid nameOf n rt r = Ok r'.
Proof.
  unfold registerType.
  destruct (RegisterName valid nameOf (nameOf rt) rt r) as [r1|] eqn:E; [|done].
  cbn. by intros [= <- <-].
Qed.

Lemma RegisterName_lookup name rt (r r' : registry (T := T)) :
  RegisterName valid nameOf name rt r = Ok r' ->
  type2name r' !! rt = Some name /\ name2type r' !! name = Some rt.
Proof.
  intros Hr. destruct (RegisterName_ok _ _ _ _ _ _ Hr) as (_ & _ & _ & _ & -> & ->).
  by rewrite !lookup_insert_eq.
Qed.
End RegistryUse.

(** X16: after RegisterName both tables hold the pair and getNameOfType
    returns the registered name; getNameOfType of a type returns the same
    name when called again and changes nothing then; Register of a type
    that is registered panics. *)
Theorem registered_names_are_found {T : Type} `{Countable T}
    (valid : T -> bool) (nameOf : T -> string) :
  (forall name rt (r r' : registry (T := T)),
     RegisterName valid nameOf name rt r = Ok r' ->
     type2name r' !! rt = Some name /\ name2type r' !! name = Some rt /\
     getNameOfType valid nameOf rt r' = Ok (name, r')) /\
  (forall rt (r : registry (T := T)) n r',
     getNameOfType valid nameOf rt r = Ok (n, r') ->
     type2name r' !! rt = Some n /\ name2type r ⊆ name2type r' /\
     (type2name r !! rt = None -> n = nameOf rt /\ name2type r' !! n = Some rt) /\
     getNameOfType valid nameOf rt r' = Ok (n, r')) /\
  (forall rt (r : registry (T := T)) n r',
     Register valid nameOf rt r = Ok (n, r') ->
     n = nameOf rt /\
     Register valid nameOf rt r'
     = Panic (PanicMsg ("gotiny: registering duplicate types for " +:+ nameOf rt))).
Proof.
  assert (Hfound : forall name rt (r r' : registry (T := T)),
     RegisterName valid nameOf name rt r = Ok r' ->
     type2name r' !! rt = Some name /\ name2type r' !! name = Some rt /\
     getNameOfType valid nameOf rt r' = Ok (name, r')).
  { intros name rt r r' Hr.
    destruct (RegisterName_lookup _ _ _ _ _ _ Hr) as [Ht Hn].
    split; [done|]. split; [done|]. unfold getNameOfType. by rewrite Ht. }
  split; [exact Hfound|]. split.
  - intros rt r n r'. unfold getNameOfType.
    destruct (type2name r !! rt) as [name|] eqn:Ht.
    + intros [= <- <-]. split; [done|]. split; [done|]. split; [done|].
      by rewrite Ht.
    + intros Hr. apply registerType_ok in Hr as [-> Hr].
      destruct (Hfound _ _ _ _ Hr) as (Ht' & Hn' & Hg).
      split; [done|]. split.
      * destruct (RegisterName_ok _ _ _ _ _ _ Hr) as (_ & _ & _ & Hfresh & _ & ->).
        by apply insert_subseteq.
      * split; [done|]. exact Hg.
  - intros rt r n r'. unfold Register. intros Hr.
    apply registerType_ok in Hr as [-> Hr]. split; [done|].
    destruct (RegisterName_ok _ _ _ _ _ _ Hr) as (Hne & Hv & _).
    destruct (RegisterName_lookup _ _ _ _ _ _ Hr) as [Ht _].
    unfold registerType, RegisterName.
    rewrite bool_decide_eq_false_2 by done. rewrite Hv. cbn [negb]. by rewrite Ht.
Qed.


Lemma registered_names_are_found_witness :
  getNameOfType (fun _ : positive => true) (fun _ => "main.T"%string) 1%positive
    (mkRegistry {[ 1%positive := "T"%string ]} {[ "T"%string := 1%positive ]})
  = Ok ("T"%string,
        mkRegistry {[ 1%positive := "T"%string ]} {[ "T"%string := 1%positive ]}).
Proof.
  destruct (registered_names_are_found (fun _ : positive => true)
              (fun _ => "main.T"%string)) as (Hreg & _).
  assert (Hrun :
    RegisterName (fun _ : positive => true) (fun _ => "main.T"%string)
      "T" 1%positive emptyRegistry
    = Ok (mkRegistry {[ 1%positive := "T"%string ]} {[ "T"%string := 1%positive ]}))
    by (vm_compute; reflexivity).
  by destruct (Hreg _ _ _ _ Hrun) as (_ & _ & Hg).
Defined.

(** X17: RegisterName checks, in this order, the empty name, the nil or
    invalid type, the type already registered and the name already
    registered, each with its own panic.  Two distinct types with one
    name cannot both be registered: registering the second, or naming it
    with getNameOfType, panics. *)
Theorem registration_panics_in_order {T : Type} `{Countable T}
    (valid : T -> bool) (nameOf : T -> string) :
  (forall rt (r : registry (T := T)),
     RegisterName valid nameOf "" rt r
     = Panic (PanicMsg "attempt to register empty name")) /\
  (forall name rt (r : registry (T := T)),
     name <> ""%string -> valid rt = false ->
     RegisterName valid nameOf name rt r
     = Panic (PanicMsg "attempt to register nil type or invalid type")) /\
  (forall name rt (r : registry (T := T)),
     name <> ""%string -> valid rt = true -> is_Some (type2name r !! rt) ->
     RegisterName valid nameOf name rt r
     = Panic (PanicMsg ("gotiny: registering duplicate types for " +:+ nameOf rt))) /\
  (forall name rt (r : registry (T := T)),
     name <> ""%string -> valid rt = true -> type2name r !! rt = None ->
     is_Some (name2type r !! name) ->
     RegisterName valid nameOf name rt r
     = Panic (PanicMsg ("gotiny: registering name" +:+ name +:+ " is exist"))) /\
  (forall t1 t2 (r : registry (T := T)) n r',
     registerType valid nameOf t1 r = Ok (n, r') ->
     nameOf t2 = nameOf t1 -> t2 <> t1 -> valid t2 = true ->
     type2name r !! t2 = None ->
     registerType valid nameOf t2 r'
     = Panic (PanicMsg ("gotiny: registering name" +:+ n +:+ " is exist")) /\
     getNameOfType valid nameOf t2 r'
     = Panic (PanicMsg ("gotiny: registering name" +:+ n +:+ " is exist"))).
Proof.
  split; [|split; [|split; [|split]]].
  - intros rt r. unfold RegisterName. by rewrite bool_decide_eq_true_2.
  - intros name rt r Hne Hv. unfold RegisterName.
    rewrite bool_decide_eq_false_2 by done. by rewrite Hv.
  - intros name rt r Hne Hv [n Ht]. unfold RegisterName.
    rewrite bool_decide_eq_false_2 by done. by rewrite Hv, Ht.
  - intros name rt r Hne Hv Ht [t Hn]. unfold RegisterName.
    rewrite bool_decide_eq_false_2 by done. by rewrite Hv, Ht, Hn.
  - intros t1 t2 r n r' Hr Hname Hdiff Hv Ht2.
    apply registerType_ok in Hr as [-> Hr].
    destruct (RegisterName_ok _ _ _ _ _ _ Hr) as (Hne & _ & _ & _ & Ht' & Hn').
    assert (Hreg : registerType valid nameOf t2 r'
                   = Panic (PanicMsg ("gotiny: registering name" +:+ nameOf t1
                                      +:+ " is exist"))).
    { unfold registerType, RegisterName. rewrite Hname.
      rewrite bool_decide_eq_false_2 by done. rewrite Hv. cbn [negb].
      rewrite Ht', Hn'. rewrite lookup_insert_ne by done. rewrite Ht2.
      by rewrite lookup_insert_eq. }
    split; [done|]. unfold getNameOfType.
    rewrite Ht'. rewrite lookup_insert_ne by done. by rewrite Ht2.
Qed.

Lemma registration_panics_in_order_witness :
  registerType (fun _ : positive => true) (fun _ => "struct { A int }"%string)
    2%positive
    (mkRegistry {[ 1%positive := "struct { A int }"%string ]}
                {[ "struct { A int }"%string := 1%positive ]})
  = Panic (PanicMsg "gotiny: registering namestruct { A int } is exist").
Proof.
  destruct (registration_panics_in_order (fun _ : positive => true)
              (fun _ => "struct { A int }"%string)) as (_ & _ & _ & _ & Hcoll).
  assert (Hrun :
    registerType (fun _ : positive => true) (fun _ => "struct { A int }"%string)
      1%positive emptyRegistry
    = Ok ("struct { A int }"%string,
          mkRegistry {[ 1%positive := "struct { A int }"%string ]}
                     {[ "struct { A int }"%string := 1%positive ]}))
    by (vm_compute; reflexivity).
  destruct (Hcoll 1%positive 2%positive _ _ _ Hrun eq_refl) as [Hreg _];
    [done|done|by vm_compute|].
  exact Hreg.
Defined.

Local Open Scope string_scope.

(** X18: the name of a well-named shape is never empty, so registerType
    accepts a valid type of such a shape when the type and the name are
    new; the name of an unnamed channel type is empty, so registering one
    panics. *)
Theorem names_that_can_be_registered :
  (forall a, wellNamed a = true -> GetNameByType a <> "") /\
  (forall dir elem, GetNameByType (RChan dir elem) = "") /\
  (forall (T : Type) `(Countable T) (valid : T -> bool) (shape : T -> rtype)
          (rt : T) (r : registry (T := T)) dir elem,
     shape rt = RChan dir elem ->
     registerType valid (fun t => GetNameByType (shape t)) rt r
     = Panic (PanicMsg "attempt to register empty name") /\
     (type2name r !! rt = None ->
      getNameOfType valid (fun t => GetNameByType (shape t)) rt r
      = Panic (PanicMsg "attempt to register empty name"))) /\
  (forall (T : Type) `(Countable T) (valid : T -> bool) (shape : T -> rtype)
          (rt : T) (r : registry (T := T)),
     wellNamed (shape rt) = true -> valid rt = true ->
     type2name r !! rt = None ->
     name2type r !! GetNameByType (shape rt) = None ->
     exists r',
       registerType valid (fun t => GetNameByType (shape t)) rt r
       = Ok (GetNameByType (shape rt), r') /\
       name2type r' !! GetNameByType (shape rt) = Some rt).
Proof.
  assert (Hne : forall a, wellNamed a = true -> GetNameByType a <> "").
  { intros a Ha Heq. pose proof (wellNamed_start a "" Ha) as Hs.
    by rewrite Heq in Hs. }
  split; [exact Hne|]. split; [done|]. split.
  - intros T ? ? valid shape rt r dir elem Hshape.
    assert (Hreg : registerType valid (fun t => GetNameByType (shape t)) rt r
                   = Panic (PanicMsg "attempt to register empty name")).
    { unfold registerType, RegisterName. rewrite Hshape.
      change (GetNameByType (RChan dir elem)) with "".
      by rewrite bool_decide_eq_true_2. }
    split; [done|]. intros Ht. unfold getNameOfType. by rewrite Ht.
  - intros T ? ? valid shape rt r Hw Hv Ht Hn.
    eexists. unfold registerType.
    rewrite (RegisterName_fresh valid _ _ rt r (Hne _ Hw) Hv Ht Hn).
    cbn. split; [done|]. apply lookup_insert_eq.
Qed.

Lemma names_that_can_be_registered_witness :
  GetNameByType (RMap (RNamed "" "string" 0) (RSlice (RPtr (RNamed "main" "T" 0))))
  <> "".
Proof.
  destruct names_that_can_be_registered as (Hne & _).
  apply Hne. reflexivity.
Defined.

Local Close Scope string_scope.





(** X20: UnusedUnixNanoEncodeTimeType removes the engine of time.Time from
    both caches and nothing else: the engine variables already set, and so
    the closures built before, keep the engine they had, and the locks
    are not touched; other cached types are found as before; the next
    getDecEngine of time.Time builds the engine of its serializer (a
    getDecEngine that finds decLock held does not return); a second call
    changes nothing. *)
Theorem unused_time_engine_affects_later_builds
    (types : gmap positive rtypeInfo) (timeType : positive) (enc dec : compiler) :
  let dec' := snd (UnusedUnixNanoEncodeTimeType timeType enc dec) in
  let enc' := fst (UnusedUnixNanoEncodeTimeType timeType enc dec) in
  (rt2decEng dec' !! timeType = None /\ rt2decEng enc' !! timeType = None) /\
  (vars dec' = vars dec /\ vars enc' = vars enc /\
   locked dec' = locked dec /\ locked enc' = locked enc) /\
  (forall rt eng fuel, rt <> timeType -> rt2decEng dec !! rt = Some eng ->
     getDecEngine types fuel rt dec'
     = if locked dec then None
       else Some (mkCompiler (rt2decEng dec') (<[Top := eng]> (vars dec)) false,
                  None)) /\
  (forall fuel, hasOtherSerializer (typeOf types timeType) = true ->
     getDecEngine types (S fuel) timeType dec'
     = if locked dec then None
       else Some (store timeType Top (EOther timeType) dec', None)) /\
  UnusedUnixNanoEncodeTimeType timeType enc' dec' = (enc', dec').
Proof.
  cbn [UnusedUnixNanoEncodeTimeType fst snd rt2decEng vars locked].
  split; [by rewrite !lookup_delete_eq|]. split; [done|]. split; [|split].
  - intros rt eng fuel Hne Hin. unfold getDecEngine. cbn [rt2decEng vars locked].
    destruct (locked dec) eqn:Hl; [done|].
    rewrite lookup_delete_ne by done. by rewrite Hin.
  - intros fuel Hother. unfold getDecEngine, buildDecEngine.
    cbn [rt2decEng vars locked buildEngine].
    destruct (locked dec) eqn:Hl; [done|].
    rewrite lookup_delete_eq.
    destruct (types !! timeType) as [known|] eqn:Hin.
    + rewrite Hother. unfold store. cbn [rt2decEng vars locked]. reflexivity.
    + unfold typeOf in Hother. by rewrite Hin in Hother.
  - unfold UnusedUnixNanoEncodeTimeType. cbn [rt2decEng vars locked].
    by rewrite !delete_delete_eq.
Qed.

(** The decoder has decTime in its cache and in the engine variable of a
    closure; after the call, with a time.Time that has a serializer,
    getDecEngine builds the engine of the serializer and the closure
    keeps decTime. *)
Lemma unused_time_engine_affects_later_builds_witness :
  getDecEngine
    {[ 1%positive := mkType reflect.Struct "time.Time" true 1 1 0 [] ]} 1 1%positive
    (mkCompiler ∅ {[ Captured 2 0 := EFixed "decTime" ]} false)
  = Some (mkCompiler {[ 1%positive := EOther 1 ]}
            {[ Top := EOther 1; Captured 2 0 := EFixed "decTime" ]} false, None).
Proof.
  destruct (unused_time_engine_affects_later_builds
              {[ 1%positive := mkType reflect.Struct "time.Time" true 1 1 0 [] ]}
              1%positive (mkCompiler ∅ ∅ false)
              (mkCompiler {[ 1%positive := EFixed "decTime" ]}
                          {[ Captured 2 0 := EFixed "decTime" ]} false))
    as (_ & _ & _ & H & _).
  cbn [UnusedUnixNanoEncodeTimeType snd rt2decEng vars locked] in H.
  specialize (H 0%nat eq_refl).
  etrans; [|etrans; [exact H|]]; vm_compute; reflexivity.
Defined.


Section Bound.
Variable types : gmap positive rtypeInfo.


Lemma grows_refl c : grows types c c.
Proof. split; [done|]. split; auto. Qed.

Lemma grows_trans c1 c2 c3 : grows types c1 c2 -> grows types c2 c3 -> grows types c1 c3.
Proof.
  intros (? & ? & ?) (? & ? & ?). split; [by etrans|]. split; auto.
Qed.

Lemma grows_set slot eng (c : compiler) :
  grows types c (mkCompiler (rt2decEng c) (<[slot := eng]> (vars c)) (locked c)).
Proof.
  split; [done|]. split.
  - intros s Hs. cbn. destruct (decide (slot = s)) as [->|Hne].
    + rewrite lookup_insert_eq. eauto.
    + by rewrite lookup_insert_ne.
  - intros t i (Hc & Hi & Hv). cbn in *. split; [done|]. split; [done|].
    destruct (decide (slot = Captured t i)) as [->|Hne].
    + by rewrite lookup_insert_eq in Hv.
    + by rewrite lookup_insert_ne in Hv.
Qed.

Lemma grows_store rt slot eng (c : compiler) :
  rt2decEng c !! rt = None -> eng <> EClosure rt ->
  grows types c (store rt slot eng c).
Proof.
  intros Hc Heng. split; [by apply store_subseteq|]. split.
  - intros s Hs. cbn. destruct (decide (slot = s)) as [->|Hne].
    + rewrite lookup_insert_eq. eauto.
    + by rewrite lookup_insert_ne.
  - intros t i (Hc' & Hi & Hv). cbn in *.
    destruct (decide (rt = t)) as [->|Hne].
    + rewrite lookup_insert_eq in Hc'. congruence.
    + rewrite lookup_insert_ne in Hc' by done. split; [done|]. split; [done|].
      destruct (decide (slot = Captured t i)) as [->|Hne'].
      * by rewrite lookup_insert_eq in Hv.
      * by rewrite lookup_insert_ne in Hv.
Qed.

(** The closure of [rt] is registered, and its variables from [n] on are
    still to be set. *)
Lemma grows_registered rt slot (c c' : compiler) :
  rt2decEng c !! rt = None ->
  grows types (store rt slot (EClosure rt) c) c' ->
  (forall i, (i < captured types rt)%nat -> is_Some (vars c' !! Captured rt i)) ->
  grows types c c' /\ is_Some (vars c' !! slot).
Proof.
  intros Hc (Hsub & Hmono & Hun) Hset. split; [split; [|split]|].
  - etrans; [|exact Hsub]. by apply store_subseteq.
  - intros s Hs. apply Hmono. cbn. destruct (decide (slot = s)) as [->|Hne].
    + rewrite lookup_insert_eq. eauto.
    + by rewrite lookup_insert_ne.
  - intros t i Hu. pose proof Hu as (Hc' & Hi & Hv).
    destruct (decide (rt = t)) as [->|Hne].
    + destruct (Hset i Hi) as [x Hx]. congruence.
    + destruct (Hun t i Hu) as (Hc2 & _ & Hv2). cbn in Hc2, Hv2.
      rewrite lookup_insert_ne in Hc2 by done. split; [done|]. split; [done|].
      destruct (decide (slot = Captured t i)) as [->|Hne'].
      * by rewrite lookup_insert_eq in Hv2.
      * by rewrite lookup_insert_ne in Hv2.
  - apply Hmono. cbn. rewrite lookup_insert_eq. eauto.
Qed.

Lemma thenDeferred_none r call c' :
  thenDeferred r call = Some (c', None) ->
  exists c1, r = Some (c1, None) /\ call c1 = Some (c', None).
Proof.
  intros Hd. apply thenDeferred_inv in Hd as (c1 & e1 & e2 & -> & Hc & He).
  exists c1. destruct e2; [done|]. by subst.
Qed.

Lemma buildEngine_binds fuel : forall rt slot c c',
  buildEngine types fuel rt slot c = Some (c', None) ->
  grows types c c' /\ is_Some (vars c' !! slot).
Proof.
  induction fuel as [|fuel IH]; intros rt slot c c'; [done|].
  cbn [buildEngine].
  destruct (rt2decEng c !! rt) as [eng|] eqn:Hc.
  { intros [= <-]. split; [apply grows_set|]. cbn. rewrite lookup_insert_eq. eauto. }
  destruct (types !! rt) as [known|] eqn:Hin; [|done].
  destruct (hasOtherSerializer (typeOf types rt)) eqn:Hother.
  { intros [= <-]. split; [by apply grows_store|]. cbn. rewrite lookup_insert_eq. eauto. }
  pose proof (grows_registered rt slot c c' Hc) as Hdone. unfold captured in Hdone.
  destruct (Kind (typeOf types rt)) eqn:Hkind;
    try discriminate;
    try (intros [= <-]; split; [by apply grows_store|];
         cbn; rewrite lookup_insert_eq; by eauto).
  - (* Array *)
    intros Hd. apply thenDeferred_none in Hd as (c1 & [= <-] & Hb).
    destruct (IH _ _ _ _ Hb) as [Hg Hs]. apply Hdone; [done|].
    intros i Hi. by replace i with 0%nat by lia.
  - (* Interface *)
    intros [= <-]. apply Hdone; [apply grows_refl|]. intros i Hi. lia.
  - (* Map *)
    intros Hd. apply thenDeferred_none in Hd as (c2 & Hd & Hb2).
    apply thenDeferred_none in Hd as (c1 & [= <-] & Hb1).
    destruct (IH _ _ _ _ Hb1) as [Hg1 Hs1], (IH _ _ _ _ Hb2) as [Hg2 Hs2].
    apply Hdone; [by eapply grows_trans|].
    intros i Hi. destruct i as [|[|i]]; [done| |lia].
    by apply Hg2.
  - (* Ptr *)
    intros Hd. apply thenDeferred_none in Hd as (c1 & [= <-] & Hb).
    destruct (IH _ _ _ _ Hb) as [Hg Hs]. apply Hdone; [done|].
    intros i Hi. by replace i with 0%nat by lia.
  - (* Slice *)
    intros Hd. apply thenDeferred_none in Hd as (c1 & [= <-] & Hb).
    destruct (IH _ _ _ _ Hb) as [Hg Hs]. apply Hdone; [done|].
    intros i Hi. by replace i with 0%nat by lia.
  - (* Struct *)
    destruct (getFieldType (Fields (typeOf types rt)) 0) as [fields offs].
    cbn [fst] in Hdone.
    intros Hd. apply thenDeferred_none in Hd as (c1 & [= <-] & Hb).
    enough (Hloop : forall fs (i0 : nat) c1,
              (fix loop (fs : list positive) (i : nat) (c : compiler) : ended :=
                 match fs with
                 | [] => Some (c, None)
                 | f :: fs' =>
                     match buildEngine types fuel f (Captured rt i) c with
                     | None => None
                     | Some (c', Some e) => Some (c', Some e)
                     | Some (c', None) => loop fs' (S i) c'
                     end
                 end) fs i0 c1 = Some (c', None) ->
              grows types c1 c' /\
              forall j, (i0 <= j < i0 + length fs)%nat ->
                is_Some (vars c' !! Captured rt j)).
    { destruct (Hloop _ _ _ Hb) as [Hg Hset]. apply Hdone; [done|].
      intros i Hi. apply Hset. lia. }
    clear Hb Hdone. induction fs as [|f fs IHf]; intros i0 c1.
    + intros [= <-]. split; [apply grows_refl|]. intros j Hj. cbn in Hj. lia.
    + destruct (buildEngine types fuel f (Captured rt i0) c1)
        as [[c2 [e2|]]|] eqn:Eb; [done| |done].
      intros Hl. destruct (IH _ _ _ _ Eb) as [Hg Hs].
      destruct (IHf _ _ Hl) as [Hg' Hset].
      split; [by eapply grows_trans|].
      intros j Hj. cbn [length] in Hj.
      destruct (decide (j = i0)) as [->|Hne].
      * by apply Hg'.
      * apply Hset. lia.
Qed.
End Bound.

(** X21: a getDecEngine that returns without a panic sets the caller's
    engine variable and leaves no engine variable of a closure of the cache
    unset that was not unset before: from a state without unset
    variables, no closure is ever left with a nil engine to call. *)
Theorem successful_build_sets_every_engine_variable
    (types : gmap positive rtypeInfo) (fuel : nat) (rt : positive) (c c' : compiler) :
  getDecEngine types fuel rt c = Some (c', None) ->
  is_Some (vars c' !! Top) /\
  (forall t i, unset types c' t i -> unset types c t i) /\
  ((forall t i, ~ unset types c t i) -> forall t i, ~ unset types c' t i) /\
  (forall s, is_Some (vars c !! s) -> is_Some (vars c' !! s)).
Proof.
  intros H.
  assert (Hg : grows types c c' /\ is_Some (vars c' !! Top)).
  { destruct (getDecEngine_inv types _ _ _ _ _ H) as [Hl Hc].
    destruct (rt2decEng c !! rt) as [eng|].
    - destruct Hc as [_ ->]. rewrite <- Hl. split; [apply grows_set|].
      cbn. rewrite lookup_insert_eq. eauto.
    - destruct Hc as (c1 & Hb & _ & ->).
      apply buildEngine_binds in Hb as [Hg Hs]. split; [exact Hg|exact Hs]. }
  destruct Hg as [(Hsub & Hmono & Hun) Htop].
  split; [done|]. split; [done|]. split; [|done].
  intros Hnone t i Hu. by eapply Hnone, Hun.
Qed.

Lemma successful_build_sets_every_engine_variable_witness :
  is_Some (vars (mkCompiler
                   {[ 1%positive := EClosure 1; 2%positive := EClosure 2 ]}
                   {[ Top := EClosure 1;
                      Captured 1 0 := EClosure 2;
                      Captured 2 0 := EClosure 1 ]} false) !! Top).
Proof.
  assert (Hrun :
    getDecEngine nodeTypes 3 1%positive (mkCompiler ∅ ∅ false)
    = Some (mkCompiler
              {[ 1%positive := EClosure 1; 2%positive := EClosure 2 ]}
              {[ Top := EClosure 1;
                 Captured 1 0 := EClosure 2;
                 Captured 2 0 := EClosure 1 ]} false,
            None)) by (vm_compute; reflexivity).
  by destruct (successful_build_sets_every_engine_variable _ _ _ _ _ Hrun) as (Htop & _).
Defined.

Lemma forward_dret {A} (a : A) : forward (dret a).
Proof. intros d a' d' [= <- <-]. split; [done|lia]. Qed.

Lemma forward_dbind {A B} (m : Dec A) (f : A -> Dec B) :
  forward m -> (forall a, forward (f a)) -> forward (dbind m f).
Proof.
  intros Hm Hf d b d' H. unfold dbind in H.
  destruct (m d) as [[a d1]|] eqn:E; [|done].
  destruct (Hm _ _ _ E) as [? ?], (Hf a _ _ _ H) as [? ?].
  split; [congruence|lia].
Qed.

Lemma forward_decBool : forward decBool.
Proof.
  intros d b d' H. destruct (decBool_keeps _ _ _ H). split; [done|lia].
Qed.

Lemma forward_varint (dec : Dec Z) w n : groupBound dec w n -> forward dec.
Proof.
  intros Hg d v d' H. destruct (Hg _ _ _ H) as (_ & Hb & _ & _ & Hc & _).
  unfold consumed in Hc. split; [done|lia].
Qed.

Lemma forward_decUint16 : forward decUint16.
Proof. exact (forward_varint _ _ _ decUint16_groupBound). Qed.
Lemma forward_decUint32 : forward decUint32.
Proof. exact (forward_varint _ _ _ decUint32_groupBound). Qed.
Lemma forward_decUint64 : forward decUint64.
Proof. exact (forward_varint _ _ _ decUint64_groupBound). Qed.

Lemma forward_decLength p : forward (decLength p).
Proof.
  intros d l d' H. destruct (decLength_inv _ _ _ _ H) as (u & Hu & _).
  by apply forward_decUint32 in Hu.
Qed.

Lemma forward_byte (f : Z -> Z) :
  forward (fun d => x <-- at_ (buf d) (index d) ;; Ok (f x, setIndex d (index d + 1))).
Proof.
  intros d a d'. destruct (at_ _ _); [|done]. cbn [rbind].
  intros [= <- <-]. cbn. split; [done|lia].
Qed.

Lemma forward_runEngines {V} (engines : list (decEng V)) :
  Forall forwardEng engines -> forwardEng (runEngines engines).
Proof.
  induction 1 as [|eng engines He _ IH]; intros [|v vs]; cbn [runEngines];
    try apply forward_dret.
  apply forward_dbind; [apply He|]. intros v'.
  apply forward_dbind; [apply IH|]. intros vs'. apply forward_dret.
Qed.

Lemma forward_subslice {A} p (k : byteSlice -> Z -> A) :
  forward (fun d => match decUint32 d with
                    | Panic e => Panic e
                    | Ok (u, d) =>
                        let l := int p u in
                        s <-- subslice (buf d) (index d) (index d + l) ;;
                        Ok (k s l, setIndex d (index d + l))
                    end).
Proof.
  intros d a d'. destruct (decUint32 d) as [[u d1]|] eqn:E; [|done].
  apply forward_decUint32 in E as [Hb Hi]. cbv zeta.
  destruct (subslice _ _ _) as [s|] eqn:Es; [|done]. cbn [rbind].
  intros [= <- <-]. apply subslice_inv in Es as (Hlo & _). cbn.
  split; [done|lia].
Qed.

Section Forward.
Context {V : Type}.
Variable p : platform.
Variable zero : V.

Lemma forward_ptr (eng : decEng V) : forwardEng eng -> forwardEng (decPtrEng zero eng).
Proof.
  intros He dst. unfold decPtrEng.
  apply forward_dbind; [apply forward_decBool|]. intros [].
  - apply forward_dbind; [apply He|]. intros v'. apply forward_dret.
  - destruct (negb _); apply forward_dret.
Qed.

Lemma forward_sliceLoop (eng : decEng V) data n :
  forwardEng eng -> forall i m, forward (sliceLoop eng data n i m).
Proof.
  intros He. induction n as [|n IH]; intros i m; cbn [sliceLoop].
  - apply forward_dret.
  - apply forward_dbind; [|intros m'; apply IH].
    unfold engineAt. destruct data as [|blk off]; [done|].
    destruct (m !! blk) as [arr|]; [|done].
    destruct (0 <=? off + i); [|done].
    destruct (arr !! _) as [v|]; [|done].
    apply forward_dbind; [apply He|]. intros v'. apply forward_dret.
Qed.

Lemma forward_slice (eng : decEng V) :
  forwardEng eng -> forwardEng (decSliceEng p zero eng).
Proof.
  intros He [header m]. unfold decSliceEng.
  apply forward_dbind; [apply forward_decBool|]. intros [].
  - apply forward_dbind; [apply forward_decLength|]. intros l.
    apply forward_dbind.
    + destruct (_ || _); [|apply forward_dret].
      intros d a d'. destruct (MakeSlice zero l m) as [[ptr m']|]; [|done].
      intros [= <- <-]. split; [done|lia].
    + intros [header' m']. apply forward_dbind; [by apply forward_sliceLoop|].
      intros m2. apply forward_dret.
  - destruct (negb _); apply forward_dret.
Qed.

Context {K : Type}.
Variable keyEq : K -> K -> bool.
Variable zeroK : K.

Lemma forward_mapLoop (kEng : decEng K) (vEng : decEng V) n :
  forwardEng kEng -> forwardEng vEng ->
  forall key val v, forward (mapLoop zero keyEq zeroK kEng vEng n key val v).
Proof.
  intros Hk Hv. induction n as [|n IH]; intros key val v; cbn [mapLoop].
  - apply forward_dret.
  - apply forward_dbind; [apply Hk|]. intros key'.
    apply forward_dbind; [apply Hv|]. intros val'. apply IH.
Qed.

Lemma forward_map (kEng : decEng K) (vEng : decEng V) :
  forwardEng kEng -> forwardEng vEng ->
  forwardEng (decMapEng p zero keyEq zeroK kEng vEng).
Proof.
  intros Hk Hv dst. unfold decMapEng.
  apply forward_dbind; [apply forward_decBool|]. intros [].
  - apply forward_dbind; [apply forward_decLength|]. intros l.
    apply forward_dbind; [by apply forward_mapLoop|]. intros v'. apply forward_dret.
  - destruct (negb _); apply forward_dret.
Qed.

Lemma forward_blob (unmarshal : byteSlice -> V -> result V) :
  forwardEng (blobEng p unmarshal).
Proof.
  intros v. unfold blobEng.
  apply forward_dbind; [apply forward_decLength|]. intros l d a d'.
  cbn [index setIndex buf].
  destruct (subslice _ _ _) as [s|] eqn:Es; [|done]. cbn [rbind].
  destruct (unmarshal s v); [|done]. cbn [rbind].
  intros [= <- <-]. apply subslice_inv in Es as (Hlo & _). cbn.
  split; [done|lia].
Qed.

Lemma forward_serializer (gotinyDecode : byteSlice -> V -> result (Z * V)) :
  (forall s v n v', gotinyDecode s v = Ok (n, v') -> 0 <= n) ->
  forwardEng (serializerEng gotinyDecode).
Proof.
  intros Hn v d v' d'. unfold serializerEng.
  destruct (subslice _ _ _) as [s|]; [|done]. cbn [rbind].
  destruct (gotinyDecode s v) as [[n v1]|] eqn:Eg; [|done]. cbn [rbind fst snd].
  intros [= <- <-]. apply Hn in Eg. cbn. split; [done|lia].
Qed.

Lemma serializerEng_inv (gotinyDecode : byteSlice -> V -> result (Z * V)) v d v' d' :
  serializerEng gotinyDecode v d = Ok (v', d') ->
  exists s n,
    subslice (buf d) (index d) (sl_len (buf d)) = Ok s /\
    gotinyDecode s v = Ok (n, v') /\ d' = setIndex d (index d + n).
Proof.
  unfold serializerEng.
  destruct (subslice _ _ _) as [s|]; [|done]. cbn [rbind].
  destruct (gotinyDecode s v) as [[n v1]|] eqn:Eg; [|done]. cbn [rbind fst snd].
  intros [= <- <-]. by exists s, n.
Qed.

Context {M : Type}.

Lemma forward_interface registered ifaceIndir
    (getDecEngine : positive -> result (decEng (V * M)))
    assignable (zeroOf : positive -> V) :
  (forall t eng, getDecEngine t = Ok eng -> forwardEng eng) ->
  forwardEng (decInterfaceEng p registered ifaceIndir getDecEngine assignable zeroOf).
Proof.
  intros Hg [v m]. unfold decInterfaceEng. cbn [fst snd].
  apply forward_dbind; [apply forward_decBool|]. intros [].
  - apply forward_dbind; [apply (forward_subslice p (fun s _ => string_of_list_byte (sl_bytes s)))|].
    intros name. destruct (registered !! name) as [elementType|]; [|done].
    assert (Hrun : forall x (k : V * M -> Dec (option (positive * V) * M)),
              (forall r, forward (k r)) ->
              forward (eng <- liftR (getDecEngine elementType) ; r <- eng (x, m) ; k r)).
    { intros x k Hk d a d'. unfold dbind at 1. unfold liftR.
      destruct (getDecEngine elementType) as [eng|] eqn:Eg; [|done].
      apply forward_dbind; [by eapply Hg|]. exact Hk. }
    destruct v as [[t x]|].
    + destruct (bool_decide _).
      * apply Hrun. intros r. destruct (ifaceIndir _); apply forward_dret.
      * apply Hrun. intros r. destruct (assignable _); [apply forward_dret|done].
    + apply Hrun. intros r. destruct (assignable _); [apply forward_dret|done].
  - destruct (negb _); apply forward_dret.
Qed.
End Forward.


